(** * PNDMS hazard feeds: a shallow embedding of [src/app.py]

    The development models the four feed functions
    ([fetch_earthquake_data], [fetch_wildfire_data], [fetch_hurricane_data],
    [fetch_tsunami_data]), the ten-minute memoisation they are wrapped in,
    the marker-colour rules of the map pages and [is_password_strong]; then
    the markers of the tsunami map and the selector of the wildfire map, the
    accounts ([create_user], [authenticate_user], the sign-up form and the
    profile page) over the users table, the session and the dispatch of
    the pages, the news page ([mediastack_news]) and the dropdowns of the
    prediction page.

    Python values are embedded as the inductive [pyval]; a Python call that
    may raise returns a [result].  Floats are IEEE binary64, embedded as the
    standard library's [spec_float] at precision 53 and [emax] 1024.  A
    character of a Python [str] is one [ascii]. *)

From Stdlib Require Import ZArith QArith List String Ascii Bool Lia Lqa DecimalString.
From Stdlib Require Import PrimFloat SpecFloat FloatOps.
From Stdlib Require Import Permutation Sorted.
From Stdlib Require DecimalZ DecimalPos.
Import ListNotations.

Set Warnings "-register-all".

Open Scope string_scope.
Open Scope Z_scope.

(** ** Exceptions and results *)

Module Py.

(** The exception classes the modelled code can meet.  The last four are
    [requests.exceptions.RequestException] subclasses ([JSONDecodeError] is
    the one [Response.json] raises, a [RequestException] since requests
    2.27). *)
Inductive exn : Set :=
| KeyError | IndexError | TypeError | AttributeError | ValueError
| OverflowError
| ConnectionError | Timeout | HTTPError | JSONDecodeError.

Definition is_RequestException (e : exn) : bool :=
  match e with
  | ConnectionError | Timeout | HTTPError | JSONDecodeError => true
  | _ => false
  end.

Inductive result (A : Type) : Type :=
| Ok (a : A)
| Raise (e : exn).

Arguments Ok {A} a.
Arguments Raise {A} e.

Definition bind {A B : Type} (r : result A) (k : A -> result B) : result B :=
  match r with
  | Ok a => k a
  | Raise e => Raise e
  end.

Definition is_ok {A : Type} (r : result A) : bool :=
  match r with Ok _ => true | Raise _ => false end.

(** [mapM f l] is a [for] loop that appends [f x] for each [x], left to
    right; the first exception leaves the loop. *)
Fixpoint mapM {A B : Type} (f : A -> result B) (l : list A) : result (list B) :=
  match l with
  | [] => Ok []
  | x :: t =>
      bind (f x) (fun y => bind (mapM f t) (fun ys => Ok (y :: ys)))
  end.

(** ** Values *)

(** What [json] parsing yields, and so what the feed code handles.  A
    [dict] keeps its insertion order; its keys are strings, each bound
    once. *)
Inductive pyval : Type :=
| PNone
| PBool (b : bool)
| PInt (z : Z)
| PFloat (f : spec_float)
| PStr (s : string)
| PList (l : list pyval)
| PDict (d : list (string * pyval)).

Fixpoint lookup {V : Type} (k : string) (d : list (string * V)) : option V :=
  match d with
  | [] => None
  | (k', v) :: t => if String.eqb k k' then Some v else lookup k t
  end.

(** [d.get(k, dflt)]: only a [dict] has the method. *)
Definition get (d : pyval) (k : string) (dflt : pyval) : result pyval :=
  match d with
  | PDict kv => Ok (match lookup k kv with Some v => v | None => dflt end)
  | _ => Raise AttributeError
  end.

(** [d[k]] with a string [k]. *)
Definition getitem (d : pyval) (k : string) : result pyval :=
  match d with
  | PDict kv => match lookup k kv with Some v => Ok v | None => Raise KeyError end
  | _ => Raise TypeError
  end.

(** [v[i]] with a literal index [i >= 0].  A [dict] from JSON has no
    integer key. *)
Definition index (v : pyval) (i : nat) : result pyval :=
  match v with
  | PList l => match nth_error l i with Some x => Ok x | None => Raise IndexError end
  | PStr s =>
      match String.get i s with
      | Some c => Ok (PStr (String c EmptyString))
      | None => Raise IndexError
      end
  | PDict _ => Raise KeyError
  | _ => Raise TypeError
  end.

(** [v[:n]].  On a [dict] CPython up to 3.11 raises [TypeError] (unhashable
    slice), later versions [KeyError]; neither is caught anywhere. *)
Definition slice_to (n : nat) (v : pyval) : result pyval :=
  match v with
  | PList l => Ok (PList (firstn n l))
  | PStr s => Ok (PStr (String.substring 0 n s))
  | _ => Raise TypeError
  end.

(** The items a [for] loop over [v] visits. *)
Definition iter (v : pyval) : result (list pyval) :=
  match v with
  | PList l => Ok l
  | PStr s => Ok (map (fun c => PStr (String c EmptyString)) (list_ascii_of_string s))
  | PDict kv => Ok (map (fun p => PStr (fst p)) kv)
  | _ => Raise TypeError
  end.

(** [len(v)]. *)
Definition len (v : pyval) : result nat :=
  match v with
  | PList l => Ok (List.length l)
  | PStr s => Ok (String.length s)
  | PDict kv => Ok (List.length kv)
  | _ => Raise TypeError
  end.

(** [v == s] for a string literal [s]; never raises. *)
Definition eq_str (v : pyval) (s : string) : bool :=
  match v with
  | PStr s' => String.eqb s' s
  | _ => false
  end.

(** ** Numbers *)

Definition prec : Z := 53.
Definition emax : Z := 1024.

Definition signed (s : bool) (m : positive) : Z :=
  if s then Z.neg m else Z.pos m.

(** Exact comparison of a float with an integer, as CPython's
    [float_richcompare] does it: [m * 2^e] against [k]. *)
Definition SFcompare_Z (f : spec_float) (k : Z) : option comparison :=
  match f with
  | S754_nan => None
  | S754_infinity s => Some (if s then Lt else Gt)
  | S754_zero _ => Some (0 ?= k)
  | S754_finite s m e =>
      Some match e with
           | Z0 => signed s m ?= k
           | Zpos p => signed s m * Z.pos (2 ^ p) ?= k
           | Zneg p => signed s m ?= k * Z.pos (2 ^ p)
           end
  end.

(** [float(z)] for an integer: round to nearest even, [OverflowError]
    beyond the largest finite float. *)
Definition float_of_Z (z : Z) : result spec_float :=
  match binary_normalize prec emax z 0 false with
  | S754_infinity _ => Raise OverflowError
  | f => Ok f
  end.

(** [v ? k] for an integer literal [k]: [bool] is an [int]; every other
    non-number raises [TypeError]. *)
Definition compare_int (v : pyval) (k : Z) : result (option comparison) :=
  match v with
  | PInt z => Ok (Some (z ?= k))
  | PBool b => Ok (Some (Z.b2z b ?= k))
  | PFloat f => Ok (SFcompare_Z f k)
  | _ => Raise TypeError
  end.

Definition is_lt (c : option comparison) : bool :=
  match c with Some Lt => true | _ => false end.

Definition is_ge (c : option comparison) : bool :=
  match c with Some Gt | Some Eq => true | _ => false end.

(** [v < k]. *)
Definition lt_int (v : pyval) (k : Z) : result bool :=
  bind (compare_int v k) (fun c => Ok (is_lt c)).

Fixpoint repeat_string (s : string) (n : nat) : string :=
  match n with
  | O => EmptyString
  | S n' => s ++ repeat_string s n'
  end.

(** [v * k] for an integer literal [k]: product of numbers, repetition of
    sequences. *)
Definition mul_int (v : pyval) (k : Z) : result pyval :=
  match v with
  | PInt z => Ok (PInt (z * k))
  | PBool b => Ok (PInt (Z.b2z b * k))
  | PFloat f => bind (float_of_Z k) (fun kf => Ok (PFloat (SFmul prec emax f kf)))
  | PStr s => Ok (PStr (repeat_string s (Z.to_nat k)))
  | PList l => Ok (PList (List.concat (repeat l (Z.to_nat k))))
  | PNone | PDict _ => Raise TypeError
  end.

(** [x >= y] on floats. *)
Definition SFgeb (x y : spec_float) : bool := is_ge (SFcompare x y).

Section FloatOfStr.

(** [float(s)] on a string is CPython's decimal parser; it is taken as a
    parameter ([None] is [ValueError]). *)
Variable float_of_str : string -> option spec_float.

(** The builtin [float(v)]. *)
Definition py_float (v : pyval) : result spec_float :=
  match v with
  | PFloat f => Ok f
  | PInt z => float_of_Z z
  | PBool b => float_of_Z (Z.b2z b)
  | PStr s => match float_of_str s with Some f => Ok f | None => Raise ValueError end
  | PNone | PList _ | PDict _ => Raise TypeError
  end.

End FloatOfStr.

(** The exact value of a number, when it has one. *)
Definition SF2Q (f : spec_float) : option Q :=
  match f with
  | S754_zero _ => Some (0 # 1)%Q
  | S754_finite s m e =>
      Some match e with
           | Z0 => (signed s m # 1)%Q
           | Zpos p => (signed s m * Z.pos (2 ^ p) # 1)%Q
           | Zneg p => (signed s m # 2 ^ p)%Q
           end
  | _ => None
  end.

Definition number_value (v : pyval) : option Q :=
  match v with
  | PInt z => Some (inject_Z z)
  | PBool b => Some (inject_Z (Z.b2z b))
  | PFloat f => SF2Q f
  | _ => None
  end.

End Py.

Import Py.

Notation "x <- e ;; k" := (bind e (fun x => k))
  (at level 61, e at next level, right associativity).

(** ** The HTTP transport *)

Module Http.

(** What [response.json()] finds in the body. *)
Inductive body : Type :=
| JsonBody (data : pyval)
| NotJson.

Record Response : Type := mkResponse {
  status_code : Z;
  content : body
}.

(** What the upstream does when asked: the request fails with a
    [RequestException] ([ConnectionError], [Timeout]), or a response
    arrives. *)
Inductive upstream : Type :=
| Fails (e : exn)
| Answers (r : Response).

(** [requests.get(url)] and [requests.get(url, timeout=10)]. *)
Definition requests_get (u : upstream) : result Response :=
  match u with
  | Fails e => Raise e
  | Answers r => Ok r
  end.

(** [response.raise_for_status()]: [HTTPError] on 4xx and 5xx. *)
Definition raise_for_status (r : Response) : result unit :=
  if (400 <=? status_code r) && (status_code r <? 600)
  then Raise HTTPError else Ok tt.

(** [response.json()]. *)
Definition json (r : Response) : result pyval :=
  match content r with
  | JsonBody data => Ok data
  | NotJson => Raise JSONDecodeError
  end.

End Http.

Import Http.

(** ** The feed functions *)

(** The body of the loop of [fetch_earthquake_data]: one record per
    feature, every field read with [[...]]. *)
Definition earthquake_record (quake : pyval) : result pyval :=
  geometry <- getitem quake "geometry" ;;
  coords <- getitem geometry "coordinates" ;;
  properties <- getitem quake "properties" ;;
  place <- getitem properties "place" ;;
  properties' <- getitem quake "properties" ;;
  mag <- getitem properties' "mag" ;;
  lat <- index coords 1 ;;
  lon <- index coords 0 ;;
  Ok (PDict [("place", place); ("magnitude", mag);
             ("latitude", lat); ("longitude", lon)]).

Definition fetch_earthquake_data (u : upstream) : result (list pyval) :=
  response <- requests_get u ;;
  if negb (status_code response =? 200) then Ok []
  else
    match json response with
    | Raise _ => Ok []
    | Ok data =>
        earthquakes <- get data "features" (PList []) ;;
        first10 <- slice_to 10 earthquakes ;;
        quakes <- iter first10 ;;
        mapM earthquake_record quakes
    end.

(** The inner loop body of [fetch_wildfire_data]: a geometry entry [g] of
    [event] gives a record when its coordinates have exactly two entries,
    and nothing otherwise. *)
Definition wildfire_point (event g : pyval) : result (list pyval) :=
  coords <- get g "coordinates" (PList []) ;;
  n <- len coords ;;
  if Nat.eqb n 2 then
    title <- get event "title" (PStr "Wildfire") ;;
    lat <- index coords 1 ;;
    lon <- index coords 0 ;;
    sources <- get event "sources" (PList [PDict []]) ;;
    source0 <- index sources 0 ;;
    url <- get source0 "url" (PStr "No source available") ;;
    Ok [PDict [("title", title); ("latitude", lat);
               ("longitude", lon); ("source", url)]]
  else Ok [].

(** The outer loop body: the records of one event. *)
Definition wildfire_event (event : pyval) : result (list pyval) :=
  geometry <- get event "geometry" (PList []) ;;
  points <- iter geometry ;;
  per_point <- mapM (wildfire_point event) points ;;
  Ok (List.concat per_point).

Definition fetch_wildfire_data (u : upstream) : result (list pyval) :=
  response <- requests_get u ;;
  if negb (status_code response =? 200) then Ok []
  else
    match json response with
    | Raise _ => Ok []
    | Ok data =>
        events <- get data "events" (PList []) ;;
        first10 <- slice_to 10 events ;;
        evs <- iter first10 ;;
        per_event <- mapM wildfire_event evs ;;
        Ok (List.concat per_event)
    end.

(** The loop body of [fetch_hurricane_data]. *)
Definition hurricane_record (feature : pyval) : result pyval :=
  properties <- get feature "properties" (PDict []) ;;
  geometry <- get feature "geometry" (PDict []) ;;
  coordinates <- get geometry "coordinates" (PList [PInt 0; PInt 0]) ;;
  storm_name <- get properties "name" (PStr "Unknown Storm") ;;
  advisory <- get properties "fullIssue" (PStr "No advisory available.") ;;
  wind_speed <- get properties "windMph" (PStr "Unknown Speed") ;;
  storm_category <- get properties "category" (PStr "Unknown Category") ;;
  lat <- index coordinates 1 ;;
  lon <- index coordinates 0 ;;
  Ok (PDict [("name", storm_name); ("latitude", lat); ("longitude", lon);
             ("advisory", advisory); ("wind_speed", wind_speed);
             ("category", storm_category)]).

(** The [try] block of [fetch_hurricane_data]. *)
Definition hurricane_request (u : upstream) : result pyval :=
  response <- requests_get u ;;
  _ <- raise_for_status response ;;
  json response.

(** The [st.error] banner of the [except] branch is display only and is
    not modelled. *)
Definition fetch_hurricane_data (u : upstream) : result (list pyval) :=
  match hurricane_request u with
  | Raise e => if is_RequestException e then Ok [] else Raise e
  | Ok data =>
      features <- get data "features" (PList []) ;;
      fs <- iter features ;;
      mapM hurricane_record fs
  end.

(** The loop body of [fetch_tsunami_data]; [event.get("latitude")] has the
    default [None]. *)
Definition tsunami_record (event : pyval) : result pyval :=
  location <- get event "locationName" (PStr "Unknown Location") ;;
  latitude <- get event "latitude" PNone ;;
  longitude <- get event "longitude" PNone ;;
  magnitude <- get event "earthquakeMagnitude" (PStr "N/A") ;;
  depth <- get event "depth" (PStr "N/A") ;;
  year <- get event "year" (PStr "Unknown Year") ;;
  cause <- get event "cause" (PStr "No Advisory Available") ;;
  Ok (PDict [("location", location); ("latitude", latitude);
             ("longitude", longitude); ("magnitude", magnitude);
             ("depth", depth); ("year", year); ("cause", cause)]).

(** The whole body of [fetch_tsunami_data] is inside the [try]. *)
Definition tsunami_try (u : upstream) : result (list pyval) :=
  response <- requests_get u ;;
  _ <- raise_for_status response ;;
  data <- json response ;;
  events <- iter data ;;
  mapM tsunami_record events.

Definition fetch_tsunami_data (u : upstream) : result (list pyval) :=
  match tsunami_try u with
  | Raise e => if is_RequestException e then Ok [] else Raise e
  | Ok tsunamis => Ok tsunamis
  end.

(** The four feeds. *)
Inductive HazardType : Set := Seismic | Wildfire | Cyclone | Tsunami.

Definition fetch (t : HazardType) : upstream -> result (list pyval) :=
  match t with
  | Seismic => fetch_earthquake_data
  | Wildfire => fetch_wildfire_data
  | Cyclone => fetch_hurricane_data
  | Tsunami => fetch_tsunami_data
  end.

(** ** [st.cache_data(ttl=600)] *)

(** The decorator keeps the last returned value with the time it was
    computed.  A call within [ttl] of that time returns the stored value and
    does not run the function; otherwise the function runs, a returned value
    replaces the entry, and an exception passes through and stores
    nothing. *)
Record CacheEntry : Type := mkEntry {
  events : list pyval;
  fetchedAt : Z
}.

Definition ttl : Z := 600.

Definition fresh (c : option CacheEntry) (now : Z) : bool :=
  match c with
  | Some e => now - fetchedAt e <? ttl
  | None => false
  end.

Definition cache_data (f : upstream -> result (list pyval))
    (c : option CacheEntry) (now : Z) (u : upstream)
  : result (list pyval) * option CacheEntry :=
  match c with
  | Some e =>
      if now - fetchedAt e <? ttl then (Ok (events e), c)
      else match f u with
           | Ok l => (Ok l, Some (mkEntry l now))
           | Raise ex => (Raise ex, c)
           end
  | None =>
      match f u with
      | Ok l => (Ok l, Some (mkEntry l now))
      | Raise ex => (Raise ex, c)
      end
  end.

(** A feed function as the pages call it. *)
Definition cached_fetch (t : HazardType) :
  option CacheEntry -> Z -> upstream -> result (list pyval) * option CacheEntry :=
  cache_data (fetch t).

(** ** Marker rules of the map pages *)

(** [earthquakes]: the colour expression
    ["green" if magnitude < 4 else "orange" if magnitude < 6 else "red"]. *)
Definition earthquakes_color (magnitude : pyval) : result string :=
  below4 <- lt_int magnitude 4 ;;
  if below4 then Ok "green"
  else
    below6 <- lt_int magnitude 6 ;;
    Ok (if below6 then "orange" else "red").

(** [earthquakes]: colour, then [radius=magnitude * 2]. *)
Definition earthquakes_marker (magnitude : pyval) : result (string * pyval) :=
  color <- earthquakes_color magnitude ;;
  radius <- mul_int magnitude 2 ;;
  Ok (color, radius).

(** [hurricanes]: the table and [category_colors.get(category, "blue")].
    A list or a dict is unhashable and makes the lookup raise; any other
    value that is not one of the keys gets the default. *)
Definition category_colors : list (string * string) :=
  [ ("Tropical Depression", "green");
    ("Tropical Storm", "orange");
    ("Category 1", "yellow");
    ("Category 2", "gold");
    ("Category 3", "red");
    ("Category 4", "darkred");
    ("Category 5", "purple") ].

Definition hurricanes_marker_color (category : pyval) : result string :=
  match category with
  | PStr label =>
      Ok (match lookup label category_colors with
          | Some color => color
          | None => "blue"
          end)
  | PList _ | PDict _ => Raise TypeError
  | _ => Ok "blue"
  end.

(** The float literals [8.0], [6.5] and [5.0]. *)
Definition f8_0 : spec_float := S754_finite false 4503599627370496 (-49).
Definition f6_5 : spec_float := S754_finite false 7318349394477056 (-50).
Definition f5_0 : spec_float := S754_finite false 5629499534213120 (-50).

Section Tsunamis.

Variable float_of_str : string -> option spec_float.

(** [tsunamis]: one entry of the [marker_colors] comprehension, on the
    value of [event["magnitude"]]; [float(...)] is evaluated anew in each
    test. *)
Definition tsunamis_magnitude_color (magnitude : pyval) : result string :=
  if eq_str magnitude "N/A" then Ok "blue"
  else
    m8 <- py_float float_of_str magnitude ;;
    if SFgeb m8 f8_0 then Ok "darkred"
    else
      m65 <- py_float float_of_str magnitude ;;
      if SFgeb m65 f6_5 then Ok "red"
      else
        m5 <- py_float float_of_str magnitude ;;
        if SFgeb m5 f5_0 then Ok "orange" else Ok "yellow".

Definition tsunamis_marker_color (event : pyval) : result string :=
  magnitude <- getitem event "magnitude" ;;
  tsunamis_magnitude_color magnitude.

End Tsunamis.

(** ** Password strength *)

(** A Python [str] is a sequence of code points; [len] counts them and a
    character class of [re] tests them one by one. *)
Definition text : Type := list N.

(** The text of a string, one code point per character: the texts whose
    characters are all below U+0100. *)
Definition code_points (s : string) : text :=
  map N_of_ascii (list_ascii_of_string s).

Module Password.

Definition MIN_PASSWORD_LENGTH : nat := 8.
Definition REQUIRE_UPPERCASE : bool := true.
Definition REQUIRE_LOWERCASE : bool := true.
Definition REQUIRE_NUMBERS : bool := true.
Definition REQUIRE_SPECIAL_CHARS : bool := true.

(** The twenty members of the character class of the source's
    SPECIAL_CHARS pattern, in its order; the fourteenth, code 34, is the
    double quote. *)
Definition SPECIAL_CHARS : text :=
  map N_of_ascii
    [ "!"; "@"; "#"; "$"; "%"; "^"; "&"; "*"; "("; ")"; ","; "."; "?";
      "034"; ":"; "{"; "}"; "|"; "<"; ">" ]%char.

(** A character class [[lo-hi]]. *)
Definition in_range (lo hi : ascii) (c : N) : bool :=
  (N_of_ascii lo <=? c)%N && (c <=? N_of_ascii hi)%N.

Definition is_upper : N -> bool := in_range "A" "Z".
Definition is_lower : N -> bool := in_range "a" "z".
Definition is_digit : N -> bool := in_range "0" "9".
Definition is_special (c : N) : bool := existsb (N.eqb c) SPECIAL_CHARS.

(** [re.search(cls, s)] for a one-character class, as a truth value. *)
Definition re_search (cls : N -> bool) (s : text) : bool := existsb cls s.

(** One [if REQUIRE and not re.search(...)] block: it appends to both
    lists. *)
Definition check (require : bool) (cls : N -> bool) (name : string)
    (password : text) (st : list bool * list string) : list bool * list string :=
  if require && negb (re_search cls password)
  then ((fst st ++ [false])%list, (snd st ++ [name])%list)
  else st.

Definition length_message : string :=
  "Password must be at least "
  ++ NilEmpty.string_of_uint (Nat.to_uint MIN_PASSWORD_LENGTH)
  ++ " characters long".

Definition is_password_strong (password : text) : bool * string :=
  if (List.length password <? MIN_PASSWORD_LENGTH)%nat
  then (false, length_message)
  else
    let st := ([], []) in
    let st := check REQUIRE_UPPERCASE is_upper "uppercase letter" password st in
    let st := check REQUIRE_LOWERCASE is_lower "lowercase letter" password st in
    let st := check REQUIRE_NUMBERS is_digit "number" password st in
    let st := check REQUIRE_SPECIAL_CHARS is_special "special character" password st in
    match fst st with
    | _ :: _ => (false, "Password must contain: " ++ String.concat ", " (snd st))
    | [] => (true, "Password meets strength requirements")
    end.

End Password.

(** [is_password_strong] on a password held as a string, as the accounts
    below hold it. *)
Definition is_password_strong (password : string) : bool * string :=
  Password.is_password_strong (code_points password).

(** ** Vocabulary of the statements *)

(** *** Feeds *)

(** The upstream answers 200 with a JSON object in which [k] is bound to
    the list [l]. *)
Definition serves (u : upstream) (k : string) (l : list pyval) : Prop :=
  exists r kv,
    u = Answers r /\ status_code r = 200 /\
    content r = JsonBody (PDict kv) /\ lookup k kv = Some (PList l).

(** The upstream answers 200 with the JSON array [l], the shape
    [fetch_tsunami_data] iterates over. *)
Definition serves_array (u : upstream) (l : list pyval) : Prop :=
  exists r, u = Answers r /\ status_code r = 200 /\ content r = JsonBody (PList l).

(** The failures a feed function turns into the empty list.  The seismic
    and wildfire functions absorb a status other than 200 and a body that
    is not JSON; the cyclone and tsunami functions absorb every request
    exception, a 4xx or 5xx status and a body that is not JSON. *)
Definition absorbed (t : HazardType) (u : upstream) : Prop :=
  match t, u with
  | (Seismic | Wildfire), Answers r =>
      status_code r <> 200 \/ content r = NotJson
  | (Seismic | Wildfire), Fails _ => False
  | (Cyclone | Tsunami), Answers r =>
      400 <= status_code r < 600 \/ content r = NotJson
  | (Cyclone | Tsunami), Fails e => is_RequestException e = true
  end.

Definition is_dict (v : pyval) : Prop :=
  match v with PDict _ => True | _ => False end.

(** The key [k] is missing from an object, or bound to an object. *)
Definition absent_or_object (k : string) (kv : list (string * pyval)) : Prop :=
  match lookup k kv with
  | None | Some (PDict _) => True
  | _ => False
  end.

(** *** Wildfire events *)

(** A geometry entry that the wildfire loop turns into a record: its
    [coordinates] is a list of exactly two entries. *)
Definition two_coordinates (g : pyval) : bool :=
  match g with
  | PDict kv =>
      match lookup "coordinates" kv with
      | Some (PList [_; _]) => true
      | _ => false
      end
  | _ => false
  end.

(** A geometry entry the wildfire loop can examine: an object whose
    [coordinates], when present, is a list. *)
Definition geometry_entry (g : pyval) : Prop :=
  match g with
  | PDict kv =>
      match lookup "coordinates" kv with
      | Some (PList _) | None => True
      | _ => False
      end
  | _ => False
  end.

(** A wildfire event the loop can process: an object whose [geometry],
    when present, is a list of geometry entries, and whose [sources], when
    present, is a list that starts with an object. *)
Definition wildfire_well_formed (event : pyval) : Prop :=
  match event with
  | PDict kv =>
      match lookup "geometry" kv with
      | Some (PList gs) => Forall geometry_entry gs
      | None => True
      | _ => False
      end /\
      match lookup "sources" kv with
      | Some (PList (PDict _ :: _)) | None => True
      | _ => False
      end
  | _ => False
  end.

(** The geometry entries of an event, as the loop sees them. *)
Definition geometry_of (event : pyval) : list pyval :=
  match event with
  | PDict kv =>
      match lookup "geometry" kv with
      | Some (PList gs) => gs
      | _ => []
      end
  | _ => []
  end.

(** [event.get("sources", [{}])[0].get("url", "No source available")]. *)
Definition source_url (event : pyval) : result pyval :=
  sources <- get event "sources" (PList [PDict []]) ;;
  source0 <- index sources 0 ;;
  get source0 "url" (PStr "No source available").

(** The record the wildfire loop makes of a two-coordinate geometry entry
    [g], for the title and source address of its event. *)
Definition point_record (title url g : pyval) : pyval :=
  match g with
  | PDict kv =>
      match lookup "coordinates" kv with
      | Some (PList [lon; lat]) =>
          PDict [("title", title); ("latitude", lat);
                 ("longitude", lon); ("source", url)]
      | _ => PNone
      end
  | _ => PNone
  end.

(** *** Cyclone and seismic features *)

(** A cyclone feature without [geometry], or whose [geometry] has no
    [coordinates]. *)
Definition location_missing (kv : list (string * pyval)) : Prop :=
  lookup "geometry" kv = None \/
  exists g, lookup "geometry" kv = Some (PDict g) /\ lookup "coordinates" g = None.

(** A seismic feature that lacks one of the fields the loop reads. *)
Definition seismic_field_missing (kv : list (string * pyval)) : Prop :=
  lookup "geometry" kv = None \/
  lookup "properties" kv = None \/
  (exists g, lookup "geometry" kv = Some (PDict g) /\
             lookup "coordinates" g = None) \/
  (exists p, lookup "properties" kv = Some (PDict p) /\
             (lookup "place" p = None \/ lookup "mag" p = None)).

(** *** Numbers *)

(** A value that, if it is a float, is a valid binary64 one; what JSON
    parsing yields always is. *)
Definition binary64 (v : pyval) : Prop :=
  match v with
  | PFloat f => valid_binary prec emax f = true
  | _ => True
  end.

(** [scaled f] is the exact value of a finite float in units of
    [2^-1074], the smallest positive binary64 number. *)
Definition scaled (f : spec_float) : Z :=
  match f with
  | S754_finite s m e => signed s m * 2 ^ (e + 1074)
  | _ => 0
  end.

(** [shl n m] is [m * 2^n]: [n] zero bits appended to the mantissa. *)
Definition shl (n : nat) (m : positive) : positive := Nat.iter n xO m.

(** The float literals of the scenarios: [5.2] is [0x1.4cccccccccccdp+2],
    [10.4] is [0x1.4cccccccccccdp+3], and [2.0] is what [float(2)] gives. *)
Definition f5_2 : spec_float := S754_finite false 5854679515581645 (-50).
Definition f10_4 : spec_float := S754_finite false 5854679515581645 (-49).
Definition f2_0 : spec_float := S754_finite false 4503599627370496 (-51).

(** *** Passwords *)

(** [contains P p]: some character of [p] satisfies [P]. *)
Definition contains (P : N -> Prop) (p : text) : Prop :=
  exists c, In c p /\ P c.

Definition uppercase_letter (c : N) : Prop :=
  (N_of_ascii "A" <= c <= N_of_ascii "Z")%N.
Definition lowercase_letter (c : N) : Prop :=
  (N_of_ascii "a" <= c <= N_of_ascii "z")%N.
Definition digit (c : N) : Prop :=
  (N_of_ascii "0" <= c <= N_of_ascii "9")%N.

(** The special characters: the twenty of the list, which are
    ! @ # $ % ^ & * ( ) , . ? : { } | < > and, fourteenth in the list, the
    double quote. *)
Definition special_characters : text :=
  code_points ("!@#$%^&*(),.?" ++ String "034" ":{}|<>").
Definition special_character (c : N) : Prop := In c special_characters.

(** Passwords with a character above U+00FF: a weak one and a strong
    one. *)
Definition password_without_classes : text :=
  (code_points "abcdefgh" ++ [8364%N])%list.
Definition password_with_classes : text :=
  (code_points "Passw0rd" ++ [8364%N; 33%N])%list.

(** ** Concrete feeds *)

(** A 200 response whose JSON body is the object with the single key [k]
    bound to the list [l]. *)
Definition feed (k : string) (l : list pyval) : upstream :=
  Answers (mkResponse 200 (JsonBody (PDict [(k, PList l)]))).

(** A 200 response whose JSON body is the array [l]. *)
Definition array_feed (l : list pyval) : upstream :=
  Answers (mkResponse 200 (JsonBody (PList l))).

(** A response with status 503 and an HTML body. *)
Definition unavailable : upstream := Answers (mkResponse 503 NotJson).

Definition point (lon lat : Z) : pyval :=
  PDict [("type", PStr "Point"); ("coordinates", PList [PInt lon; PInt lat])].

(** A geometry point with an altitude: three coordinates. *)
Definition point_3d (lon lat alt : Z) : pyval :=
  PDict [("type", PStr "Point");
         ("coordinates", PList [PInt lon; PInt lat; PInt alt])].

(** A wildfire event with the given geometry entries. *)
Definition fire (geometry : list pyval) : pyval :=
  PDict [("title", PStr "Park Fire");
         ("sources", PList [PDict [("id", PStr "IRWIN");
                                   ("url", PStr "https://irwin.doi.gov/")]]);
         ("geometry", PList geometry)].

(** A well-formed seismic feature. *)
Definition quake (place : string) (mag : pyval) (lon lat : Z) : pyval :=
  PDict [("type", PStr "Feature");
         ("properties", PDict [("mag", mag); ("place", PStr place)]);
         ("geometry", PDict [("type", PStr "Point");
                             ("coordinates", PList [PInt lon; PInt lat; PInt 10])])].

(** A seismic feature without [geometry]. *)
Definition quake_no_geometry : pyval :=
  PDict [("type", PStr "Feature");
         ("properties", PDict [("mag", PInt 3); ("place", PStr "Offshore")])].

(** A cyclone feature with explicit nulls as coordinates, and one without
    geometry whose [properties] is null. *)
Definition storm_null_coordinates : pyval :=
  PDict [("properties", PDict [("name", PStr "Ana"); ("category", PStr "Category 1")]);
         ("geometry", PDict [("type", PStr "Point");
                             ("coordinates", PList [PNone; PNone])])].

Definition storm_null_properties : pyval :=
  PDict [("properties", PNone)].

(** A cache entry made at time 0. *)
Definition old_entry : CacheEntry :=
  mkEntry [PDict [("place", PStr "Ridgecrest"); ("magnitude", PInt 5);
                  ("latitude", PInt 35); ("longitude", PInt (-117))]] 0.

(** ** Vocabulary of the further properties *)

(** [seismic_record_of feature record]: [feature] has every field the
    seismic loop reads, with a coordinate list of at least two entries, and
    [record] holds its place, magnitude, second coordinate as latitude and
    first coordinate as longitude. *)
Definition seismic_record_of (feature record : pyval) : Prop :=
  exists kv props geo place mag lon lat rest,
    feature = PDict kv /\
    lookup "properties" kv = Some (PDict props) /\
    lookup "geometry" kv = Some (PDict geo) /\
    lookup "place" props = Some place /\
    lookup "mag" props = Some mag /\
    lookup "coordinates" geo = Some (PList (lon :: lat :: rest)) /\
    record = PDict [("place", place); ("magnitude", mag);
                    ("latitude", lat); ("longitude", lon)].

(** A run of calls of one cached feed function: each call comes with the
    time it is made at and with what the upstream would answer then. *)
Fixpoint cached_calls (t : HazardType) (c : option CacheEntry)
    (calls : list (Z * upstream)) : list (result (list pyval)) * option CacheEntry :=
  match calls with
  | [] => ([], c)
  | (now, u) :: rest =>
      let '(r, c') := cached_fetch t c now u in
      let '(rs, c'') := cached_calls t c' rest in
      (r :: rs, c'')
  end.

(** * The pages *)

(** ** The tsunami map *)

(** [filterM p l] is the comprehension [[x for x in l if p(x)]]; the first
    exception leaves it. *)
Fixpoint filterM {A : Type} (p : A -> result bool) (l : list A) : result (list A) :=
  match l with
  | [] => Ok []
  | x :: t =>
      keep <- p x ;;
      rest <- filterM p t ;;
      Ok (if keep then x :: rest else rest)
  end.

(** [v is not None]. *)
Definition is_not_None (v : pyval) : bool :=
  match v with PNone => false | _ => true end.

(** The condition of the [valid_events] comprehension of [tsunamis]:
    [event["latitude"] is not None and event["longitude"] is not None];
    [and] reads the longitude only when the latitude is not [None]. *)
Definition tsunami_located (event : pyval) : result bool :=
  latitude <- getitem event "latitude" ;;
  if is_not_None latitude then
    longitude <- getitem event "longitude" ;;
    Ok (is_not_None longitude)
  else Ok false.

(** What [tsunamis] hands to [folium.Marker] for one event: the location,
    the five values its popup text is made of, and the icon colour. *)
Record Marker : Type := mkMarker {
  marker_location : pyval * pyval;
  marker_popup : list pyval;
  marker_color : string
}.

(** One entry of the [locations] comprehension. *)
Definition tsunami_location (event : pyval) : result (pyval * pyval) :=
  latitude <- getitem event "latitude" ;;
  longitude <- getitem event "longitude" ;;
  Ok (latitude, longitude).

(** One entry of the [popups] comprehension: the values the f-string
    reads, in its order. *)
Definition tsunami_popup (event : pyval) : result (list pyval) :=
  location <- getitem event "location" ;;
  magnitude <- getitem event "magnitude" ;;
  depth <- getitem event "depth" ;;
  year <- getitem event "year" ;;
  cause <- getitem event "cause" ;;
  Ok [location; magnitude; depth; year; cause].

(** [zip(locations, popups, marker_colors)]. *)
Definition zip_markers (locations : list (pyval * pyval))
    (popups : list (list pyval)) (colors : list string) : list Marker :=
  map (fun x => mkMarker (fst x) (fst (snd x)) (snd (snd x)))
      (combine locations (combine popups colors)).

Section TsunamiMap.

Variable float_of_str : string -> option spec_float.

(** The markers [tsunamis] places, for the list [fetch_tsunami_data]
    returned: none when the list is empty or no event has a location;
    otherwise the three comprehensions are evaluated in turn, and only then
    are the markers added. *)
Definition tsunamis_markers (tsunami_events : list pyval) : result (list Marker) :=
  match tsunami_events with
  | [] => Ok []
  | _ :: _ =>
      valid_events <- filterM tsunami_located tsunami_events ;;
      match valid_events with
      | [] => Ok []
      | _ :: _ =>
          locations <- mapM tsunami_location valid_events ;;
          popups <- mapM tsunami_popup valid_events ;;
          marker_colors <- mapM (tsunamis_marker_color float_of_str) valid_events ;;
          Ok (zip_markers locations popups marker_colors)
      end
  end.

End TsunamiMap.

(** The value of the key [k] of an upstream entry, or [dflt]. *)
Definition field (k : string) (dflt : pyval) (kv : list (string * pyval)) : pyval :=
  match lookup k kv with Some v => v | None => dflt end.

(** An upstream tsunami entry with a latitude and a longitude that are not
    null. *)
Definition has_location (kv : list (string * pyval)) : bool :=
  is_not_None (field "latitude" PNone kv) && is_not_None (field "longitude" PNone kv).

(** The colour rule applied to the magnitude of an upstream entry, as the
    record carries it. *)
Definition tsunami_entry_color (float_of_str : string -> option spec_float)
    (kv : list (string * pyval)) : result string :=
  tsunamis_magnitude_color float_of_str
    (field "earthquakeMagnitude" (PStr "N/A") kv).

(** The record [fetch_tsunami_data] makes of an upstream entry. *)
Definition tsunami_record_of (kv : list (string * pyval)) : pyval :=
  PDict [("location", field "locationName" (PStr "Unknown Location") kv);
         ("latitude", field "latitude" PNone kv);
         ("longitude", field "longitude" PNone kv);
         ("magnitude", field "earthquakeMagnitude" (PStr "N/A") kv);
         ("depth", field "depth" (PStr "N/A") kv);
         ("year", field "year" (PStr "Unknown Year") kv);
         ("cause", field "cause" (PStr "No Advisory Available") kv)].

(** Upstream tsunami entries: one with a location and magnitude 7.0, one
    without a location and with a null magnitude, one with a location and
    a null magnitude. *)
Definition entry_located : list (string * pyval) :=
  [("locationName", PStr "CHILE"); ("latitude", PInt (-38)); ("longitude", PInt (-73));
   ("earthquakeMagnitude", PFloat (S754_finite false 7881299347898368 (-50)))].

Definition entry_unlocated_null : list (string * pyval) :=
  [("locationName", PStr "LISBON"); ("earthquakeMagnitude", PNone)].

Definition entry_located_null : list (string * pyval) :=
  [("locationName", PStr "KRAKATAU"); ("latitude", PInt (-6)); ("longitude", PInt 105);
   ("earthquakeMagnitude", PNone)].

(** ** Dicts and sets keyed by values *)

(** Lists and dicts are unhashable: using one as a key raises
    [TypeError]. *)
Definition hashable (v : pyval) : bool :=
  match v with PList _ | PDict _ => false | _ => true end.

Definition as_int (v : pyval) : option Z :=
  match v with
  | PBool b => Some (Z.b2z b)
  | PInt z => Some z
  | _ => None
  end.

Definition is_Eq (c : option comparison) : bool :=
  match c with Some Eq => true | _ => false end.

(** The key test of [dict] and [set] on hashable values: the same object,
    or [==].  Numbers are equal across [bool], [int] and [float] when their
    values are; the [nan] of a JSON body is [json]'s one module constant, so
    as a key it is equal to itself. *)
Definition key_eqb (x y : pyval) : bool :=
  match x, y with
  | PNone, PNone => true
  | PStr a, PStr b => String.eqb a b
  | PFloat S754_nan, PFloat S754_nan => true
  | PFloat f, PFloat g => is_Eq (SFcompare f g)
  | PFloat f, _ =>
      match as_int y with Some z => is_Eq (SFcompare_Z f z) | None => false end
  | _, PFloat g =>
      match as_int x with Some z => is_Eq (SFcompare_Z g z) | None => false end
  | _, _ =>
      match as_int x, as_int y with
      | Some a, Some b => Z.eqb a b
      | _, _ => false
      end
  end.

(** A [dict] with arbitrary keys, in insertion order. *)
Definition pydict : Type := list (pyval * pyval).

(** [d[k] = v] on a hashable [k]: a key already there keeps its place and
    gets the new value. *)
Fixpoint dict_set (k v : pyval) (d : pydict) : pydict :=
  match d with
  | [] => [(k, v)]
  | (k', v') :: t =>
      if key_eqb k' k then (k', v) :: t else (k', v') :: dict_set k v t
  end.

Definition dict_setitem (k v : pyval) (d : pydict) : result pydict :=
  if hashable k then Ok (dict_set k v d) else Raise TypeError.

Fixpoint dict_find (k : pyval) (d : pydict) : option pyval :=
  match d with
  | [] => None
  | (k', v) :: t => if key_eqb k' k then Some v else dict_find k t
  end.

(** [d[k]]. *)
Definition dict_getitem (d : pydict) (k : pyval) : result pyval :=
  if hashable k then
    match dict_find k d with Some v => Ok v | None => Raise KeyError end
  else Raise TypeError.

(** [foldM f l a]: a loop that threads a value through the items. *)
Fixpoint foldM {A S : Type} (f : S -> A -> result S) (l : list A) (a : S) : result S :=
  match l with
  | [] => Ok a
  | x :: t => a' <- f a x ;; foldM f t a'
  end.

(** ** The wildfire map *)

(** [{fire["title"]: fire for fire in wildfire_data}]. *)
Definition wildfire_dict (wildfire_data : list pyval) : result pydict :=
  foldM (fun d fire => title <- getitem fire "title" ;; dict_setitem title fire d)
        wildfire_data [].

(** [st.selectbox(label, options)] returns one of its options: the one at
    the position the user picked, the first one at the start. *)
Definition selectbox (options : list pyval) (choice : nat) : option pyval :=
  match nth_error options choice with
  | Some o => Some o
  | None => hd_error options
  end.

(** What [wildfires] hands to [folium.Marker]: the location and the two
    values of the popup. *)
Record FireMarker : Type := mkFireMarker {
  fire_location : pyval * pyval;
  fire_title : pyval;
  fire_source : pyval
}.

(** [wildfires], up to the marker: nothing when the list is empty;
    otherwise the select box offers the keys of [wildfire_dict] and the
    marker is made from the record under the chosen key. *)
Definition wildfires_page (wildfire_data : list pyval) (choice : nat)
  : result (option (list pyval * FireMarker)) :=
  match wildfire_data with
  | [] => Ok None
  | _ :: _ =>
      d <- wildfire_dict wildfire_data ;;
      match selectbox (map fst d) choice with
      | None => Ok None
      | Some selected_fire =>
          selected_event <- dict_getitem d selected_fire ;;
          center_lat <- getitem selected_event "latitude" ;;
          center_lon <- getitem selected_event "longitude" ;;
          source_url <- getitem selected_event "source" ;;
          title <- getitem selected_event "title" ;;
          Ok (Some (map fst d, mkFireMarker (center_lat, center_lon) title source_url))
      end
  end.

(** A record as [fetch_wildfire_data] makes it, with a text as title. *)
Definition fire_record (title : string) (lat lon source : pyval) : pyval :=
  PDict [("title", PStr title); ("latitude", lat);
         ("longitude", lon); ("source", source)].

Definition is_fire_record (r : pyval) : Prop :=
  exists title lat lon source, r = fire_record title lat lon source.

(** The title of a record, when it is a text. *)
Definition record_title (r : pyval) : string :=
  match getitem r "title" with
  | Ok (PStr t) => t
  | _ => EmptyString
  end.

(** The dict [wildfire_dict] builds from records whose titles are texts. *)
Definition titled_dict (wildfire_data : list pyval) (d : pydict) : pydict :=
  fold_left (fun d fire => dict_set (PStr (record_title fire)) fire d)
            wildfire_data d.

Definition has_title (t : string) (r : pyval) : bool :=
  String.eqb (record_title r) t.

Definition string_keys (d : pydict) : Prop :=
  Forall (fun kv => exists t, fst kv = PStr t) d.

(** The titles in the order of their first appearance, each once. *)
Fixpoint first_appearances (titles : list string) : list string :=
  match titles with
  | [] => []
  | t :: rest =>
      t :: filter (fun s => negb (String.eqb s t)) (first_appearances rest)
  end.

(** [event.get("title", "Wildfire")], the title the records of an event
    carry. *)
Definition event_title (event : pyval) : pyval :=
  match get event "title" (PStr "Wildfire") with
  | Ok title => title
  | Raise _ => PNone
  end.

(** ** Accounts *)

(** The [users] table of [init_db]: rows of username, password and email,
    with [username] the primary key.  Only the statements the application
    runs are modelled. *)
Definition users_table : Type := list (string * (string * string)).

(** [INSERT INTO users ... VALUES (?, ?, ?)]: [None] is
    [sqlite3.IntegrityError], raised when the username is already a key. *)
Definition insert_user (username password email : string) (db : users_table)
  : option users_table :=
  match lookup username db with
  | Some _ => None
  | None => Some (db ++ [(username, (password, email))])%list
  end.

(** [UPDATE users SET username = ?, email = ? WHERE username = ?] on the
    rows; the password column is not touched. *)
Fixpoint update_rows (new_username new_email current : string) (db : users_table)
  : users_table :=
  match db with
  | [] => []
  | (u, (pw, em)) :: t =>
      if String.eqb u current
      then (new_username, (pw, new_email)) :: update_rows new_username new_email current t
      else (u, (pw, em)) :: update_rows new_username new_email current t
  end.

(** The statement as a whole: [None] is [sqlite3.IntegrityError], raised
    when the new name is the key of another row. *)
Definition update_user (new_username new_email current : string) (db : users_table)
  : option users_table :=
  match lookup current db with
  | None => Some db
  | Some _ =>
      if negb (String.eqb new_username current)
         && match lookup new_username db with Some _ => true | None => false end
      then None
      else Some (update_rows new_username new_email current db)
  end.

(** What the sign-up form shows. *)
Inductive signup_message : Type :=
| AllFieldsRequired
| PasswordsDontMatch
| PasswordTooWeak (msg : string)
| UsernameExists
| AccountCreated.

Definition is_empty (s : string) : bool :=
  match s with EmptyString => true | _ => false end.

Section Accounts.

(** [bcrypt.hashpw(password, salt)] and [bcrypt.checkpw(password, hashed)],
    on texts; both can raise [ValueError]. *)
Variable hashpw : string -> string -> result string.
Variable checkpw : string -> string -> result bool.

(** [create_user]; [salt] is what [bcrypt.gensalt()] returns.  The result
    comes with the table as the call leaves it. *)
Definition create_user (username password email salt : string) (db : users_table)
  : result bool * users_table :=
  if negb (fst (is_password_strong password)) then (Ok false, db)
  else
    match hashpw password salt with
    | Raise e => (Raise e, db)
    | Ok hashed_pw =>
        match insert_user username hashed_pw email db with
        | Some db' => (Ok true, db')
        | None => (Ok false, db)
        end
    end.

(** [authenticate_user]. *)
Definition authenticate_user (username password : string) (db : users_table)
  : result bool :=
  match lookup username db with
  | Some (stored_hash, _) => checkpw password stored_hash
  | None => Ok false
  end.

(** The [Create Account] button of [auth_page]. *)
Definition signup (signup_email new_user new_pass confirm_pass salt : string)
    (db : users_table) : result signup_message * users_table :=
  if is_empty new_user || is_empty new_pass || is_empty signup_email
  then (Ok AllFieldsRequired, db)
  else if negb (String.eqb new_pass confirm_pass)
  then (Ok PasswordsDontMatch, db)
  else
    if negb (fst (is_password_strong new_pass))
    then (Ok (PasswordTooWeak (snd (is_password_strong new_pass))), db)
    else
      match create_user new_user new_pass signup_email salt db with
      | (Ok true, db') => (Ok AccountCreated, db')
      | (Ok false, db') => (Ok UsernameExists, db')
      | (Raise e, db') => (Raise e, db')
      end.

End Accounts.

(** The [Save Changes] button of [profile_page], for the user of the
    session: [None] when the page shows an error ([User data not found], or
    the [sqlite3.Error] of the update); otherwise the table and the
    username of the session after the update. *)
Definition profile_save (session_username new_username new_email : string)
    (db : users_table) : option (users_table * string) :=
  match lookup session_username db with
  | None => None
  | Some _ =>
      match update_user new_username new_email session_username db with
      | None => None
      | Some db' => Some (db', new_username)
      end
  end.

(** The usernames of a table. *)
Definition usernames (db : users_table) : list string := map fst db.

(** What a user can do to the table: press [Create Account] with the
    contents of the form (and the salt [bcrypt] draws), or press
    [Save Changes] on the profile page of a session. *)
Inductive account_action : Type :=
| SignUp (signup_email new_user new_pass confirm_pass salt : string)
| SaveProfile (session_username new_username new_email : string).

Section History.

Variable hashpw : string -> string -> result string.

Definition apply_action (db : users_table) (a : account_action) : users_table :=
  match a with
  | SignUp signup_email new_user new_pass confirm_pass salt =>
      snd (signup hashpw signup_email new_user new_pass confirm_pass salt db)
  | SaveProfile session_username new_username new_email =>
      match profile_save session_username new_username new_email db with
      | Some (db', _) => db'
      | None => db
      end
  end.

(** The table after a run of actions on the empty table [init_db] makes. *)
Definition table_after (actions : list account_action) : users_table :=
  fold_left apply_action actions [].

(** A stored password that is the hash of a strong password. *)
Definition strong_hash (stored : string) : Prop :=
  exists password salt,
    fst (is_password_strong password) = true /\ hashpw password salt = Ok stored.

End History.

(** A stand-in for [bcrypt] to run the account functions on: the hash is
    the password itself, whatever the salt. *)
Definition plain_hashpw (password salt : string) : result string := Ok password.
Definition plain_checkpw (password hashed : string) : result bool :=
  Ok (String.eqb password hashed).

(** A table of two accounts. *)
Definition two_accounts : users_table :=
  [("alice", ("Abcdef1!", "alice@example.org"));
   ("bob", ("Zyxwvu9#", "bob@example.org"))].

(** ** Sessions and pages *)

(** [st.session_state.username]: not set, [None], or a name. *)
Inductive slot : Type :=
| Unset
| IsNone
| Name (u : string).

(** The part of [st.session_state] the script reads. *)
Record session : Type := mkSession {
  page : string;
  authenticated : bool;
  username : slot
}.

(** The session state after the two initialisations at the top of the
    script, in a fresh session. *)
Definition new_session : session := mkSession "auth" false Unset.

(** What a run of the script puts on the screen.  The profile page comes
    with whether the row of the session's user was found: its two buttons
    are only there when it was. *)
Inductive view : Type :=
| AuthPage
| HomePage
| NewsPage
| EarthquakesPage
| EarthquakeInfoPage
| WildfiresPage
| WildfireInfoPage
| HurricanesPage
| HurricaneInfoPage
| TsunamisPage
| TsunamiInfoPage
| ProfilePage (found : bool)
| LogoutPage
| PredictionPage.

(** The row [profile_page] selects for the user of the session; [None] as
    a parameter is SQL [NULL], which equals no username. *)
Definition user_data (s : session) (db : users_table) : option (string * string) :=
  match username s with
  | Name u => lookup u db
  | _ => None
  end.

(** The two [if]/[elif] chains at the end of the script, and the [else] of
    the second, which is the prediction page. *)
Definition dispatch (s : session) (db : users_table) : view :=
  let p := page s in
  if String.eqb p "home" then HomePage
  else if String.eqb p "news" then NewsPage
  else if String.eqb p "earthquakes" then EarthquakesPage
  else if String.eqb p "earthquake_info" then EarthquakeInfoPage
  else if String.eqb p "wildfires" then WildfiresPage
  else if String.eqb p "wildfire_info" then WildfireInfoPage
  else if String.eqb p "hurricanes" then HurricanesPage
  else if String.eqb p "hurricane_info" then HurricaneInfoPage
  else if String.eqb p "tsunamis" then TsunamisPage
  else if String.eqb p "tsunami_info" then TsunamiInfoPage
  else if String.eqb p "profile"
  then ProfilePage (match user_data s db with Some _ => true | None => false end)
  else if String.eqb p "logout" then LogoutPage
  else PredictionPage.

(** One run of the script with no button pressed: the page it shows and
    the session state it leaves.  Unauthenticated sessions stop at the
    gate; [logout_page] clears the session while it renders. *)
Definition run_script (s : session) (db : users_table) : view * session :=
  if negb (authenticated s) then (AuthPage, s)
  else
    match dispatch s db with
    | LogoutPage => (LogoutPage, mkSession (page s) false IsNone)
    | v => (v, s)
    end.

(** The buttons, with the contents of the inputs their handlers read (and
    the salt [bcrypt] draws).  [BackToHome], [LearnAbout] and
    [BackToTracking] stand for the buttons of that kind on every page that
    has one. *)
Inductive event : Type :=
| Login (login_username login_password : string)
| CreateAccount (signup_email new_user new_pass confirm_pass salt : string)
| GetStarted
| NewsButton
| EarthquakesButton
| WildfiresButton
| HurricanesButton
| TsunamisButton
| UserProfile
| BackToHome
| LearnAbout
| BackToTracking
| ReloadNews
| PredictDisaster
| SaveChanges (new_username new_email : string)
| LogoutButton
| LoginAgain
| SignUpButton.

(** The buttons of a page.  A button that a map page draws only when its
    feed has data counts as drawn: the feeds are not part of the state
    here. *)
Definition has_button (v : view) (e : event) : bool :=
  match v, e with
  | AuthPage, (Login _ _ | CreateAccount _ _ _ _ _) => true
  | HomePage, (GetStarted | NewsButton | EarthquakesButton | WildfiresButton
               | HurricanesButton | TsunamisButton | UserProfile) => true
  | NewsPage, (ReloadNews | BackToHome) => true
  | (EarthquakesPage | WildfiresPage | HurricanesPage | TsunamisPage),
    (BackToHome | LearnAbout) => true
  | (EarthquakeInfoPage | WildfireInfoPage | HurricaneInfoPage | TsunamiInfoPage),
    BackToTracking => true
  | ProfilePage true, (SaveChanges _ _ | LogoutButton) => true
  | LogoutPage, (LoginAgain | SignUpButton) => true
  | PredictionPage, (PredictDisaster | BackToHome) => true
  | _, _ => false
  end.

(** How a handler ends: with [st.rerun()], or by letting the run finish
    (also when it raised). *)
Inductive outcome : Type :=
| Rerun (s : session) (db : users_table)
| Stay (s : session) (db : users_table).

Definition goto (p : string) (s : session) : session :=
  mkSession p (authenticated s) (username s).

Section Navigation.

Variable hashpw : string -> string -> result string.
Variable checkpw : string -> string -> result bool.

(** The handler of a button, on the page where the run reached it. *)
Definition handler (v : view) (e : event) (s : session) (db : users_table) : outcome :=
  match e with
  | Login login_username login_password =>
      match authenticate_user checkpw login_username login_password db with
      | Ok true => Rerun (mkSession "home" true (Name login_username)) db
      | _ => Stay s db
      end
  | CreateAccount signup_email new_user new_pass confirm_pass salt =>
      Stay s (snd (signup hashpw signup_email new_user new_pass confirm_pass salt db))
  | GetStarted => Rerun (goto "prediction" s) db
  | NewsButton => Rerun (goto "news" s) db
  | EarthquakesButton => Rerun (goto "earthquakes" s) db
  | WildfiresButton => Rerun (goto "wildfires" s) db
  | HurricanesButton => Rerun (goto "hurricanes" s) db
  | TsunamisButton => Rerun (goto "tsunamis" s) db
  | UserProfile => Rerun (goto "profile" s) db
  | BackToHome => Rerun (goto "home" s) db
  | LearnAbout =>
      match v with
      | EarthquakesPage => Rerun (goto "earthquake_info" s) db
      | WildfiresPage => Rerun (goto "wildfire_info" s) db
      | HurricanesPage => Rerun (goto "hurricane_info" s) db
      | TsunamisPage => Rerun (goto "tsunami_info" s) db
      | _ => Stay s db
      end
  | BackToTracking =>
      match v with
      | EarthquakeInfoPage => Rerun (goto "earthquakes" s) db
      | WildfireInfoPage => Rerun (goto "wildfires" s) db
      | HurricaneInfoPage => Rerun (goto "hurricanes" s) db
      | TsunamiInfoPage => Rerun (goto "tsunamis" s) db
      | _ => Stay s db
      end
  | ReloadNews => Rerun s db
  | PredictDisaster => Stay s db
  | SaveChanges new_username new_email =>
      match username s with
      | Name u =>
          match update_user new_username new_email u db with
          | Some db' => Rerun (mkSession (page s) (authenticated s) (Name new_username)) db'
          | None => Stay s db
          end
      | _ => Stay s db
      end
  | LogoutButton => Rerun (mkSession "logout" false IsNone) db
  | LoginAgain => Rerun (goto "auth" s) db
  | SignUpButton => Rerun (goto "auth" s) db
  end.

(** The application between two runs of the script: the session, the
    users table, and the page on the screen. *)
Record appstate : Type := mkApp {
  state : session;
  table : users_table;
  shown : view
}.

(** A fresh session on a table: the first run shows the login page. *)
Definition start (db : users_table) : appstate :=
  mkApp (snd (run_script new_session db)) db (fst (run_script new_session db)).

(** Pressing a button of the page on the screen: the script runs again from
    the top; if the run reaches the button, its handler runs, and
    [st.rerun()] starts one more run.  [None]: the page on the screen has
    no such button. *)
Definition press (e : event) (a : appstate) : option appstate :=
  if negb (has_button (shown a) e) then None
  else
    let (v, s) := run_script (state a) (table a) in
    if has_button v e then
      match handler v e s (table a) with
      | Rerun s' db' => Some (mkApp (snd (run_script s' db')) db' (fst (run_script s' db')))
      | Stay s' db' => Some (mkApp s' db' v)
      end
    else Some (mkApp s (table a) v).

(** A run of presses; one for a button that is not on the screen does
    nothing. *)
Definition step (a : appstate) (e : event) : appstate :=
  match press e a with
  | Some a' => a'
  | None => a
  end.

Definition after (events : list event) (db : users_table) : appstate :=
  fold_left step events (start db).

End Navigation.

(** What holds between two runs of the script, in one session. *)
Definition consistent (a : appstate) : Prop :=
  (authenticated (state a) = false /\ shown a = AuthPage)
  \/ (authenticated (state a) = true /\
      String.eqb (page (state a)) "logout" = false /\
      (exists u, username (state a) = Name u /\ lookup u (table a) <> None) /\
      shown a = dispatch (state a) (table a)).

(** ** The news page *)

Definition disaster_keywords : list string :=
  ["earthquake"; "flood"; "hurricane"; "wildfire"; "tsunami"; "cyclone";
   "landslide"; "volcano"; "storm"; "tornado"].

(** The truth value of a JSON value. *)
Definition truthy (v : pyval) : bool :=
  match v with
  | PNone => false
  | PBool b => b
  | PInt z => negb (z =? 0)
  | PFloat (S754_zero _) => false
  | PFloat _ => true
  | PStr EmptyString => false
  | PStr _ => true
  | PList [] => false
  | PList _ => true
  | PDict [] => false
  | PDict _ => true
  end.

(** One round of the loop over the keywords: what [all_articles.extend]
    appends.  Only a 200 is read; nothing is caught. *)
Definition news_request (u : upstream) : result (list pyval) :=
  response <- requests_get u ;;
  if status_code response =? 200 then
    data <- json response ;;
    found <- get data "data" (PList []) ;;
    iter found
  else Ok [].

(** The loop: [net keyword] is what the upstream does with the request for
    that keyword. *)
Definition fetch_articles (net : string -> upstream) : result (list pyval) :=
  foldM (fun all_articles keyword =>
           more <- news_request (net keyword) ;;
           Ok (all_articles ++ more)%list)
        disaster_keywords [].

(** The body of the loop that removes duplicate URLs, on the pair of
    [seen_urls] and [unique_articles]. *)
Definition unique_step (st : list pyval * list pyval) (article : pyval)
  : result (list pyval * list pyval) :=
  url <- get article "url" PNone ;;
  if truthy url then
    if hashable url then
      if existsb (key_eqb url) (fst st) then Ok st
      else Ok (url :: fst st, (snd st ++ [article])%list)
    else Raise TypeError
  else Ok st.

Definition unique_articles (all_articles : list pyval) : result (list pyval) :=
  st <- foldM unique_step all_articles ([], []) ;;
  Ok (snd st).

(** The sort keys [parse_date] returns: an aware [datetime], as the
    instant it denotes in microseconds, or the naive [datetime.min]. *)
Inductive datetime : Type :=
| Aware (instant : Z)
| Min.

(** [a < b]: two aware values compare by instant; an aware and a naive one
    do not compare. *)
Definition datetime_lt (a b : datetime) : result bool :=
  match a, b with
  | Aware x, Aware y => Ok (x <? y)
  | Min, Min => Ok false
  | _, _ => Raise TypeError
  end.

(** [list.sort(key=key)]: stable, ascending, by [<] on the keys alone.
    Every item is compared with one already placed, as in any comparison
    sort: an exception of [<] leaves the sort. *)
Fixpoint insert_sorted {A : Type} (key : A -> datetime) (x : A) (l : list A)
  : result (list A) :=
  match l with
  | [] => Ok [x]
  | y :: t =>
      b <- datetime_lt (key x) (key y) ;;
      if b then Ok (x :: y :: t)
      else (r <- insert_sorted key x t ;; Ok (y :: r))
  end.

Definition sort {A : Type} (key : A -> datetime) (l : list A) : result (list A) :=
  foldM (fun placed x => insert_sorted key x placed) l [].

(** [sorted(items, key=key, reverse=True)]: the list is reversed, sorted,
    and reversed again, which keeps items with equal keys in their
    order. *)
Definition sorted_reverse {A : Type} (key : A -> datetime) (items : list A)
  : result (list A) :=
  r <- sort key (rev items) ;;
  Ok (rev r).

Section News.

(** [datetime.strptime(s, "%Y-%m-%dT%H:%M:%S%z")] on a text: the instant,
    or [None] for [ValueError]. *)
Variable strptime : string -> option Z.

(** [parse_date], on an article that is a [dict]: every exception gives
    [datetime.min]. *)
Definition parse_date (article : pyval) : datetime :=
  match getitem article "published_at" with
  | Ok (PStr s) =>
      match strptime s with
      | Some t => Aware t
      | None => Min
      end
  | _ => Min
  end.

(** [mediastack_news] up to the articles it goes on to show. *)
Definition mediastack_news (net : string -> upstream) : result (list pyval) :=
  all_articles <- fetch_articles net ;;
  unique <- unique_articles all_articles ;;
  sorted_articles <- sorted_reverse parse_date unique ;;
  Ok (firstn 5 sorted_articles).

End News.

(** An article has a date when [parse_date] reads an instant. *)
Definition dated (strptime : string -> option Z) (article : pyval) : Prop :=
  exists t, parse_date strptime article = Aware t.

Definition instant_of (d : datetime) : Z :=
  match d with Aware t => t | Min => 0 end.

(** [x] is not later than [y], by their keys. *)
Definition earlier {A : Type} (key : A -> datetime) (x y : A) : Prop :=
  instant_of (key x) <= instant_of (key y).

(** [b] is not newer than [a]. *)
Definition not_newer (strptime : string -> option Z) (a b : pyval) : Prop :=
  earlier (parse_date strptime) b a.

(** The [url] of an article that is a [dict]. *)
Definition url_of (article : pyval) : pyval :=
  match get article "url" PNone with Ok v => v | Raise _ => PNone end.

(** Articles with a usable [url], none equal to the [url] of an article
    before it. *)
Inductive distinct_urls : list pyval -> Prop :=
| distinct_nil : distinct_urls []
| distinct_cons a l :
    is_dict a ->
    truthy (url_of a) = true ->
    hashable (url_of a) = true ->
    Forall (fun b => key_eqb (url_of b) (url_of a) = false) l ->
    distinct_urls l ->
    distinct_urls (a :: l).

Definition aware (d : datetime) : bool :=
  match d with Aware _ => true | Min => false end.

(** The article is an item of the [data] of a 200 response to one of the
    ten requests. *)
Definition served (net : string -> upstream) (article : pyval) : Prop :=
  exists keyword response kv items,
    In keyword disaster_keywords /\
    net keyword = Answers response /\
    status_code response = 200 /\
    content response = JsonBody (PDict kv) /\
    iter (match lookup "data" kv with Some v => v | None => PList [] end) = Ok items /\
    In article items.

(** Articles and upstreams to run the news page on, and a stand-in for
    [strptime] that knows three timestamps. *)
Definition news_article (url published_at : string) : pyval :=
  PDict [("title", PStr "Report"); ("url", PStr url);
         ("published_at", PStr published_at)].

Definition news_feed (articles : list pyval) : upstream :=
  Answers (mkResponse 200 (JsonBody (PDict [("data", PList articles)]))).

Definition known_timestamps (s : string) : option Z :=
  lookup s [("2025-03-01T10:00:00+0000", 1740823200000000);
            ("2025-03-02T10:00:00+0000", 1740909600000000);
            ("2025-03-03T10:00:00+0000", 1740996000000000)].

(** Two keywords answer, with one article in common; the others have
    nothing. *)
Definition two_keywords (keyword : string) : upstream :=
  if String.eqb keyword "earthquake"
  then news_feed [news_article "http://a.example/1" "2025-03-01T10:00:00+0000";
                  news_article "http://a.example/2" "2025-03-03T10:00:00+0000"]
  else if String.eqb keyword "flood"
  then news_feed [news_article "http://a.example/2" "2025-03-03T10:00:00+0000";
                  news_article "http://a.example/3" "2025-03-02T10:00:00+0000"]
  else news_feed [].

(** The same, with an article whose date is not in the format. *)
Definition one_bad_date (keyword : string) : upstream :=
  if String.eqb keyword "storm"
  then news_feed [news_article "http://a.example/4" "yesterday"]
  else two_keywords keyword.

(** The same, with one request that fails. *)
Definition one_request_fails (keyword : string) : upstream :=
  if String.eqb keyword "tornado" then Fails ConnectionError
  else two_keywords keyword.

(** What the loop over [all_articles] keeps between two rounds. *)
Definition unique_state (done : list pyval) (st : list pyval * list pyval) : Prop :=
  distinct_urls (snd st) /\
  incl (snd st) done /\
  Forall is_dict done /\
  (forall u, In u (fst st) <-> In u (map url_of (snd st))) /\
  (forall a, In a done -> truthy (url_of a) = true ->
     exists b, In b (snd st) /\ (b = a \/ key_eqb (url_of a) (url_of b) = true)).

(** ** The prediction page *)

(** [str(z)] of an integer. *)
Definition str_int (z : Z) : string := NilZero.string_of_int (Z.to_int z).

(** The text of a dropdown entry, [f"{key}: {value}"]. *)
Definition option_text (entry : Z * string) : string :=
  str_int (fst entry) ++ ": " ++ snd entry.

(** [s.split(":")[0]]: the text before the first colon, all of it when
    there is none. *)
Fixpoint before_colon (s : string) : string :=
  match s with
  | EmptyString => EmptyString
  | String c t => if Ascii.eqb c ":" then EmptyString else String c (before_colon t)
  end.

Definition magnitude_scale_mapping : list (Z * string) :=
  [(0, "Km²"); (1, "Richter Scale"); (2, "Wind Speed (km/h)");
   (3, "Water Level (m)"); (4, "Temperature (°C)"); (5, "Rainfall (mm)")].

Section Prediction.

(** [int(s)] on a text. *)
Variable int_of_str : string -> result Z.

(** The three lines of a dropdown: the entries of the mapping as options,
    the one the user picked, and the integer before its colon. *)
Definition dropdown_index (mapping : list (Z * string)) (choice : nat) : result Z :=
  match selectbox (map (fun entry => PStr (option_text entry)) mapping) choice with
  | Some (PStr s) => int_of_str (before_colon s)
  | _ => Raise AttributeError
  end.

End Prediction.

(** A stand-in for [int] that reads plain decimal numerals. *)
Definition decimal_int (s : string) : result Z :=
  match NilZero.int_of_string s with
  | Some d => Ok (Z.of_int d)
  | None => Raise ValueError
  end.

(** ** Vocabulary of the adapter statements *)

(** The source address the wildfire loop gives the records of an event. *)
Definition event_source (event : pyval) : pyval :=
  match source_url event with Ok url => url | Raise _ => PNone end.

(** The records of a well-formed wildfire event: one for each geometry
    entry with exactly two coordinates, in the order of the entries, all
    with the title and the source address of the event. *)
Definition wildfire_group (event : pyval) : list pyval :=
  map (point_record (event_title event) (event_source event))
      (filter two_coordinates (geometry_of event)).

(** The [properties] of a cyclone feature, [{}] when the key is missing. *)
Definition cyclone_properties (kv : list (string * pyval)) : list (string * pyval) :=
  match lookup "properties" kv with Some (PDict p) => p | _ => [] end.

(** The [coordinates] of a cyclone feature, [[0, 0]] when the feature has
    no [geometry] or its [geometry] has no [coordinates]. *)
Definition cyclone_coordinates (kv : list (string * pyval)) : pyval :=
  match lookup "geometry" kv with
  | Some (PDict g) => field "coordinates" (PList [PInt 0; PInt 0]) g
  | _ => PList [PInt 0; PInt 0]
  end.

(** A cyclone feature the loop can process: [properties] and [geometry]
    are each missing or an object, and the coordinates are an array of at
    least two entries. *)
Definition cyclone_feature (kv : list (string * pyval)) : Prop :=
  absent_or_object "properties" kv /\
  absent_or_object "geometry" kv /\
  exists lon lat rest, cyclone_coordinates kv = PList (lon :: lat :: rest).

(** Entry [i] of the coordinates of a cyclone feature. *)
Definition cyclone_coordinate (i : nat) (kv : list (string * pyval)) : pyval :=
  match cyclone_coordinates kv with
  | PList cs => nth i cs PNone
  | _ => PNone
  end.

(** The record of a cyclone feature: the latitude is entry 1 of the
    coordinates and the longitude entry 0; each property has its default. *)
Definition hurricane_record_of (kv : list (string * pyval)) : pyval :=
  PDict [("name", field "name" (PStr "Unknown Storm") (cyclone_properties kv));
         ("latitude", cyclone_coordinate 1 kv);
         ("longitude", cyclone_coordinate 0 kv);
         ("advisory",
          field "fullIssue" (PStr "No advisory available.") (cyclone_properties kv));
         ("wind_speed", field "windMph" (PStr "Unknown Speed") (cyclone_properties kv));
         ("category",
          field "category" (PStr "Unknown Category") (cyclone_properties kv))].

(** A wildfire event whose [sources] is an empty list, with one point. *)
Definition fire_without_sources : pyval :=
  PDict [("title", PStr "Dixie Fire"); ("sources", PList []);
         ("geometry", PList [point (-121) 40])].

(** A cyclone feature with a location, and one without [geometry]. *)
Definition storm_located : pyval :=
  PDict [("properties", PDict [("name", PStr "Ana"); ("category", PStr "Category 1")]);
         ("geometry", PDict [("type", PStr "Point");
                             ("coordinates", PList [PInt (-80); PInt 25])])].

Definition storm_unlocated : pyval :=
  PDict [("properties", PDict [("name", PStr "Bill")])].

(** * Properties *)

(** ** Loops *)

Lemma bind_Ok {A B : Type} (r : result A) (k : A -> result B) b :
  bind r k = Ok b -> exists a, r = Ok a /\ k a = Ok b.
Proof.
  destruct r as [a | e]; simpl; [| discriminate]. intros H. now exists a.
Qed.

(** [invert_bind H as x Hx]: from [H : (x <- r ;; k x) = Ok b] to
    [Hx : r = Ok x] and [H : k x = Ok b]. *)
Tactic Notation "invert_bind" hyp(H) "as"
    simple_intropattern(x) simple_intropattern(Hx) :=
  apply bind_Ok in H; destruct H as [x [Hx H]].

Lemma mapM_Forall2 {A B : Type} (f : A -> result B) l l' :
  mapM f l = Ok l' <-> Forall2 (fun x y => f x = Ok y) l l'.
Proof.
  revert l'. induction l as [| x t IH]; intros l'; simpl.
  - split.
    + intros H. injection H as <-. constructor.
    + intros H. inversion H. reflexivity.
  - split.
    + intros H. invert_bind H as y Hy.
      invert_bind H as ys Hys.
      injection H as <-. constructor; [assumption | now apply IH].
    + intros H. inversion H as [| x' y t' ys Hy Hys]; subst.
      rewrite Hy. simpl. apply IH in Hys. rewrite Hys. reflexivity.
Qed.

Lemma mapM_length {A B : Type} (f : A -> result B) l l' :
  mapM f l = Ok l' -> List.length l' = List.length l.
Proof.
  intros H. apply mapM_Forall2 in H. symmetry.
  induction H; simpl; congruence.
Qed.

Lemma mapM_total {A B : Type} (f : A -> result B) (g : A -> B) l :
  Forall (fun x => f x = Ok (g x)) l -> mapM f l = Ok (map g l).
Proof.
  induction 1 as [| x t Hx _ IH]; simpl; [reflexivity |].
  now rewrite Hx, IH.
Qed.

Lemma mapM_defined {A B : Type} (f : A -> result B) l :
  Forall (fun x => exists y, f x = Ok y) l -> exists l', mapM f l = Ok l'.
Proof.
  induction 1 as [| x t [y Hy] _ [ys IH]]; simpl.
  - now exists [].
  - rewrite Hy, IH. simpl. now eexists.
Qed.

(** The first item whose body raises ends the loop with that exception. *)
Lemma mapM_raise {A B : Type} (f : A -> result B) before x after e :
  Forall (fun y => is_ok (f y) = true) before -> f x = Raise e ->
  mapM f (before ++ x :: after) = Raise e.
Proof.
  intros Hbefore Hx. induction Hbefore as [| y t Hy _ IH]; simpl.
  - now rewrite Hx.
  - destruct (f y); [| discriminate Hy]. simpl. now rewrite IH.
Qed.

Lemma mapM_map {A B C : Type} (f : B -> result C) (g : A -> B) l :
  mapM f (map g l) = mapM (fun x => f (g x)) l.
Proof.
  induction l as [| x l IH]; cbn [map mapM]; [reflexivity |].
  now rewrite IH.
Qed.

Lemma Forall_firstn {A : Type} (P : A -> Prop) n l :
  Forall P l -> Forall P (firstn n l).
Proof.
  intros H. revert n. induction H as [| x l Hx _ IH]; intros [| n]; simpl;
    constructor; auto.
Qed.

Lemma firstn_length_le {A : Type} n (l : list A) :
  (List.length (firstn n l) <= n)%nat.
Proof. rewrite length_firstn. lia. Qed.

(** ** The cap on the number of records *)

Lemma substring_length_le n m s :
  (String.length (String.substring n m s) <= m)%nat.
Proof.
  revert n m. induction s as [| c s IH]; intros n m.
  - destruct n, m; simpl; lia.
  - destruct n as [| n].
    + destruct m as [| m]; simpl; [lia |]. specialize (IH 0%nat m). lia.
    + simpl. apply IH.
Qed.

Lemma length_list_ascii_of_string s :
  List.length (list_ascii_of_string s) = String.length s.
Proof. induction s; simpl; congruence. Qed.

(** The loop over [v[:n]] visits at most [n] items. *)
Lemma slice_iter_length n v sl items :
  slice_to n v = Ok sl -> iter sl = Ok items -> (List.length items <= n)%nat.
Proof.
  destruct v; simpl; try discriminate; intros H; injection H as <-; simpl;
    intros H; injection H as <-.
  - rewrite length_map, length_list_ascii_of_string. apply substring_length_le.
  - apply firstn_length_le.
Qed.

Lemma serves_feed k l : serves (feed k l) k l.
Proof.
  unfold serves, feed. do 2 eexists. repeat split. simpl.
  now rewrite String.eqb_refl.
Qed.

Lemma serves_array_feed l : serves_array (array_feed l) l.
Proof. unfold serves_array, array_feed. eexists. repeat split. Qed.

Lemma fetch_earthquake_serves u fs :
  serves u "features" fs ->
  fetch_earthquake_data u = mapM earthquake_record (firstn 10 fs).
Proof.
  intros (r & kv & -> & Hstatus & Hbody & Hk).
  unfold fetch_earthquake_data, json. simpl.
  rewrite Hstatus, Hbody. simpl. now rewrite Hk.
Qed.

Lemma fetch_wildfire_serves u evs :
  serves u "events" evs ->
  fetch_wildfire_data u
  = (per_event <- mapM wildfire_event (firstn 10 evs) ;; Ok (List.concat per_event)).
Proof.
  intros (r & kv & -> & Hstatus & Hbody & Hk).
  unfold fetch_wildfire_data, json. simpl.
  rewrite Hstatus, Hbody. simpl. now rewrite Hk.
Qed.

Lemma fetch_hurricane_serves u fs :
  serves u "features" fs ->
  fetch_hurricane_data u = mapM hurricane_record fs.
Proof.
  intros (r & kv & -> & Hstatus & Hbody & Hk).
  unfold fetch_hurricane_data, hurricane_request, raise_for_status, json. simpl.
  rewrite Hstatus, Hbody. simpl. now rewrite Hk.
Qed.

Lemma fetch_tsunami_serves u evs records :
  serves_array u evs -> mapM tsunami_record evs = Ok records ->
  fetch_tsunami_data u = Ok records.
Proof.
  intros (r & -> & Hstatus & Hbody) Hmap.
  unfold fetch_tsunami_data, tsunami_try, raise_for_status, json. simpl.
  rewrite Hstatus, Hbody. simpl. now rewrite Hmap.
Qed.

Lemma fetch_earthquake_length u l :
  fetch_earthquake_data u = Ok l -> (List.length l <= 10)%nat.
Proof.
  unfold fetch_earthquake_data. destruct u as [e | r]; simpl; [discriminate |].
  destruct (negb (status_code r =? 200)).
  - intros H; injection H as <-. simpl. lia.
  - destruct (json r) as [data | e].
    + intros H.
      invert_bind H as earthquakes _.
      invert_bind H as first10 Hslice.
      invert_bind H as quakes Hiter.
      rewrite (mapM_length _ _ _ H).
      exact (slice_iter_length _ _ _ _ Hslice Hiter).
    + intros H; injection H as <-. simpl. lia.
Qed.

Lemma wildfire_point_length event g l :
  wildfire_point event g = Ok l -> (List.length l <= 1)%nat.
Proof.
  unfold wildfire_point. intros H.
  invert_bind H as coords _.
  invert_bind H as n _.
  destruct (Nat.eqb n 2).
  - repeat (apply bind_Ok in H; destruct H as (? & _ & H)).
    injection H as <-. simpl. lia.
  - injection H as <-. simpl. lia.
Qed.

Lemma concat_length_le {A : Type} (groups : list (list A)) :
  Forall (fun g => (List.length g <= 1)%nat) groups ->
  (List.length (List.concat groups) <= List.length groups)%nat.
Proof.
  induction 1 as [| g t Hg _ IH]; simpl; [lia |].
  rewrite length_app. lia.
Qed.

Lemma wildfire_points_length event points per_point :
  mapM (wildfire_point event) points = Ok per_point ->
  (List.length (List.concat per_point) <= List.length points)%nat.
Proof.
  intros H. rewrite <- (mapM_length _ _ _ H).
  apply concat_length_le. apply mapM_Forall2 in H.
  induction H as [| g l t groups Hg _ IH]; constructor; [| assumption].
  exact (wildfire_point_length _ _ _ Hg).
Qed.

(** An event gives at most one record per entry of its [geometry]. *)
Lemma wildfire_event_length event group :
  wildfire_event event = Ok group ->
  (List.length group <= List.length (geometry_of event))%nat.
Proof.
  unfold wildfire_event. intros H.
  invert_bind H as geometry Hget.
  invert_bind H as points Hiter.
  invert_bind H as per_point Hmap.
  injection H as <-.
  destruct event as [| | | | | | kv]; try discriminate Hget.
  simpl in Hget. injection Hget as <-. unfold geometry_of.
  destruct (lookup "geometry" kv) as [[| | | | s | gs | d] |];
    simpl in Hiter; try discriminate Hiter; injection Hiter as <-.
  - (* a string: the loop body raises on its first character *)
    destruct s as [| c s]; simpl in Hmap.
    + injection Hmap as <-. simpl. lia.
    + discriminate Hmap.
  - exact (wildfire_points_length _ _ _ Hmap).
  - (* an object: the loop body raises on its first key *)
    destruct d as [| [k v] d]; simpl in Hmap.
    + injection Hmap as <-. simpl. lia.
    + discriminate Hmap.
  - injection Hmap as <-. simpl. lia.
Qed.

Lemma fetch_wildfire_groups u l :
  fetch_wildfire_data u = Ok l ->
  exists evs per_event,
    (forall all, serves u "events" all -> evs = firstn 10 all) /\
    (List.length evs <= 10)%nat /\
    mapM wildfire_event evs = Ok per_event /\
    l = List.concat per_event.
Proof.
  unfold fetch_wildfire_data. destruct u as [e | r]; simpl; [discriminate |].
  destruct (status_code r =? 200) eqn:Hstatus; simpl.
  - unfold json. destruct (content r) as [data |] eqn:Hbody.
    + intros H.
      invert_bind H as events Hget.
      invert_bind H as first10 Hslice.
      invert_bind H as evs Hiter.
      invert_bind H as per_event Hmap.
      injection H as <-. exists evs, per_event.
      split; [| split; [| split; [assumption | reflexivity]]].
      * intros all (r' & kv & Hr & _ & Hbody' & Hk).
        injection Hr as <-. rewrite Hbody in Hbody'. injection Hbody' as ->.
        simpl in Hget. rewrite Hk in Hget. injection Hget as <-.
        simpl in Hslice. injection Hslice as <-.
        simpl in Hiter. now injection Hiter as <-.
      * exact (slice_iter_length _ _ _ _ Hslice Hiter).
    + intros H; injection H as <-. exists [], []. repeat split; simpl; try lia.
      intros all (r' & kv & Hr & _ & Hbody' & _).
      injection Hr as <-. rewrite Hbody in Hbody'. discriminate Hbody'.
  - intros H; injection H as <-. exists [], []. repeat split; simpl; try lia.
    intros all (r' & kv & Hr & Hstatus' & _).
    injection Hr as <-. rewrite Hstatus' in Hstatus. discriminate Hstatus.
Qed.

Lemma wildfire_groups_bounded evs per_event :
  mapM wildfire_event evs = Ok per_event ->
  Forall2 (fun event group =>
             wildfire_event event = Ok group /\
             (List.length group <= List.length (geometry_of event))%nat)
          evs per_event.
Proof.
  intros Hmap. apply mapM_Forall2 in Hmap.
  induction Hmap as [| ev g t groups Hev _ IH]; constructor; [| assumption].
  split; [assumption | exact (wildfire_event_length _ _ Hev)].
Qed.

(** C1 (as amended).  The seismic list has at most ten records.  The
    wildfire list is made from the first ten upstream events only: it is
    the concatenation of at most ten groups, one per event, and a group has
    at most one record per geometry entry of its event. *)
Theorem fetch_cap :
  (forall u l, fetch Seismic u = Ok l -> (List.length l <= 10)%nat) /\
  (forall u l, fetch Wildfire u = Ok l ->
     exists evs per_event,
       (forall all, serves u "events" all -> evs = firstn 10 all) /\
       (List.length evs <= 10)%nat /\
       Forall2 (fun event group =>
                  wildfire_event event = Ok group /\
                  (List.length group <= List.length (geometry_of event))%nat)
               evs per_event /\
       l = List.concat per_event).
Proof.
  split.
  - exact fetch_earthquake_length.
  - intros u l H. simpl fetch in H.
    destruct (fetch_wildfire_groups u l H)
      as (evs & per_event & Hfirst & Hlen & Hmap & Hconcat).
    exists evs, per_event. repeat split; try assumption.
    now apply wildfire_groups_bounded.
Qed.

Lemma fetch_cap_witness :
  (List.length [PDict [("place", PStr "Ridgecrest"); ("magnitude", PInt 5);
                       ("latitude", PInt 35); ("longitude", PInt (-117))]]
   <= 10)%nat /\
  (exists evs per_event,
     evs = firstn 10 [fire [point (-121) 40]] /\
     [PDict [("title", PStr "Park Fire"); ("latitude", PInt 40);
             ("longitude", PInt (-121)); ("source", PStr "https://irwin.doi.gov/")]]
     = List.concat per_event /\
     (List.length evs <= 10)%nat).
Proof.
  destruct fetch_cap as [Hseismic Hwildfire]. split.
  - apply (Hseismic (feed "features" [quake "Ridgecrest" (PInt 5) (-117) 35])).
    reflexivity.
  - destruct (Hwildfire (feed "events" [fire [point (-121) 40]]) _ eq_refl)
      as (evs & per_event & Hfirst & Hlen & _ & Hconcat).
    exists evs, per_event. split; [| split; assumption].
    apply Hfirst. apply serves_feed.
Defined.

(** C1 fails as stated: one wildfire event with eleven geometry points
    gives eleven records. *)
Lemma wildfire_exceeds_ten :
  exists l,
    fetch Wildfire (feed "events" [fire (repeat (point (-121) 40) 11)]) = Ok l /\
    (10 < List.length l)%nat.
Proof. eexists. split; [reflexivity |]. simpl. lia. Qed.

(** The cyclone and tsunami functions do not truncate at all. *)
Example cyclone_eleven_features :
  exists l,
    fetch Cyclone (feed "features" (repeat (PDict []) 11)) = Ok l /\
    List.length l = 11%nat.
Proof. eexists. split; reflexivity. Qed.

Example tsunami_eleven_entries :
  exists l,
    fetch Tsunami (Answers (mkResponse 200 (JsonBody (PList (repeat (PDict []) 11)))))
      = Ok l /\
    List.length l = 11%nat.
Proof. eexists. split; reflexivity. Qed.

(** ** Failed fetches *)

(** What each function does with the failures it absorbs. *)
Lemma absorbed_empty t u : absorbed t u -> fetch t u = Ok [].
Proof.
  destruct t, u as [e | r]; simpl; try contradiction.
  - (* Seismic *)
    unfold fetch_earthquake_data. simpl.
    intros [Hstatus | Hbody].
    + apply Z.eqb_neq in Hstatus. now rewrite Hstatus.
    + destruct (negb (status_code r =? 200)); [reflexivity |].
      unfold json. now rewrite Hbody.
  - (* Wildfire *)
    unfold fetch_wildfire_data. simpl.
    intros [Hstatus | Hbody].
    + apply Z.eqb_neq in Hstatus. now rewrite Hstatus.
    + destruct (negb (status_code r =? 200)); [reflexivity |].
      unfold json. now rewrite Hbody.
  - (* Cyclone, request exception *)
    intros He. unfold fetch_hurricane_data, hurricane_request. simpl.
    now rewrite He.
  - (* Cyclone, response *)
    unfold fetch_hurricane_data, hurricane_request, raise_for_status, json.
    simpl. intros [[Hlo Hhi] | Hbody].
    + apply Z.leb_le in Hlo. apply Z.ltb_lt in Hhi. now rewrite Hlo, Hhi.
    + destruct ((400 <=? status_code r) && (status_code r <? 600));
        [reflexivity |]. simpl. now rewrite Hbody.
  - (* Tsunami, request exception *)
    intros He. unfold fetch_tsunami_data, tsunami_try. simpl.
    now rewrite He.
  - (* Tsunami, response *)
    unfold fetch_tsunami_data, tsunami_try, raise_for_status, json.
    simpl. intros [[Hlo Hhi] | Hbody].
    + apply Z.leb_le in Hlo. apply Z.ltb_lt in Hhi. now rewrite Hlo, Hhi.
    + destruct ((400 <=? status_code r) && (status_code r <? 600));
        [reflexivity |]. simpl. now rewrite Hbody.
Qed.

(** C2, at the failing input.  When the request itself fails, the seismic
    and wildfire functions do not return the empty list: the exception of
    [requests.get] leaves them.  The cyclone and tsunami functions return
    the empty list on the same failure. *)
Theorem transport_error_propagates :
  fetch Seismic (Fails ConnectionError) = Raise ConnectionError /\
  fetch Wildfire (Fails ConnectionError) = Raise ConnectionError /\
  fetch Cyclone (Fails ConnectionError) = Ok [] /\
  fetch Tsunami (Fails ConnectionError) = Ok [].
Proof. repeat split. Qed.

(** ** The cache across a failed fetch *)

Lemma cache_data_stale f c now u :
  fresh c now = false ->
  cache_data f c now u
  = match f u with
    | Ok l => (Ok l, Some (mkEntry l now))
    | Raise ex => (Raise ex, c)
    end.
Proof.
  unfold fresh, cache_data. destruct c as [e |]; [| reflexivity].
  now intros ->.
Qed.

Lemma cache_data_fresh f e now u :
  fresh (Some e) now = true ->
  cache_data f (Some e) now u = (Ok (events e), Some e).
Proof. unfold fresh, cache_data. now intros ->. Qed.

(** C3 (as amended).  When a fetch is attempted (no entry, or an entry at
    least 600 seconds old) and fails in a way the feed function absorbs,
    the caller gets the empty list and the entry is replaced by the empty
    list stamped with the time of the attempt.  The entry is left as it was
    when the feed function raises, and when the entry is still fresh, in
    which case no fetch is attempted and the stored list is returned. *)
Theorem failed_fetch_and_cache (t : HazardType) (c : option CacheEntry)
    (now : Z) (u : upstream) :
  (fresh c now = false -> absorbed t u ->
     cached_fetch t c now u = (Ok [], Some (mkEntry [] now))) /\
  (fresh c now = false -> forall ex, fetch t u = Raise ex ->
     cached_fetch t c now u = (Raise ex, c)) /\
  (forall e, c = Some e -> fresh c now = true ->
     cached_fetch t c now u = (Ok (events e), c)).
Proof.
  unfold cached_fetch. repeat split.
  - intros Hstale Habs. rewrite (cache_data_stale _ _ _ _ Hstale).
    now rewrite (absorbed_empty t u Habs).
  - intros Hstale ex Hex. rewrite (cache_data_stale _ _ _ _ Hstale).
    now rewrite Hex.
  - intros e -> Hfresh. now apply cache_data_fresh.
Qed.

Lemma failed_fetch_and_cache_witness :
  cached_fetch Cyclone (Some old_entry) 600 (Fails Timeout)
    = (Ok [], Some (mkEntry [] 600)) /\
  cached_fetch Seismic (Some old_entry) 600 (Fails ConnectionError)
    = (Raise ConnectionError, Some old_entry) /\
  cached_fetch Tsunami (Some old_entry) 599 unavailable
    = (Ok (events old_entry), Some old_entry).
Proof.
  split; [| split].
  - apply (proj1 (failed_fetch_and_cache Cyclone (Some old_entry) 600 (Fails Timeout)));
      reflexivity.
  - apply (proj1 (proj2 (failed_fetch_and_cache Seismic (Some old_entry) 600
                           (Fails ConnectionError))));
      reflexivity.
  - apply (proj2 (proj2 (failed_fetch_and_cache Tsunami (Some old_entry) 599
                           unavailable)) old_entry);
      reflexivity.
Defined.

(** C3 fails as stated: a 503 answer to a refresh of the seismic feed
    replaces the stored list by the empty list. *)
Lemma failed_fetch_replaces_entry :
  fresh (Some old_entry) 600 = false /\
  fetch Seismic unavailable = Ok [] /\
  snd (cached_fetch Seismic (Some old_entry) 600 unavailable)
    = Some (mkEntry [] 600) /\
  snd (cached_fetch Seismic (Some old_entry) 600 unavailable)
    <> Some old_entry.
Proof. repeat split. discriminate. Qed.

(** ** Wildfire fan-out *)

Lemma wildfire_title_url event :
  wildfire_well_formed event ->
  exists title url,
    get event "title" (PStr "Wildfire") = Ok title /\ source_url event = Ok url.
Proof.
  destruct event as [| | | | | | kv]; simpl; try contradiction.
  intros [_ Hsources]. eexists. unfold source_url, get.
  destruct (lookup "sources" kv) as [[| | | | | [| [| | | | | | s0] rest] |] |];
    try contradiction; simpl; eexists; split; reflexivity.
Qed.

(** One geometry entry: a record when it has two coordinates, nothing
    otherwise. *)
Lemma wildfire_point_spec event title url g :
  get event "title" (PStr "Wildfire") = Ok title ->
  source_url event = Ok url ->
  geometry_entry g ->
  wildfire_point event g
  = Ok (if two_coordinates g then [point_record title url g] else []).
Proof.
  intros Htitle Hurl Hg. unfold wildfire_point.
  destruct g as [| | | | | | kv]; simpl in Hg; try contradiction.
  unfold two_coordinates, point_record, get at 1.
  unfold source_url in Hurl.
  destruct (lookup "coordinates" kv) as [[| | | | | cs |] |];
    try contradiction; simpl; [| reflexivity].
  destruct cs as [| lon [| lat [| x cs]]]; simpl; try reflexivity.
  rewrite Htitle. simpl.
  apply bind_Ok in Hurl. destruct Hurl as (sources & -> & Hurl). simpl.
  apply bind_Ok in Hurl. destruct Hurl as (source0 & -> & Hurl). simpl.
  rewrite Hurl. reflexivity.
Qed.

Lemma concat_map_filter {A B : Type} (p : A -> bool) (f : A -> B) l :
  List.concat (map (fun x => if p x then [f x] else []) l) = map f (filter p l).
Proof.
  induction l as [| x l IH]; simpl; [reflexivity |].
  destruct (p x); simpl; now rewrite IH.
Qed.

Lemma filter_all {A : Type} (p : A -> bool) l :
  Forall (fun x => p x = true) l -> filter p l = l.
Proof.
  induction 1 as [| x l Hx _ IH]; simpl; [reflexivity |].
  now rewrite Hx, IH.
Qed.

Lemma wildfire_event_spec event title url :
  wildfire_well_formed event ->
  get event "title" (PStr "Wildfire") = Ok title ->
  source_url event = Ok url ->
  wildfire_event event
  = Ok (map (point_record title url) (filter two_coordinates (geometry_of event))).
Proof.
  intros Hwf Htitle Hurl. unfold wildfire_event.
  assert (Hgeo : get event "geometry" (PList []) = Ok (PList (geometry_of event))
                 /\ Forall geometry_entry (geometry_of event)).
  { destruct event as [| | | | | | kv]; simpl in Hwf; try contradiction.
    destruct Hwf as [Hwf _]. simpl.
    destruct (lookup "geometry" kv) as [[| | | | | gs |] |];
      try contradiction; split; (reflexivity || assumption || constructor). }
  destruct Hgeo as [-> Hentries]. simpl.
  rewrite (mapM_total (wildfire_point event)
             (fun g => if two_coordinates g then [point_record title url g] else [])).
  - simpl. now rewrite concat_map_filter.
  - apply Forall_forall. intros g Hin.
    apply wildfire_point_spec; try assumption.
    now apply (proj1 (Forall_forall _ _) Hentries).
Qed.

Lemma point_record_fields title url g :
  two_coordinates g = true ->
  getitem (point_record title url g) "title" = Ok title /\
  getitem (point_record title url g) "source" = Ok url.
Proof.
  unfold two_coordinates, point_record.
  destruct g as [| | | | | | kv]; try discriminate.
  destruct (lookup "coordinates" kv) as [[| | | | | [| lon [| lat [| x cs]]] |] |];
    try discriminate.
  intros _. split; reflexivity.
Qed.

Lemma wildfire_event_group event :
  wildfire_well_formed event -> wildfire_event event = Ok (wildfire_group event).
Proof.
  intros Hwf.
  destruct (wildfire_title_url event Hwf) as (title & url & Htitle & Hurl).
  rewrite (wildfire_event_spec event title url Hwf Htitle Hurl).
  unfold wildfire_group, event_title, event_source. now rewrite Htitle, Hurl.
Qed.

Lemma fetch_wildfire_groups_ok u evs :
  serves u "events" evs ->
  Forall wildfire_well_formed (firstn 10 evs) ->
  fetch Wildfire u = Ok (List.concat (map wildfire_group (firstn 10 evs))).
Proof.
  intros Hserves Hwf. cbn [fetch].
  rewrite (fetch_wildfire_serves u evs Hserves).
  rewrite (mapM_total wildfire_event wildfire_group); [reflexivity |].
  eapply Forall_impl; [| exact Hwf]. intros event. apply wildfire_event_group.
Qed.

Lemma fetch_wildfire_raise u evs before event after e :
  serves u "events" evs ->
  firstn 10 evs = (before ++ event :: after)%list ->
  Forall (fun x => is_ok (wildfire_event x) = true) before ->
  wildfire_event event = Raise e ->
  fetch Wildfire u = Raise e.
Proof.
  intros Hserves Hfirst Hbefore Hevent. cbn [fetch].
  rewrite (fetch_wildfire_serves u evs Hserves), Hfirst.
  now rewrite (mapM_raise wildfire_event before event after e).
Qed.

Lemma wildfire_group_shared event :
  Forall (fun record =>
            getitem record "title" = Ok (event_title event) /\
            getitem record "source" = Ok (event_source event))
         (wildfire_group event).
Proof.
  apply Forall_forall. intros record Hin. unfold wildfire_group in Hin.
  apply in_map_iff in Hin. destruct Hin as (g & <- & Hin).
  apply filter_In in Hin. destruct Hin as [_ Htwo].
  now apply point_record_fields.
Qed.

(** C5 (as amended).  When each of the first ten events of the feed is
    well-formed, the fetched list is, for these events in the order of the
    feed, one record for each geometry entry whose coordinates have exactly
    two entries and none for the other entries; the records keep the order
    of the entries, take their latitude from the second coordinate and
    their longitude from the first, and all records of an event carry its
    title and source address.  An event all of whose entries have two
    coordinates gives as many records as it has entries; events after the
    tenth give none.  The first of the first ten events on which the loop
    body raises ends the fetch with that exception. *)
Theorem wildfire_fan_out :
  (forall u evs, serves u "events" evs ->
     Forall wildfire_well_formed (firstn 10 evs) ->
     fetch Wildfire u = Ok (List.concat (map wildfire_group (firstn 10 evs))) /\
     Forall (fun event =>
               wildfire_group event
               = map (point_record (event_title event) (event_source event))
                     (filter two_coordinates (geometry_of event)) /\
               List.length (wildfire_group event)
               = List.length (filter two_coordinates (geometry_of event)) /\
               Forall (fun record =>
                         getitem record "title" = Ok (event_title event) /\
                         getitem record "source" = Ok (event_source event))
                      (wildfire_group event) /\
               (Forall (fun g => two_coordinates g = true) (geometry_of event) ->
                List.length (wildfire_group event)
                = List.length (geometry_of event)))
            (firstn 10 evs))
  /\
  (forall title url kv lon lat,
     lookup "coordinates" kv = Some (PList [lon; lat]) ->
     point_record title url (PDict kv)
     = PDict [("title", title); ("latitude", lat);
              ("longitude", lon); ("source", url)])
  /\
  (forall u evs before event after e,
     serves u "events" evs ->
     firstn 10 evs = (before ++ event :: after)%list ->
     Forall (fun x => is_ok (wildfire_event x) = true) before ->
     wildfire_event event = Raise e ->
     fetch Wildfire u = Raise e).
Proof.
  split; [| split; [| exact fetch_wildfire_raise]].
  2:{ intros title url kv lon lat Hcoords. unfold point_record.
      now rewrite Hcoords. }
  intros u evs Hserves Hwf.
  split; [now apply fetch_wildfire_groups_ok |].
  apply Forall_forall. intros event _.
  split; [reflexivity |]. split; [apply length_map |].
  split; [apply wildfire_group_shared |].
  intros Hall. unfold wildfire_group. now rewrite length_map, filter_all.
Qed.

Lemma wildfire_fan_out_witness :
  fetch Wildfire
    (feed "events"
       [fire [point (-121) 40; point (-122) 41; point (-123) 42];
        fire [point (-120) 39; point_3d (-122) 41 900]])
  = Ok (List.concat
          (map wildfire_group
             [fire [point (-121) 40; point (-122) 41; point (-123) 42];
              fire [point (-120) 39; point_3d (-122) 41 900]])) /\
  List.length
    (wildfire_group (fire [point (-121) 40; point (-122) 41; point (-123) 42]))
  = 3%nat.
Proof.
  destruct (proj1 wildfire_fan_out
              (feed "events"
                 [fire [point (-121) 40; point (-122) 41; point (-123) 42];
                  fire [point (-120) 39; point_3d (-122) 41 900]])
              [fire [point (-121) 40; point (-122) 41; point (-123) 42];
               fire [point (-120) 39; point_3d (-122) 41 900]])
    as [Hrun Hgroups].
  - apply serves_feed.
  - cbn [firstn]. repeat constructor.
  - split; [exact Hrun |].
    cbn [firstn] in Hgroups. apply Forall_inv in Hgroups.
    destruct Hgroups as (_ & _ & _ & Hall). apply Hall.
    cbn. repeat constructor.
Defined.

(** An event among the first ten that the loop cannot process is fatal to
    the records of the others: here a [sources] that is an empty list. *)
Example wildfire_bad_sources_is_fatal :
  fetch Wildfire
    (feed "events"
       [fire [point (-121) 40; point (-122) 41]; fire_without_sources])
  = Raise IndexError.
Proof. reflexivity. Qed.

(** C5 fails as stated: of three geometry points the one that carries an
    altitude gives no record, and an eleventh event gives no record at
    all. *)
Lemma wildfire_points_without_record :
  (exists l,
     fetch Wildfire
       (feed "events"
          [fire [point (-121) 40; point_3d (-122) 41 900; point (-123) 42]])
       = Ok l /\
     List.length l = 2%nat) /\
  fetch Wildfire
    (feed "events"
       (repeat (fire []) 10
        ++ [fire [point (-121) 40; point (-122) 41; point (-123) 42]]))
    = Ok [].
Proof. split; [eexists; split |]; reflexivity. Qed.

(** ** Cyclone records without a location *)

Lemma hurricane_record_feature kv :
  cyclone_feature kv -> hurricane_record (PDict kv) = Ok (hurricane_record_of kv).
Proof.
  unfold cyclone_feature, absent_or_object, hurricane_record_of,
    cyclone_coordinate, cyclone_properties, cyclone_coordinates, field,
    hurricane_record, get.
  intros (Hprops & Hgeo & lon & lat & rest & Hcoords).
  destruct (lookup "properties" kv) as [[| | | | | | p] |]; try contradiction;
    (destruct (lookup "geometry" kv) as [[| | | | | | g] |]; try contradiction;
     cbn [bind lookup];
     [ destruct (lookup "coordinates" g) as [c |];
       [ subst c | injection Hcoords as <- <- <- ]
     | injection Hcoords as <- <- <- ];
     reflexivity).
Qed.

Lemma location_missing_coordinates kv :
  location_missing kv -> cyclone_coordinates kv = PList [PInt 0; PInt 0].
Proof.
  unfold location_missing, cyclone_coordinates, field.
  intros [-> | (g & -> & ->)]; reflexivity.
Qed.

Lemma location_missing_feature kv :
  absent_or_object "properties" kv -> location_missing kv -> cyclone_feature kv.
Proof.
  intros Hprops Hloc. split; [assumption |]. split.
  - unfold absent_or_object. destruct Hloc as [-> | (g & -> & _)]; exact I.
  - exists (PInt 0), (PInt 0), []. now apply location_missing_coordinates.
Qed.

Lemma hurricane_record_coordinates feature record :
  hurricane_record feature = Ok record ->
  exists kv lat lon,
    feature = PDict kv /\
    getitem record "latitude" = Ok lat /\
    getitem record "longitude" = Ok lon /\
    index (cyclone_coordinates kv) 1 = Ok lat /\
    index (cyclone_coordinates kv) 0 = Ok lon.
Proof.
  unfold hurricane_record. intros H.
  invert_bind H as properties Hprops.
  invert_bind H as geometry Hgeo.
  invert_bind H as coordinates Hcoords.
  invert_bind H as storm_name Hname.
  invert_bind H as advisory Hadvisory.
  invert_bind H as wind_speed Hwind.
  invert_bind H as storm_category Hcategory.
  invert_bind H as lat Hlat.
  invert_bind H as lon Hlon.
  injection H as <-.
  destruct feature as [| | | | | | kv]; try discriminate Hgeo.
  exists kv, lat, lon. split; [reflexivity |].
  split; [reflexivity |]. split; [reflexivity |].
  cbn [get] in Hgeo. injection Hgeo as <-.
  unfold cyclone_coordinates, field.
  destruct (lookup "geometry" kv) as [geometry |].
  - destruct geometry as [| | | | | | g]; try discriminate Hcoords.
    cbn [get] in Hcoords. injection Hcoords as <-. now split.
  - cbn [get lookup] in Hcoords. injection Hcoords as <-. now split.
Qed.

Lemma fetch_hurricane_features u kvs :
  serves u "features" (map PDict kvs) ->
  Forall cyclone_feature kvs ->
  fetch Cyclone u = Ok (map hurricane_record_of kvs).
Proof.
  intros Hserves Hfeatures. cbn [fetch].
  rewrite (fetch_hurricane_serves u _ Hserves), mapM_map.
  apply mapM_total.
  eapply Forall_impl; [| exact Hfeatures]. intros kv. apply hurricane_record_feature.
Qed.

Lemma fetch_hurricane_raise u fs before feature after e :
  serves u "features" fs ->
  fs = (before ++ feature :: after)%list ->
  Forall (fun x => is_ok (hurricane_record x) = true) before ->
  hurricane_record feature = Raise e ->
  fetch Cyclone u = Raise e.
Proof.
  intros Hserves -> Hbefore Hfeature. cbn [fetch].
  rewrite (fetch_hurricane_serves u _ Hserves).
  now apply mapM_raise.
Qed.

(** C9 (as amended).  When every feature of the feed is an object the loop
    can process ([properties] and [geometry] each missing or an object,
    the coordinates missing or an array of at least two entries), the
    fetched list has one record per feature, in the order of the feed: its
    latitude is entry 1 and its longitude entry 0 of the coordinates of
    the feature, and a feature whose [geometry] or [coordinates] is missing
    is such a feature and gets latitude 0 and longitude 0.  Whenever the
    fetch returns, every record has a latitude and a longitude, which are
    entries 1 and 0 of the coordinates of its feature (of [[0, 0]] when
    they are missing): each is null exactly when the coordinates hold a
    null at that position.  The first feature on which the loop body
    raises ends the fetch with that exception. *)
Theorem hurricane_location :
  (forall u kvs, serves u "features" (map PDict kvs) ->
     Forall cyclone_feature kvs ->
     fetch Cyclone u = Ok (map hurricane_record_of kvs))
  /\
  (forall kv, absent_or_object "properties" kv -> location_missing kv ->
     cyclone_feature kv /\
     getitem (hurricane_record_of kv) "latitude" = Ok (PInt 0) /\
     getitem (hurricane_record_of kv) "longitude" = Ok (PInt 0))
  /\
  (forall u fs records, serves u "features" fs ->
     fetch Cyclone u = Ok records ->
     Forall2 (fun feature record =>
                exists kv lat lon,
                  feature = PDict kv /\
                  getitem record "latitude" = Ok lat /\
                  getitem record "longitude" = Ok lon /\
                  index (cyclone_coordinates kv) 1 = Ok lat /\
                  index (cyclone_coordinates kv) 0 = Ok lon)
             fs records)
  /\
  (forall u fs before feature after e,
     serves u "features" fs ->
     fs = (before ++ feature :: after)%list ->
     Forall (fun x => is_ok (hurricane_record x) = true) before ->
     hurricane_record feature = Raise e ->
     fetch Cyclone u = Raise e).
Proof.
  split; [exact fetch_hurricane_features |].
  split; [| split; [| exact fetch_hurricane_raise]].
  - intros kv Hprops Hloc. split; [now apply location_missing_feature |].
    unfold hurricane_record_of, cyclone_coordinate.
    rewrite (location_missing_coordinates kv Hloc). split; reflexivity.
  - intros u fs records Hserves. cbn [fetch].
    rewrite (fetch_hurricane_serves u fs Hserves). intros Hrun.
    apply mapM_Forall2 in Hrun.
    eapply Forall2_impl; [| exact Hrun].
    intros feature record. apply hurricane_record_coordinates.
Qed.

Lemma hurricane_location_witness :
  fetch Cyclone (feed "features" [storm_located; storm_unlocated])
  = Ok [PDict [("name", PStr "Ana"); ("latitude", PInt 25);
               ("longitude", PInt (-80));
               ("advisory", PStr "No advisory available.");
               ("wind_speed", PStr "Unknown Speed");
               ("category", PStr "Category 1")];
        PDict [("name", PStr "Bill"); ("latitude", PInt 0);
               ("longitude", PInt 0);
               ("advisory", PStr "No advisory available.");
               ("wind_speed", PStr "Unknown Speed");
               ("category", PStr "Unknown Category")]].
Proof.
  apply (proj1 hurricane_location
           (feed "features" [storm_located; storm_unlocated])
           [[("properties", PDict [("name", PStr "Ana");
                                   ("category", PStr "Category 1")]);
             ("geometry", PDict [("type", PStr "Point");
                                 ("coordinates", PList [PInt (-80); PInt 25])])];
            [("properties", PDict [("name", PStr "Bill")])]]).
  - apply (serves_feed "features" [storm_located; storm_unlocated]).
  - repeat constructor; cbn; repeat eexists.
Defined.

(** C9 fails as stated: null coordinates give a record without a location,
    and a feature without geometry whose [properties] is null gives no
    record but an exception. *)
Lemma cyclone_record_without_location :
  (exists record,
     fetch Cyclone (feed "features" [storm_null_coordinates]) = Ok [record] /\
     getitem record "latitude" = Ok PNone /\
     getitem record "longitude" = Ok PNone) /\
  fetch Cyclone (feed "features" [storm_null_properties]) = Raise AttributeError.
Proof. split; [eexists; repeat split |]; reflexivity. Qed.

(** ** Malformed records *)

Lemma getitem_Ok d k v :
  getitem d k = Ok v -> exists kv, d = PDict kv /\ lookup k kv = Some v.
Proof.
  destruct d as [| | | | | | kv]; simpl; try discriminate.
  destruct (lookup k kv) as [x |] eqn:Hk; [| discriminate].
  intros H; injection H as <-. now exists kv.
Qed.

Lemma earthquake_record_missing_field kv :
  seismic_field_missing kv -> exists e, earthquake_record (PDict kv) = Raise e.
Proof.
  intros Hmissing.
  destruct (earthquake_record (PDict kv)) as [record | e] eqn:H;
    [exfalso | now exists e].
  unfold earthquake_record in H.
  invert_bind H as geometry Hgeo.
  invert_bind H as coords Hcoords.
  invert_bind H as properties Hprops.
  invert_bind H as place Hplace.
  invert_bind H as properties' Hprops'.
  apply bind_Ok in H. destruct H as (mag & Hmag & _).
  apply getitem_Ok in Hgeo. destruct Hgeo as (kv1 & Hkv1 & Hgeo).
  injection Hkv1 as <-.
  apply getitem_Ok in Hprops. destruct Hprops as (kv2 & Hkv2 & Hprops).
  injection Hkv2 as <-.
  apply getitem_Ok in Hprops'. destruct Hprops' as (kv3 & Hkv3 & Hprops').
  injection Hkv3 as <-.
  apply getitem_Ok in Hcoords. destruct Hcoords as (g & -> & Hcoords).
  apply getitem_Ok in Hplace. destruct Hplace as (p & -> & Hplace).
  apply getitem_Ok in Hmag. destruct Hmag as (p' & -> & Hmag).
  destruct Hmissing
    as [Hm | [Hm | [(g0 & Hg0 & Hm) | (p0 & Hp0 & [Hm | Hm])]]];
    congruence.
Qed.

Lemma mapM_In_raised {A B : Type} (f : A -> result B) l x e :
  In x l -> f x = Raise e ->
  exists y e', In y l /\ f y = Raise e' /\ mapM f l = Raise e'.
Proof.
  induction l as [| z l IH]; intros Hin Hx; [destruct Hin |].
  cbn [mapM]. destruct (f z) as [b | e0] eqn:Hz.
  - cbn [bind]. destruct Hin as [-> | Hin]; [congruence |].
    destruct (IH Hin Hx) as (y & e' & Hy & Hfy & ->).
    exists y, e'. split; [now right | now split].
  - exists z, e0. split; [now left | now split].
Qed.

Lemma fetch_tsunami_array u evs :
  serves_array u evs ->
  fetch_tsunami_data u
  = match mapM tsunami_record evs with
    | Ok records => Ok records
    | Raise e => if is_RequestException e then Ok [] else Raise e
    end.
Proof.
  intros (r & -> & Hstatus & Hbody).
  unfold fetch_tsunami_data, tsunami_try, raise_for_status, json. simpl.
  rewrite Hstatus, Hbody. simpl. reflexivity.
Qed.

Lemma tsunami_record_raises event e :
  tsunami_record event = Raise e -> ~ is_dict event /\ e = AttributeError.
Proof.
  destruct event as [| | | | | | kv]; cbn; intros H;
    try (injection H as <-; split; [intros [] | reflexivity]).
  discriminate H.
Qed.

Lemma tsunami_record_not_dict event :
  ~ is_dict event -> tsunami_record event = Raise AttributeError.
Proof.
  destruct event as [| | | | | | kv]; cbn; intros H; try reflexivity.
  now destruct H.
Qed.

(** C4 (as amended).  The seismic, tsunami and cyclone functions never
    skip a record: when one of them returns, its list has one record for
    each feature or entry of the feed (of the first ten, for the seismic
    one).  Seismic: a feature among the first ten that lacks [geometry],
    [coordinates], [properties], [place] or [mag] makes the fetch raise, and
    the first of the first ten features on which the loop body raises ends
    the fetch with that exception.  Tsunami: when every entry is an object,
    the list has one record per entry, in order, with the default for each
    field the entry lacks; an entry that is not an object makes the fetch
    raise [AttributeError].  Cyclone: when every feature is one the loop
    can process, the list has one record per feature, in order, with the
    default for each missing property and latitude and longitude 0 when
    [geometry] or [coordinates] is missing; the first feature on which the
    loop body raises ends the fetch with that exception.  Wildfire: when
    each of the first ten events is well-formed, a geometry entry whose
    coordinates do not have exactly two entries gives no record and every
    other entry of these events gives its record; the first of the first ten
    events on which the loop body raises ends the fetch with that
    exception. *)
Theorem malformed_records :
  (forall u fs kv, serves u "features" fs ->
     In (PDict kv) (firstn 10 fs) -> seismic_field_missing kv ->
     exists e, fetch Seismic u = Raise e)
  /\
  (forall u fs before q after e,
     serves u "features" fs ->
     firstn 10 fs = (before ++ q :: after)%list ->
     Forall (fun x => is_ok (earthquake_record x) = true) before ->
     earthquake_record q = Raise e ->
     fetch Seismic u = Raise e)
  /\
  (forall u fs records, serves u "features" fs ->
     fetch Seismic u = Ok records ->
     Forall2 (fun feature record => earthquake_record feature = Ok record)
             (firstn 10 fs) records)
  /\
  (forall u kvs, serves_array u (map PDict kvs) ->
     fetch Tsunami u = Ok (map tsunami_record_of kvs))
  /\
  (forall u evs x, serves_array u evs -> In x evs -> ~ is_dict x ->
     fetch Tsunami u = Raise AttributeError)
  /\
  (forall u evs records, serves_array u evs ->
     fetch Tsunami u = Ok records ->
     Forall2 (fun event record => tsunami_record event = Ok record) evs records)
  /\
  (forall u kvs, serves u "features" (map PDict kvs) ->
     Forall cyclone_feature kvs ->
     fetch Cyclone u = Ok (map hurricane_record_of kvs))
  /\
  (forall kv, absent_or_object "properties" kv -> location_missing kv ->
     cyclone_feature kv /\
     getitem (hurricane_record_of kv) "latitude" = Ok (PInt 0) /\
     getitem (hurricane_record_of kv) "longitude" = Ok (PInt 0))
  /\
  (forall u fs before feature after e,
     serves u "features" fs ->
     fs = (before ++ feature :: after)%list ->
     Forall (fun x => is_ok (hurricane_record x) = true) before ->
     hurricane_record feature = Raise e ->
     fetch Cyclone u = Raise e)
  /\
  (forall u fs records, serves u "features" fs ->
     fetch Cyclone u = Ok records ->
     Forall2 (fun feature record => hurricane_record feature = Ok record)
             fs records)
  /\
  (forall u evs, serves u "events" evs ->
     Forall wildfire_well_formed (firstn 10 evs) ->
     fetch Wildfire u = Ok (List.concat (map wildfire_group (firstn 10 evs))))
  /\
  (forall u evs before event after e,
     serves u "events" evs ->
     firstn 10 evs = (before ++ event :: after)%list ->
     Forall (fun x => is_ok (wildfire_event x) = true) before ->
     wildfire_event event = Raise e ->
     fetch Wildfire u = Raise e).
Proof.
  repeat match goal with |- _ /\ _ => split end.
  - intros u fs kv Hserves Hin Hmissing. cbn [fetch].
    rewrite (fetch_earthquake_serves u fs Hserves).
    destruct (earthquake_record_missing_field kv Hmissing) as [e He].
    destruct (mapM_In_raised earthquake_record _ _ e Hin He)
      as (y & e' & _ & _ & Hrun).
    now exists e'.
  - intros u fs before q after e Hserves Hfirst Hbefore Hq. cbn [fetch].
    rewrite (fetch_earthquake_serves u fs Hserves), Hfirst.
    now apply mapM_raise.
  - intros u fs records Hserves. cbn [fetch].
    rewrite (fetch_earthquake_serves u fs Hserves). apply mapM_Forall2.
  - intros u kvs Hserves. cbn [fetch].
    rewrite (fetch_tsunami_array u _ Hserves), mapM_map.
    rewrite (mapM_total (fun kv => tsunami_record (PDict kv)) tsunami_record_of);
      [reflexivity |].
    apply Forall_forall. intros kv _. reflexivity.
  - intros u evs x Hserves Hin Hx. cbn [fetch].
    rewrite (fetch_tsunami_array u evs Hserves).
    destruct (mapM_In_raised tsunami_record evs x AttributeError Hin
                (tsunami_record_not_dict x Hx))
      as (y & e' & _ & Hy & ->).
    apply tsunami_record_raises in Hy. destruct Hy as [_ ->]. reflexivity.
  - intros u evs records Hserves. cbn [fetch].
    rewrite (fetch_tsunami_array u evs Hserves).
    destruct (mapM tsunami_record evs) as [l | e] eqn:Hmap.
    + intros H; injection H as <-. now apply mapM_Forall2.
    + assert (exists y, In y evs /\ tsunami_record y = Raise e) as (y & _ & Hy).
      { clear Hserves. revert Hmap. induction evs as [| z evs IH]; cbn [mapM];
          [discriminate |].
        destruct (tsunami_record z) as [b | e0] eqn:Hz; cbn [bind].
        - destruct (mapM tsunami_record evs) as [l | e1]; [discriminate |].
          cbn [bind]. intros H; injection H as <-.
          destruct (IH eq_refl) as (y & Hy & Hfy).
          exists y. split; [now right | assumption].
        - intros H; injection H as <-. exists z. split; [now left | assumption]. }
      apply tsunami_record_raises in Hy. destruct Hy as [_ ->]. discriminate.
  - exact fetch_hurricane_features.
  - intros kv Hprops Hloc. split; [now apply location_missing_feature |].
    unfold hurricane_record_of, cyclone_coordinate.
    rewrite (location_missing_coordinates kv Hloc). split; reflexivity.
  - exact fetch_hurricane_raise.
  - intros u fs records Hserves. cbn [fetch].
    rewrite (fetch_hurricane_serves u fs Hserves). apply mapM_Forall2.
  - exact fetch_wildfire_groups_ok.
  - exact fetch_wildfire_raise.
Qed.

Lemma malformed_records_witness :
  (exists e,
     fetch Seismic
       (feed "features"
          [quake "Ridgecrest" (PInt 5) (-117) 35; quake_no_geometry;
           quake "Hollister" (PInt 3) (-121) 36])
     = Raise e) /\
  fetch Tsunami (array_feed [PDict [("year", PInt 1960)]; PDict []])
  = Ok [tsunami_record_of [("year", PInt 1960)]; tsunami_record_of []] /\
  fetch Tsunami (array_feed [PDict [("year", PInt 1960)]; PStr "items"])
  = Raise AttributeError /\
  fetch Cyclone (feed "features" [storm_unlocated])
  = Ok [hurricane_record_of [("properties", PDict [("name", PStr "Bill")])]] /\
  fetch Wildfire
    (feed "events" [fire [point (-121) 40; point_3d (-122) 41 900; point (-123) 42]])
  = Ok (wildfire_group
          (fire [point (-121) 40; point_3d (-122) 41 900; point (-123) 42]) ++ [])%list.
Proof.
  destruct malformed_records
    as (Hmissing & _ & _ & Hentries & Hother & _ & Hfeatures & _ & _ & _
        & Hgroups & _).
  split; [| split; [| split; [| split]]].
  - apply (Hmissing _
             [quake "Ridgecrest" (PInt 5) (-117) 35; quake_no_geometry;
              quake "Hollister" (PInt 3) (-121) 36]
             [("type", PStr "Feature");
              ("properties", PDict [("mag", PInt 3); ("place", PStr "Offshore")])]).
    + apply serves_feed.
    + right. left. reflexivity.
    + left. reflexivity.
  - apply (Hentries _ [[("year", PInt 1960)]; []]).
    apply (serves_array_feed [PDict [("year", PInt 1960)]; PDict []]).
  - apply (Hother _ [PDict [("year", PInt 1960)]; PStr "items"] (PStr "items")).
    + apply serves_array_feed.
    + right. left. reflexivity.
    + intros [].
  - apply (Hfeatures _ [[("properties", PDict [("name", PStr "Bill")])]]).
    + apply (serves_feed "features" [storm_unlocated]).
    + repeat constructor; cbn; repeat eexists.
  - apply (Hgroups _
             [fire [point (-121) 40; point_3d (-122) 41 900; point (-123) 42]]).
    + apply serves_feed.
    + cbn [firstn]. repeat constructor.
Defined.

(** C4 fails as stated: a seismic feature without [geometry] between two
    well-formed ones is not skipped; the fetch ends with [KeyError] and the
    two well-formed records are lost. *)
Lemma seismic_malformed_record_is_fatal :
  is_ok (earthquake_record (quake "Ridgecrest" (PInt 5) (-117) 35)) = true /\
  is_ok (earthquake_record (quake "Hollister" (PInt 3) (-121) 36)) = true /\
  fetch Seismic
    (feed "features"
       [quake "Ridgecrest" (PInt 5) (-117) 35; quake_no_geometry;
        quake "Hollister" (PInt 3) (-121) 36])
    = Raise KeyError.
Proof. repeat split. Qed.

(** ** Cyclone marker colour *)


(** C7.  On a category label the lookup always returns a colour: the
    table's colour for each of its seven labels and blue for every other
    label. *)
Theorem hurricanes_marker_color_total (label : string) :
  exists color,
    hurricanes_marker_color (PStr label) = Ok color /\
    (label = "Tropical Depression" -> color = "green") /\
    (label = "Tropical Storm" -> color = "orange") /\
    (label = "Category 1" -> color = "yellow") /\
    (label = "Category 2" -> color = "gold") /\
    (label = "Category 3" -> color = "red") /\
    (label = "Category 4" -> color = "darkred") /\
    (label = "Category 5" -> color = "purple") /\
    (~ In label ["Tropical Depression"; "Tropical Storm"; "Category 1";
                 "Category 2"; "Category 3"; "Category 4"; "Category 5"] ->
     color = "blue").
Proof.
  eexists. split; [reflexivity |].
  unfold category_colors, lookup.
  repeat match goal with
         | |- context [String.eqb label ?k] =>
             destruct (String.eqb_spec label k) as [-> | ?]
         end;
    repeat split; intros H; try reflexivity; try discriminate H;
    try congruence;
    exfalso; apply H; simpl; tauto.
Qed.

Lemma hurricanes_marker_color_total_witness :
  hurricanes_marker_color (PStr "Category 5") = Ok "purple" /\
  hurricanes_marker_color (PStr "Category 6") = Ok "blue".
Proof.
  split.
  - destruct (hurricanes_marker_color_total "Category 5")
      as (color & Heq & _ & _ & _ & _ & _ & _ & H5 & _).
    rewrite Heq, (H5 eq_refl). reflexivity.
  - destruct (hurricanes_marker_color_total "Category 6")
      as (color & Heq & _ & _ & _ & _ & _ & _ & _ & Hother).
    rewrite Heq, Hother; [reflexivity |].
    simpl. intros H. repeat destruct H as [H | H]; try discriminate H. exact H.
Defined.

(** ** Float literals *)

(** The constants are the binary64 values of the decimal literals. *)
Lemma float_literals :
  Prim2SF 0x1.4cccccccccccdp+2%float = f5_2 /\
  Prim2SF 0x1.4cccccccccccdp+3%float = f10_4 /\
  Prim2SF 2%float = f2_0 /\
  Prim2SF 8%float = f8_0 /\
  Prim2SF 6.5%float = f6_5 /\
  Prim2SF 5%float = f5_0.
Proof. repeat split; vm_compute; reflexivity. Qed.

Lemma float_of_Z_2 : float_of_Z 2 = Ok f2_0.
Proof. reflexivity. Qed.

(** ** Comparison of binary64 floats *)

Lemma digits2_pos_bounds m :
  2 ^ (Z.pos (digits2_pos m) - 1) <= Z.pos m < 2 ^ Z.pos (digits2_pos m).
Proof.
  induction m as [m IH | m IH |]; cbn [digits2_pos].
  - rewrite Pos2Z.inj_succ, (Pos2Z.inj_xI m).
    replace (Z.succ (Z.pos (digits2_pos m)) - 1)
      with (Z.succ (Z.pos (digits2_pos m) - 1)) by lia.
    rewrite !Z.pow_succ_r by lia. lia.
  - rewrite Pos2Z.inj_succ, (Pos2Z.inj_xO m).
    replace (Z.succ (Z.pos (digits2_pos m)) - 1)
      with (Z.succ (Z.pos (digits2_pos m) - 1)) by lia.
    rewrite !Z.pow_succ_r by lia. lia.
  - simpl. lia.
Qed.

Lemma valid_finite_bounds s m e :
  valid_binary prec emax (S754_finite s m e) = true ->
  -1074 <= e /\ Z.pos m < 2 ^ 53 /\ (-1074 < e -> 2 ^ 52 <= Z.pos m).
Proof.
  unfold valid_binary, bounded, canonical_mantissa, fexp, emin, prec, emax.
  rewrite andb_true_iff, Z.eqb_eq. intros [Hcanon _].
  pose proof (digits2_pos_bounds m) as [Hlo Hhi].
  set (d := Z.pos (digits2_pos m)) in *.
  assert (Hd : 0 < d) by (unfold d; lia).
  assert (Hd53 : d <= 53) by lia.
  split; [lia |]. split.
  - apply Z.lt_le_trans with (2 ^ d); [assumption |].
    apply Z.pow_le_mono_r; lia.
  - intros He. assert (d = 53) as Hd' by lia.
    rewrite Hd' in Hlo. exact Hlo.
Qed.

Lemma SF2Q_finite s m e :
  -1074 <= e ->
  exists q, SF2Q (S754_finite s m e) = Some q /\
            (q == signed s m * 2 ^ (e + 1074) # 2 ^ 1074)%Q.
Proof.
  intros He. eexists. split; [reflexivity |].
  unfold Qeq.
  destruct e as [| p | p]; cbn [Qnum Qden]; rewrite ?Pos2Z.inj_pow.
  - rewrite Z.add_0_l. lia.
  - rewrite Z.pow_add_r by lia. lia.
  - rewrite <- Z.mul_assoc, <- Z.pow_add_r by lia.
    f_equal. f_equal. lia.
Qed.

Lemma SF2Q_scaled f q :
  valid_binary prec emax f = true -> SF2Q f = Some q ->
  (q == scaled f # 2 ^ 1074)%Q.
Proof.
  destruct f as [s | s | | s m e]; try discriminate.
  - intros _ H; injection H as <-. reflexivity.
  - intros Hv Hq. apply valid_finite_bounds in Hv. destruct Hv as (He & _ & _).
    destruct (SF2Q_finite s m e He) as (q0 & Hq0 & Hval).
    rewrite Hq in Hq0. injection Hq0 as <-. exact Hval.
Qed.

Lemma Zmul_compare_mono_r a b d : 0 < d -> (a * d ?= b * d) = (a ?= b).
Proof.
  intros Hd. destruct (Z.compare_spec a b) as [-> | Hlt | Hgt].
  - apply Z.compare_refl.
  - apply Z.compare_lt_iff. nia.
  - apply Z.compare_gt_iff. nia.
Qed.

Lemma Qcompare_same_den a b d : (a # d ?= b # d)%Q = (a ?= b).
Proof.
  unfold Qcompare. cbn [Qnum Qden].
  apply Zmul_compare_mono_r. lia.
Qed.

(** On valid binary64 values [SFcompare] is the comparison of the exact
    values. *)
Lemma SFcompare_scaled x y :
  valid_binary prec emax x = true -> valid_binary prec emax y = true ->
  (exists qx, SF2Q x = Some qx) -> (exists qy, SF2Q y = Some qy) ->
  SFcompare x y = Some (scaled x ?= scaled y).
Proof.
  intros Hx Hy [qx Hqx] [qy Hqy].
  destruct x as [sx | sx | | sx mx ex]; try discriminate Hqx;
    destruct y as [sy | sy | | sy my ey]; try discriminate Hqy;
    clear Hqx Hqy.
  - reflexivity.
  - apply valid_finite_bounds in Hy. destruct Hy as (He & _ & _).
    cbn [SFcompare scaled]. f_equal.
    assert (0 < 2 ^ (ey + 1074)) by (apply Z.pow_pos_nonneg; lia).
    destruct sy; symmetry; [apply Z.compare_gt_iff | apply Z.compare_lt_iff];
      simpl signed; nia.
  - apply valid_finite_bounds in Hx. destruct Hx as (He & _ & _).
    cbn [SFcompare scaled]. f_equal.
    assert (0 < 2 ^ (ex + 1074)) by (apply Z.pow_pos_nonneg; lia).
    destruct sx; symmetry; [apply Z.compare_lt_iff | apply Z.compare_gt_iff];
      simpl signed; nia.
  - apply valid_finite_bounds in Hx. destruct Hx as (Hex & Hmx & Hnx).
    apply valid_finite_bounds in Hy. destruct Hy as (Hey & Hmy & Hny).
    cbn [SFcompare scaled]. f_equal.
    assert (Hpx : 0 < 2 ^ (ex + 1074)) by (apply Z.pow_pos_nonneg; lia).
    assert (Hpy : 0 < 2 ^ (ey + 1074)) by (apply Z.pow_pos_nonneg; lia).
    assert (Hstep : forall a b, -1074 <= a -> a < b ->
                      2 * 2 ^ (a + 1074) <= 2 ^ (b + 1074)).
    { intros a b Ha Hab.
      replace (b + 1074) with (Z.succ (a + 1074) + (b - a - 1)) by lia.
      rewrite (Z.pow_add_r 2 (Z.succ (a + 1074)) (b - a - 1)) by lia.
      rewrite (Z.pow_succ_r 2 (a + 1074)) by lia.
      assert (0 < 2 ^ (b - a - 1)) by (apply Z.pow_pos_nonneg; lia).
      assert (0 < 2 ^ (a + 1074)) by (apply Z.pow_pos_nonneg; lia).
      nia. }
    destruct sx, sy; simpl signed; symmetry.
    + (* both negative *)
      destruct (Z.compare_spec ex ey) as [-> | Hlt | Hgt].
      * change (Pos.compare_cont Eq mx my) with (mx ?= my)%positive.
        rewrite Zmul_compare_mono_r by assumption. reflexivity.
      * apply Z.compare_gt_iff. specialize (Hstep ex ey Hex Hlt).
        specialize (Hny ltac:(lia)). nia.
      * apply Z.compare_lt_iff. specialize (Hstep ey ex Hey Hgt).
        specialize (Hnx ltac:(lia)). nia.
    + apply Z.compare_lt_iff. nia.
    + apply Z.compare_gt_iff. nia.
    + (* both positive *)
      destruct (Z.compare_spec ex ey) as [-> | Hlt | Hgt].
      * change (Pos.compare_cont Eq mx my) with (mx ?= my)%positive.
        rewrite Zmul_compare_mono_r by assumption. reflexivity.
      * apply Z.compare_lt_iff. specialize (Hstep ex ey Hex Hlt).
        specialize (Hny ltac:(lia)). nia.
      * apply Z.compare_gt_iff. specialize (Hstep ey ex Hey Hgt).
        specialize (Hnx ltac:(lia)). nia.
Qed.

Lemma SFcompare_exact x y qx qy :
  valid_binary prec emax x = true -> valid_binary prec emax y = true ->
  SF2Q x = Some qx -> SF2Q y = Some qy ->
  SFcompare x y = Some (qx ?= qy)%Q.
Proof.
  intros Hx Hy Hqx Hqy.
  rewrite (SFcompare_scaled x y Hx Hy) by eauto.
  rewrite (Qcompare_comp _ _ (SF2Q_scaled x qx Hx Hqx) _ _ (SF2Q_scaled y qy Hy Hqy)).
  now rewrite Qcompare_same_den.
Qed.

Lemma SFgeb_exact f t q tq tq' :
  valid_binary prec emax f = true -> SF2Q f = Some q ->
  valid_binary prec emax t = true -> SF2Q t = Some tq' -> (tq' == tq)%Q ->
  SFgeb f t = match (q ?= tq)%Q with Lt => false | _ => true end.
Proof.
  intros Hf Hq Ht Htq Heq. unfold SFgeb.
  rewrite (SFcompare_exact f t q tq' Hf Ht Hq Htq).
  rewrite (Qcompare_comp q q (Qeq_refl q) tq' tq Heq).
  now destruct (q ?= tq)%Q.
Qed.

(** ** Doubling a binary64 float *)

Lemma iter_pos_nat {A : Type} (f : A -> A) p x :
  iter_pos f p x = Nat.iter (Pos.to_nat p) f x.
Proof.
  revert x. induction p as [p IH | p IH |]; intros x; cbn [iter_pos].
  - rewrite !IH, Pos2Nat.inj_xI.
    replace (S (2 * Pos.to_nat p))
      with (Pos.to_nat p + (Pos.to_nat p + 1))%nat by lia.
    rewrite !Nat.iter_add. reflexivity.
  - rewrite !IH, Pos2Nat.inj_xO.
    replace (2 * Pos.to_nat p)%nat with (Pos.to_nat p + Pos.to_nat p)%nat by lia.
    rewrite Nat.iter_add. reflexivity.
  - reflexivity.
Qed.

Lemma digits2_pos_shl n m :
  Z.pos (digits2_pos (shl n m)) = Z.pos (digits2_pos m) + Z.of_nat n.
Proof.
  induction n as [| n IH].
  - simpl. lia.
  - change (shl (S n) m) with (xO (shl n m)). cbn [digits2_pos].
    rewrite Pos2Z.inj_succ, IH. lia.
Qed.

(** Shifting right by [n] bits a mantissa that ends in [n + k] zero bits
    loses nothing. *)
Lemma shr_shl n k m :
  Nat.iter n shr_1 (Build_shr_record (Z.pos (shl (n + k) m)) false false)
  = Build_shr_record (Z.pos (shl k m)) false false.
Proof.
  induction n as [| n IH].
  - reflexivity.
  - rewrite Nat.iter_succ_r.
    change (shl (S n + k) m) with (xO (shl (n + k) m)).
    cbn [shr_1 orb]. exact IH.
Qed.

Lemma mul_2_52 m : (m * 4503599627370496)%positive = shl 52 m.
Proof. rewrite Pos.mul_comm. reflexivity. Qed.

Lemma valid_digits s m e :
  valid_binary prec emax (S754_finite s m e) = true ->
  e = Z.max (Z.pos (digits2_pos m) + e - 53) (-1074) /\ e <= 971.
Proof.
  unfold valid_binary, bounded, canonical_mantissa, fexp, emin, prec, emax.
  rewrite andb_true_iff, Z.eqb_eq, Z.leb_le. intros [H1 H2]. split; lia.
Qed.

Lemma shr_fexp_exact_shift k n m e :
  fexp prec emax (Z.pos (digits2_pos (shl (n + k) m)) + e) - e = Z.of_nat n ->
  shr_fexp prec emax (Z.pos (shl (n + k) m)) e loc_Exact
  = (Build_shr_record (Z.pos (shl k m)) false false, e + Z.of_nat n).
Proof.
  intros Hn. unfold shr_fexp. cbn [Zdigits2 shr_record_of_loc]. rewrite Hn.
  destruct n as [| n].
  - simpl. f_equal. lia.
  - unfold shr. cbn [Z.of_nat]. rewrite iter_pos_nat, SuccNat2Pos.id_succ.
    now rewrite shr_shl.
Qed.

(** The product with [2.0]: the exponent goes up by one for a normal
    number (to infinity at the top of the range), the mantissa doubles for a
    subnormal one. *)
Lemma SFmul_2_cases s m e :
  valid_binary prec emax (S754_finite s m e) = true ->
  SFmul prec emax (S754_finite s m e) f2_0
  = if Z.pos (digits2_pos m) =? 53
    then if e <=? 970 then S754_finite s m (e + 1) else S754_infinity s
    else S754_finite s (xO m) e.
Proof.
  intros Hv. apply valid_digits in Hv. destruct Hv as [Hcanon Hmax].
  pose proof (Pos2Z.is_pos (digits2_pos m)) as Hd.
  unfold f2_0. cbn [SFmul]. rewrite xorb_false_r, mul_2_52.
  unfold binary_round_aux.
  destruct (Z.eqb_spec (Z.pos (digits2_pos m)) 53) as [Hd53 | Hd53].
  - (* a normal number: the product is shifted by 52 bits *)
    change (shl 52 m) with (shl (52 + 0) m).
    rewrite (shr_fexp_exact_shift 0 52 m (e + -51)).
    2:{ rewrite digits2_pos_shl, Hd53. unfold fexp, emin, prec, emax.
        change (Z.of_nat (52 + 0)) with 52. change (Z.of_nat 52) with 52. lia. }
    cbn [shr_m loc_of_shr_record round_nearest_even].
    change (shl 0 m) with (shl (0 + 0) m).
    rewrite (shr_fexp_exact_shift 0 0 m).
    2:{ change (shl (0 + 0) m) with m. rewrite Hd53.
        unfold fexp, emin, prec, emax.
        change (Z.of_nat 52) with 52. change (Z.of_nat 0) with 0. lia. }
    cbn [shr_m]. change (shl 0 m) with m. unfold emax, prec.
    change (Z.of_nat 52) with 52. change (Z.of_nat 0) with 0.
    replace (e + -51 + 52 + 0) with (e + 1) by lia.
    change (1024 - 53) with 971.
    destruct (Z.leb_spec (e + 1) 971), (Z.leb_spec e 970); try lia; reflexivity.
  - (* a subnormal number: the product is shifted by 51 bits *)
    assert (He : e = -1074) by lia.
    assert (Hd52 : Z.pos (digits2_pos m) <= 52) by lia.
    change (shl 52 m) with (shl (51 + 1) m).
    rewrite (shr_fexp_exact_shift 1 51 m (e + -51)).
    2:{ rewrite digits2_pos_shl. unfold fexp, emin, prec, emax.
        change (Z.of_nat (51 + 1)) with 52. change (Z.of_nat 51) with 51. lia. }
    cbn [shr_m loc_of_shr_record round_nearest_even].
    change (shl 1 m) with (shl (0 + 1) m).
    rewrite (shr_fexp_exact_shift 1 0 m).
    2:{ cbn [Nat.add]. rewrite digits2_pos_shl. unfold fexp, emin, prec, emax.
        change (Z.of_nat 51) with 51. change (Z.of_nat 1) with 1.
        change (Z.of_nat 0) with 0. lia. }
    cbn [shr_m]. change (shl 1 m) with (xO m). unfold emax, prec.
    change (Z.of_nat 51) with 51. change (Z.of_nat 0) with 0.
    replace (e + -51 + 51 + 0) with e by lia.
    change (1024 - 53) with 971.
    destruct (Z.leb_spec e 971); [reflexivity | lia].
Qed.

(** Below [2^1023] in absolute value the product with [2.0] is exact. *)
Lemma SFmul_2_exact f q :
  valid_binary prec emax f = true -> SF2Q f = Some q ->
  (- inject_Z (2 ^ 1023) < q)%Q -> (q < inject_Z (2 ^ 1023))%Q ->
  exists q', SF2Q (SFmul prec emax f f2_0) = Some q' /\ (q' == 2 * q)%Q.
Proof.
  intros Hv Hq Hlo Hhi.
  destruct f as [s | s | | s m e]; try discriminate Hq.
  - injection Hq as <-. exists 0%Q. split; reflexivity.
  - rewrite (SFmul_2_cases s m e Hv).
    pose proof (valid_finite_bounds s m e Hv) as (He & Hm53 & Hm52).
    apply valid_digits in Hv. destruct Hv as [Hcanon Hmax].
    destruct (SF2Q_finite s m e He) as (q0 & Hq0 & Hval).
    rewrite Hq in Hq0. injection Hq0 as <-.
    assert (Hpow : 0 < 2 ^ (e + 1074)) by (apply Z.pow_pos_nonneg; lia).
    destruct (Z.eqb_spec (Z.pos (digits2_pos m)) 53) as [Hd53 | Hd53].
    + destruct (Z.leb_spec e 970) as [He970 | He970].
      * destruct (SF2Q_finite s m (e + 1)) as (q' & Hq' & Hval'); [lia |].
        exists q'. split; [exact Hq' |].
        rewrite Hval', Hval. unfold Qeq, Qmult. cbn [Qnum Qden].
        replace (e + 1 + 1074) with (Z.succ (e + 1074)) by lia.
        rewrite Z.pow_succ_r by lia. rewrite Pos2Z.inj_mul. ring.
      * exfalso. assert (e = 971) as -> by lia.
        specialize (Hm52 ltac:(lia)).
        cbn [SF2Q] in Hq. injection Hq as <-.
        unfold Qlt, Qopp, inject_Z in Hlo, Hhi. cbn [Qnum Qden] in Hlo, Hhi.
        rewrite Pos2Z.inj_pow in Hlo, Hhi.
        change (2 ^ 1023) with (2 ^ 52 * 2 ^ 971) in Hlo, Hhi.
        assert (0 < 2 ^ 971) by (apply Z.pow_pos_nonneg; lia).
        destruct s; cbn [signed] in Hlo, Hhi; nia.
    + assert (e = -1074) as -> by lia.
      exists (signed s (xO m) # 2 ^ 1074)%Q. split; [reflexivity |].
      cbn [SF2Q] in Hq. injection Hq as <-.
      unfold Qeq, Qmult. cbn [Qnum Qden].
      destruct s; cbn [signed]; rewrite ?Pos2Z.inj_mul; lia.
Qed.

(** ** Seismic marker *)

Lemma SFcompare_Z_exact f k q :
  SF2Q f = Some q -> SFcompare_Z f k = Some (q ?= inject_Z k)%Q.
Proof.
  destruct f as [s | s | | s m e]; simpl; try discriminate;
    intros H; injection H as <-; f_equal; unfold Qcompare; simpl.
  - now rewrite Z.mul_1_r.
  - destruct e; simpl; now rewrite ?Z.mul_1_r.
Qed.

Lemma compare_int_exact m k q :
  number_value m = Some q ->
  compare_int m k = Ok (Some (q ?= inject_Z k)%Q).
Proof.
  destruct m; simpl; try discriminate.
  - intros H; injection H as <-. unfold Qcompare; simpl.
    now rewrite !Z.mul_1_r.
  - intros H; injection H as <-. unfold Qcompare; simpl.
    now rewrite !Z.mul_1_r.
  - intros H. now rewrite (SFcompare_Z_exact _ _ _ H).
Qed.

Lemma lt_int_exact m k q :
  number_value m = Some q ->
  lt_int m k = Ok (match (q ?= inject_Z k)%Q with Lt => true | _ => false end).
Proof.
  intros H. unfold lt_int. now rewrite (compare_int_exact _ _ _ H).
Qed.

Lemma mul_int_2_number m q :
  number_value m = Some q ->
  exists radius, mul_int m 2 = Ok radius /\
    (forall z, m = PInt z -> radius = PInt (2 * z)) /\
    (forall f, m = PFloat f -> radius = PFloat (SFmul prec emax f f2_0)).
Proof.
  destruct m; simpl; try discriminate; intros _; eexists;
    (split; [reflexivity |]); split; intros x Hx; try discriminate Hx;
    injection Hx as <-; try reflexivity.
  now rewrite Z.mul_comm.
Qed.

(** The value of [magnitude * 2] is twice the value of [magnitude]. *)
Lemma mul_int_2_value m q radius :
  number_value m = Some q -> binary64 m ->
  (- inject_Z (2 ^ 1023) < q)%Q -> (q < inject_Z (2 ^ 1023))%Q ->
  mul_int m 2 = Ok radius ->
  exists r, number_value radius = Some r /\ (r == 2 * q)%Q.
Proof.
  intros Hq Hv Hlo Hhi Hmul.
  destruct m as [| b | z | f | | |]; try discriminate Hq; simpl in Hq, Hmul.
  - injection Hq as <-. injection Hmul as <-. eexists. split; [reflexivity |].
    unfold Qeq, Qmult, inject_Z. cbn [Qnum Qden]. lia.
  - injection Hq as <-. injection Hmul as <-. eexists. split; [reflexivity |].
    unfold Qeq, Qmult, inject_Z. cbn [Qnum Qden]. lia.
  - injection Hmul as <-. exact (SFmul_2_exact f q Hv Hq Hlo Hhi).
Qed.

(** C6.  For a magnitude that is a number of exact value [q], the marker
    is green when [q < 4], orange when [4 <= q < 6] and red when [6 <= q].
    Its radius is [magnitude * 2]: [2 * z] for an integer [z], the binary64
    product with [2.0] for a float, and in both cases a number of exact
    value [2 * q] (for a float, as long as [q] is below [2^1023] in absolute
    value, where the product would overflow).  The magnitude [5.2] gives
    orange and the radius [10.4]. *)
Theorem earthquakes_marker_bands :
  (forall m q, number_value m = Some q ->
     exists color radius,
       earthquakes_marker m = Ok (color, radius) /\
       ((q < 4)%Q -> color = "green") /\
       ((4 <= q)%Q /\ (q < 6)%Q -> color = "orange") /\
       ((6 <= q)%Q -> color = "red") /\
       (forall z, m = PInt z -> radius = PInt (2 * z)) /\
       (forall f, m = PFloat f -> radius = PFloat (SFmul prec emax f f2_0)) /\
       (binary64 m ->
        (- inject_Z (2 ^ 1023) < q)%Q -> (q < inject_Z (2 ^ 1023))%Q ->
        exists r, number_value radius = Some r /\ (r == 2 * q)%Q))
  /\ earthquakes_marker (PFloat f5_2) = Ok ("orange", PFloat f10_4).
Proof.
  split; [| reflexivity].
  intros m q Hq.
  destruct (mul_int_2_number m q Hq) as (radius & Hmul & Hint & Hfloat).
  pose proof (fun Hv Hlo Hhi => mul_int_2_value m q radius Hq Hv Hlo Hhi Hmul)
    as Hvalue.
  unfold earthquakes_marker, earthquakes_color.
  rewrite !(lt_int_exact m _ q Hq). simpl bind.
  change (inject_Z 4) with 4%Q. change (inject_Z 6) with 6%Q.
  destruct (Qcompare_spec q 4) as [H4 | H4 | H4];
    destruct (Qcompare_spec q 6) as [H6 | H6 | H6];
    simpl; rewrite Hmul; simpl; do 2 eexists; (split; [reflexivity |]);
    (split; [| split; [| split; [| split; [| split]]]]);
    try assumption; intros H; try reflexivity;
    exfalso; lra.
Qed.

Lemma earthquakes_marker_bands_witness :
  exists color radius,
    earthquakes_marker (PFloat f5_2) = Ok (color, radius) /\
    color = "orange" /\
    exists r, number_value radius = Some r /\ (r == 2 * (5854679515581645 # 2 ^ 50))%Q.
Proof.
  destruct (proj1 earthquakes_marker_bands (PFloat f5_2)
              (5854679515581645 # 2 ^ 50)%Q eq_refl)
    as (color & radius & Hrun & _ & Horange & _ & _ & _ & Hvalue).
  exists color, radius. split; [exact Hrun |]. split.
  - apply Horange. split; unfold Qle, Qlt; simpl; lia.
  - apply Hvalue.
    + reflexivity.
    + reflexivity.
    + reflexivity.
Defined.

(** ** Integers as binary64 floats *)

Lemma shl_value n m : Z.pos (shl n m) = Z.pos m * 2 ^ Z.of_nat n.
Proof.
  induction n as [| n IH].
  - cbn. lia.
  - change (shl (S n) m) with (xO (shl n m)).
    rewrite (Pos2Z.inj_xO (shl n m)), IH, Nat2Z.inj_succ, Z.pow_succ_r by lia.
    ring.
Qed.

(** A mantissa of 53 bits with an exponent in range is not rounded. *)
Lemma binary_round_aux_exact s m e :
  Z.pos (digits2_pos m) = 53 -> -1074 <= e <= 971 ->
  binary_round_aux prec emax s (Z.pos m) e loc_Exact = S754_finite s m e.
Proof.
  intros Hd He. unfold binary_round_aux.
  change m with (shl (0 + 0) m).
  rewrite (shr_fexp_exact_shift 0 0 m e).
  2:{ change (shl (0 + 0) m) with m. rewrite Hd.
      unfold fexp, emin, prec, emax. change (Z.of_nat 0) with 0. lia. }
  cbn [shr_m loc_of_shr_record round_nearest_even].
  change (shl 0 m) with (shl (0 + 0) m).
  rewrite (shr_fexp_exact_shift 0 0 m).
  2:{ change (shl (0 + 0) m) with m. rewrite Hd.
      unfold fexp, emin, prec, emax. change (Z.of_nat 0) with 0. lia. }
  cbn [shr_m]. change (shl 0 m) with m. change (shl (0 + 0) m) with m.
  unfold emax, prec. change (Z.of_nat 0) with 0.
  change (1024 - 53) with 971.
  destruct (Z.leb_spec (e + 0 + 0) 971) as [_ | H]; [| lia].
  f_equal. lia.
Qed.

(** Below [2^53] an integer is a float: the mantissa is shifted to 53
    bits. *)
Lemma binary_round_small s m :
  Z.pos m < 2 ^ 53 ->
  exists n,
    Z.of_nat n = 53 - Z.pos (digits2_pos m) /\
    binary_round prec emax s m 0 = S754_finite s (shl n m) (- Z.of_nat n).
Proof.
  intros Hm. pose proof (digits2_pos_bounds m) as [Hlo _].
  assert (Hd : Z.pos (digits2_pos m) <= 53).
  { destruct (Z.le_gt_cases (Z.pos (digits2_pos m)) 53) as [H | H]; [exact H |].
    exfalso. assert (2 ^ 53 <= 2 ^ (Z.pos (digits2_pos m) - 1))
      by (apply Z.pow_le_mono_r; lia). lia. }
  exists (Z.to_nat (53 - Z.pos (digits2_pos m))).
  split; [lia |].
  unfold binary_round, shl_align.
  replace (fexp prec emax (Z.pos (digits2_pos m) + 0))
    with (Z.pos (digits2_pos m) - 53)
    by (unfold fexp, emin, prec, emax; lia).
  destruct (Z.pos (digits2_pos m) - 53 - 0) as [| p | p] eqn:Hshift.
  - replace (Z.to_nat (53 - Z.pos (digits2_pos m))) with 0%nat by lia.
    change (shl 0 m) with m. cbn [Z.of_nat Z.opp].
    apply binary_round_aux_exact; lia.
  - lia.
  - rewrite Pos2Nat.inj_iter.
    change (nat_rect (fun _ => positive) m (fun _ => xO) (Pos.to_nat p))
      with (shl (Pos.to_nat p) m).
    replace (Z.to_nat (53 - Z.pos (digits2_pos m))) with (Pos.to_nat p) by lia.
    replace (Z.pos (digits2_pos m) - 53) with (- Z.of_nat (Pos.to_nat p)) by lia.
    apply binary_round_aux_exact; [| lia].
    rewrite digits2_pos_shl. lia.
Qed.

Lemma float_of_Z_exact z :
  - 2 ^ 53 < z < 2 ^ 53 ->
  exists f q,
    float_of_Z z = Ok f /\ valid_binary prec emax f = true /\
    SF2Q f = Some q /\ (q == inject_Z z)%Q.
Proof.
  intros Hz. unfold float_of_Z, binary_normalize.
  assert (Hcase : forall s m, Z.pos m < 2 ^ 53 ->
            exists f q,
              binary_round prec emax s m 0 = f /\
              (forall s', f <> S754_infinity s') /\
              valid_binary prec emax f = true /\
              SF2Q f = Some q /\ (q == inject_Z (signed s m))%Q).
  { intros s m Hm.
    destruct (binary_round_small s m Hm) as (n & Hn & Hround).
    pose proof (Pos2Z.is_pos (digits2_pos m)) as Hpos.
    destruct (SF2Q_finite s (shl n m) (- Z.of_nat n)) as (q & Hq & Hval); [lia |].
    exists (S754_finite s (shl n m) (- Z.of_nat n)), q.
    split; [exact Hround |]. split; [discriminate |]. split; [| split].
    - unfold valid_binary, bounded, canonical_mantissa, fexp, emin, prec, emax.
      rewrite digits2_pos_shl. apply andb_true_iff. split.
      + apply Z.eqb_eq. lia.
      + apply Z.leb_le. lia.
    - exact Hq.
    - rewrite Hval. unfold Qeq, inject_Z. cbn [Qnum Qden].
      rewrite Z.mul_1_r, Pos2Z.inj_pow.
      assert (Hs : signed s (shl n m) = signed s m * 2 ^ Z.of_nat n).
      { destruct s; cbn [signed].
        - change (Z.neg (shl n m)) with (- Z.pos (shl n m)).
          change (Z.neg m) with (- Z.pos m). rewrite shl_value. ring.
        - apply shl_value. }
      rewrite Hs, <- Z.mul_assoc, <- Z.pow_add_r by lia.
      do 2 f_equal. lia. }
  destruct z as [| m | m].
  - exists (S754_zero false), 0%Q. repeat split; reflexivity.
  - destruct (Hcase false m ltac:(lia)) as (f & q & -> & Hfin & Hv & Hq & Hval).
    exists f, q. split; [| now repeat split].
    destruct f; try reflexivity. now destruct (Hfin s).
  - destruct (Hcase true m ltac:(lia)) as (f & q & -> & Hfin & Hv & Hq & Hval).
    exists f, q. split; [| now repeat split].
    destruct f; try reflexivity. now destruct (Hfin s).
Qed.

(** ** Tsunami marker colour *)

Section TsunamiBands.

Variable float_of_str : string -> option spec_float.

(** The colour of a magnitude that [float] turns into a finite binary64
    value, by the exact value of that float. *)
Lemma tsunamis_magnitude_bands magnitude f q' q :
  eq_str magnitude "N/A" = false ->
  py_float float_of_str magnitude = Ok f ->
  valid_binary prec emax f = true -> SF2Q f = Some q' -> (q' == q)%Q ->
  exists color,
    tsunamis_magnitude_color float_of_str magnitude = Ok color /\
    ((8 <= q)%Q -> color = "darkred") /\
    ((13 # 2 <= q)%Q /\ (q < 8)%Q -> color = "red") /\
    ((5 <= q)%Q /\ (q < 13 # 2)%Q -> color = "orange") /\
    ((q < 5)%Q -> color = "yellow").
Proof.
  intros Hne Hf Hv Hq Heq.
  unfold tsunamis_magnitude_color. rewrite Hne, Hf. simpl bind.
  rewrite (SFgeb_exact f f8_0 q' 8 _ Hv Hq eq_refl eq_refl) by reflexivity.
  rewrite (SFgeb_exact f f6_5 q' (13 # 2) _ Hv Hq eq_refl eq_refl) by reflexivity.
  rewrite (SFgeb_exact f f5_0 q' 5 _ Hv Hq eq_refl eq_refl) by reflexivity.
  destruct (Qcompare_spec q' 8) as [H8 | H8 | H8];
    destruct (Qcompare_spec q' (13 # 2)) as [H65 | H65 | H65];
    destruct (Qcompare_spec q' 5) as [H5 | H5 | H5];
    eexists; (split; [reflexivity |]);
    repeat split; intros H; try reflexivity; exfalso; lra.
Qed.

(** [float] on a JSON number gives a float of the same value: a float is
    itself, an integer below [2^53] is not rounded. *)
Lemma py_float_number m q :
  number_value m = Some q -> binary64 m ->
  (forall z, m = PInt z -> - 2 ^ 53 < z < 2 ^ 53) ->
  exists f q',
    eq_str m "N/A" = false /\
    py_float float_of_str m = Ok f /\
    valid_binary prec emax f = true /\ SF2Q f = Some q' /\ (q' == q)%Q.
Proof.
  intros Hq Hv Hint.
  destruct m as [| b | z | f | | |]; try discriminate Hq; cbn in Hq.
  - injection Hq as <-.
    destruct (float_of_Z_exact (Z.b2z b)) as (f & q' & Hf & Hvalid & Hq' & Heq);
      [destruct b; cbn; lia |].
    now exists f, q'.
  - injection Hq as <-.
    destruct (float_of_Z_exact z (Hint z eq_refl))
      as (f & q' & Hf & Hvalid & Hq' & Heq).
    now exists f, q'.
  - exists f, q. repeat split; first [assumption | reflexivity].
Qed.

(** C8.  A record whose magnitude is the sentinel ["N/A"] is blue, and the
    record of an upstream entry with no [earthquakeMagnitude] carries that
    sentinel (not a number) and is blue; the record of an entry with an
    [earthquakeMagnitude] carries it as it is.  A record whose magnitude is
    a number of exact value [q] (an integer below [2^53] in absolute value,
    or a finite float) is darkred when [8 <= q], red when [6.5 <= q < 8],
    orange when [5 <= q < 6.5] and yellow when [q < 5]; so a magnitude of
    zero is yellow and the sentinel is not read as zero.  An infinite
    magnitude is darkred or yellow by its sign and a NaN is yellow.  A
    magnitude that is a text other than the sentinel has the colour of the
    float that [float] reads in it. *)
Theorem tsunamis_marker_bands :
  (forall record, getitem record "magnitude" = Ok (PStr "N/A") ->
     tsunamis_marker_color float_of_str record = Ok "blue")
  /\
  (forall d, lookup "earthquakeMagnitude" d = None ->
     tsunami_record (PDict d) = Ok (tsunami_record_of d) /\
     getitem (tsunami_record_of d) "magnitude" = Ok (PStr "N/A") /\
     tsunamis_marker_color float_of_str (tsunami_record_of d) = Ok "blue")
  /\
  (forall d m, lookup "earthquakeMagnitude" d = Some m ->
     tsunami_record (PDict d) = Ok (tsunami_record_of d) /\
     getitem (tsunami_record_of d) "magnitude" = Ok m)
  /\
  (forall record m q,
     getitem record "magnitude" = Ok m ->
     number_value m = Some q -> binary64 m ->
     (forall z, m = PInt z -> - 2 ^ 53 < z < 2 ^ 53) ->
     exists color,
       tsunamis_marker_color float_of_str record = Ok color /\
       ((8 <= q)%Q -> color = "darkred") /\
       ((13 # 2 <= q)%Q /\ (q < 8)%Q -> color = "red") /\
       ((5 <= q)%Q /\ (q < 13 # 2)%Q -> color = "orange") /\
       ((q < 5)%Q -> color = "yellow"))
  /\
  (forall record,
     (getitem record "magnitude" = Ok (PFloat (S754_infinity false)) ->
      tsunamis_marker_color float_of_str record = Ok "darkred") /\
     (getitem record "magnitude" = Ok (PFloat (S754_infinity true)) ->
      tsunamis_marker_color float_of_str record = Ok "yellow") /\
     (getitem record "magnitude" = Ok (PFloat S754_nan) ->
      tsunamis_marker_color float_of_str record = Ok "yellow"))
  /\
  (forall record s f q,
     getitem record "magnitude" = Ok (PStr s) -> s <> "N/A" ->
     float_of_str s = Some f ->
     valid_binary prec emax f = true -> SF2Q f = Some q ->
     exists color,
       tsunamis_marker_color float_of_str record = Ok color /\
       ((8 <= q)%Q -> color = "darkred") /\
       ((13 # 2 <= q)%Q /\ (q < 8)%Q -> color = "red") /\
       ((5 <= q)%Q /\ (q < 13 # 2)%Q -> color = "orange") /\
       ((q < 5)%Q -> color = "yellow")).
Proof.
  repeat match goal with |- _ /\ _ => split end.
  - intros record Hm. unfold tsunamis_marker_color. now rewrite Hm.
  - intros d Hd. split; [reflexivity |].
    unfold tsunamis_marker_color, tsunami_record_of, field.
    cbn [getitem lookup String.eqb Ascii.eqb Bool.eqb bind].
    rewrite Hd. split; reflexivity.
  - intros d m Hd. split; [reflexivity |].
    unfold tsunami_record_of, field.
    cbn [getitem lookup String.eqb Ascii.eqb Bool.eqb]. now rewrite Hd.
  - intros record m q Hm Hq Hv Hint.
    destruct (py_float_number m q Hq Hv Hint)
      as (f & q' & Hne & Hf & Hvalid & Hq' & Heq).
    unfold tsunamis_marker_color. rewrite Hm. cbn [bind].
    exact (tsunamis_magnitude_bands m f q' q Hne Hf Hvalid Hq' Heq).
  - intros record.
    repeat split; intros Hm; unfold tsunamis_marker_color; now rewrite Hm.
  - intros record s f q Hm Hs Hf Hvalid Hq.
    unfold tsunamis_marker_color. rewrite Hm. cbn [bind].
    apply (tsunamis_magnitude_bands (PStr s) f q q); try assumption.
    + cbn [eq_str]. now apply String.eqb_neq.
    + cbn [py_float]. now rewrite Hf.
    + reflexivity.
Qed.

End TsunamiBands.

Lemma tsunamis_marker_bands_witness :
  tsunamis_marker_color (fun _ => None)
    (tsunami_record_of [("locationName", PStr "SUMATRA");
                        ("earthquakeMagnitude", PInt 9)]) = Ok "darkred" /\
  tsunamis_marker_color (fun _ => None) (tsunami_record_of entry_located)
  = Ok "red" /\
  tsunamis_marker_color (fun _ => None)
    (tsunami_record_of [("locationName", PStr "CHILE"); ("year", PInt 1960)])
  = Ok "blue".
Proof.
  destruct (tsunamis_marker_bands (fun _ => None))
    as (_ & Habsent & _ & Hbands & _).
  split; [| split].
  - destruct (Hbands (tsunami_record_of [("locationName", PStr "SUMATRA");
                                         ("earthquakeMagnitude", PInt 9)])
                (PInt 9) 9%Q eq_refl eq_refl I)
      as (color & Hrun & Hdarkred & _).
    + intros z Hz. injection Hz as <-. lia.
    + rewrite Hrun. f_equal. apply Hdarkred. unfold Qle. simpl. lia.
  - destruct (Hbands (tsunami_record_of entry_located)
                (PFloat (S754_finite false 7881299347898368 (-50)))
                (7881299347898368 # 2 ^ 50)%Q eq_refl eq_refl eq_refl)
      as (color & Hrun & _ & Hred & _).
    + intros z Hz. discriminate Hz.
    + rewrite Hrun. f_equal. apply Hred. split; unfold Qle, Qlt; simpl; lia.
  - apply (Habsent [("locationName", PStr "CHILE"); ("year", PInt 1960)]).
    reflexivity.
Defined.

(** ** Password strength *)

Lemma in_range_spec lo hi c :
  Password.in_range lo hi c = true <-> (N_of_ascii lo <= c <= N_of_ascii hi)%N.
Proof.
  unfold Password.in_range. rewrite andb_true_iff, !N.leb_le. tauto.
Qed.

(** The class of the SPECIAL_CHARS pattern holds the twenty listed
    characters. *)
Lemma is_special_spec c : Password.is_special c = true <-> special_character c.
Proof.
  unfold Password.is_special, special_character.
  change Password.SPECIAL_CHARS with special_characters.
  rewrite existsb_exists. split.
  - intros [x [Hin Heq]]. apply N.eqb_eq in Heq. now subst.
  - intros Hin. exists c. split; [assumption | apply N.eqb_refl].
Qed.

Lemma re_search_contains cls (P : N -> Prop) p :
  (forall c, cls c = true <-> P c) ->
  Password.re_search cls p = true <-> contains P p.
Proof.
  intros Hcls. unfold Password.re_search, contains. rewrite existsb_exists.
  split; intros [c [Hin Hc]]; exists c; split; try assumption; now apply Hcls.
Qed.

Lemma length_message_text :
  Password.length_message = "Password must be at least 8 characters long".
Proof. reflexivity. Qed.

(** C10.  For a password [p], a sequence of code points,
    [is_password_strong p] answers [True] exactly when [p] has at least
    eight characters, an uppercase letter, a lowercase letter, a digit and
    one of the twenty special characters.  When it answers [False] the
    message is the length message if [p] is too short, and otherwise
    ["Password must contain: "] followed by the names, joined by [", "], of
    exactly the requirements [p] does not meet. *)
Theorem is_password_strong_spec (p : text) :
  (fst (Password.is_password_strong p) = true <->
     (8 <= List.length p)%nat /\
     contains uppercase_letter p /\ contains lowercase_letter p /\
     contains digit p /\ contains special_character p)
  /\
  (fst (Password.is_password_strong p) = false ->
     ((List.length p < 8)%nat /\
      snd (Password.is_password_strong p)
      = "Password must be at least 8 characters long")
     \/
     ((8 <= List.length p)%nat /\
      exists names : list string,
        names <> [] /\
        snd (Password.is_password_strong p)
          = "Password must contain: " ++ String.concat ", " names /\
        (In "uppercase letter" names <-> ~ contains uppercase_letter p) /\
        (In "lowercase letter" names <-> ~ contains lowercase_letter p) /\
        (In "number" names <-> ~ contains digit p) /\
        (In "special character" names <-> ~ contains special_character p))).
Proof.
  pose proof (re_search_contains Password.is_upper uppercase_letter p
                (in_range_spec "A" "Z")) as HU.
  pose proof (re_search_contains Password.is_lower lowercase_letter p
                (in_range_spec "a" "z")) as HL.
  pose proof (re_search_contains Password.is_digit digit p
                (in_range_spec "0" "9")) as HD.
  pose proof (re_search_contains Password.is_special special_character p
                is_special_spec) as HS.
  unfold Password.is_password_strong, Password.check,
    Password.MIN_PASSWORD_LENGTH, Password.REQUIRE_UPPERCASE,
    Password.REQUIRE_LOWERCASE, Password.REQUIRE_NUMBERS,
    Password.REQUIRE_SPECIAL_CHARS.
  destruct (List.length p <? 8)%nat eqn:Hlen.
  - apply Nat.ltb_lt in Hlen. split.
    + simpl. split; [discriminate | intros [H _]; lia].
    + intros _. left. split; [assumption | reflexivity].
  - apply Nat.ltb_ge in Hlen.
    destruct (Password.re_search Password.is_upper p),
      (Password.re_search Password.is_lower p),
      (Password.re_search Password.is_digit p),
      (Password.re_search Password.is_special p);
      cbn [fst snd andb negb app];
      (split;
       [ split;
         [ intros H; try discriminate H; repeat split;
           solve [assumption | apply HU; reflexivity | apply HL; reflexivity
                 | apply HD; reflexivity | apply HS; reflexivity]
         | intros (_ & H1 & H2 & H3 & H4);
           apply HU in H1; apply HL in H2; apply HD in H3; apply HS in H4;
           congruence ]
       | intros H;
         first
           [ discriminate H
           | right; split; [assumption |];
             eexists; split; [| split; [reflexivity |]];
             [ discriminate
             | rewrite <- HU, <- HL, <- HD, <- HS; simpl;
               repeat split; intros;
               intuition (try discriminate; try congruence) ] ] ]).
Qed.

Lemma is_password_strong_spec_witness :
  fst (Password.is_password_strong password_with_classes) = true /\
  exists names : list string,
    names <> [] /\
    snd (Password.is_password_strong password_without_classes)
      = "Password must contain: " ++ String.concat ", " names /\
    (In "uppercase letter" names
     <-> ~ contains uppercase_letter password_without_classes) /\
    (In "lowercase letter" names
     <-> ~ contains lowercase_letter password_without_classes) /\
    (In "number" names <-> ~ contains digit password_without_classes) /\
    (In "special character" names
     <-> ~ contains special_character password_without_classes).
Proof.
  split.
  - apply (proj1 (is_password_strong_spec password_with_classes)).
    split; [cbn; lia |].
    split; [exists 80%N | split; [exists 97%N | split; [exists 48%N | exists 33%N]]];
      (split;
       [ vm_compute; repeat (first [left; reflexivity | right])
       | first [ unfold uppercase_letter, lowercase_letter, digit; cbn; lia
               | vm_compute; repeat (first [left; reflexivity | right]) ] ]).
  - destruct (proj2 (is_password_strong_spec password_without_classes) eq_refl)
      as [[Hshort _] | [_ Hnames]].
    + cbn in Hshort. lia.
    + exact Hnames.
Defined.

(** Three runs of [is_password_strong] on strings. *)
Example strong_password_accepted :
  is_password_strong "Abcdef1!" = (true, "Password meets strength requirements").
Proof. reflexivity. Qed.

Example missing_classes_named :
  is_password_strong "abcdefgh"
  = (false, "Password must contain: uppercase letter, number, special character").
Proof. reflexivity. Qed.

Example short_password_rejected :
  is_password_strong "Ab1!" = (false, "Password must be at least 8 characters long").
Proof. reflexivity. Qed.

(** A character above U+00FF counts as one character and is in none of
    the classes. *)
Example wide_character_counts_once :
  Password.is_password_strong (code_points "Abc1!" ++ [8364%N; 8364%N])%list
  = (false, "Password must be at least 8 characters long") /\
  Password.is_password_strong password_without_classes
  = (false, "Password must contain: uppercase letter, number, special character").
Proof. split; reflexivity. Qed.

(** * Further properties *)

(** ** Seismic records *)

Lemma earthquake_record_of feature record :
  seismic_record_of feature record -> earthquake_record feature = Ok record.
Proof.
  intros (kv & props & geo & place & mag & lon & lat & rest
          & -> & Hprops & Hgeo & Hplace & Hmag & Hcoords & ->).
  unfold earthquake_record, getitem. rewrite Hgeo. simpl.
  rewrite Hcoords. simpl. rewrite Hprops. simpl.
  rewrite Hplace. simpl. rewrite Hmag. reflexivity.
Qed.

(** X1.  When the feed answers 200 with a [features] list whose first ten
    features have all the fields, the seismic list has exactly one record
    per feature among the first ten, in the order of the feed; each record
    takes its latitude from the second coordinate and its longitude from
    the first, and drops any further coordinate.  Features after the tenth
    are not read. *)
Theorem seismic_records_in_order u fs :
  serves u "features" fs ->
  Forall (fun feature => exists record, seismic_record_of feature record)
         (firstn 10 fs) ->
  exists records,
    fetch Seismic u = Ok records /\
    Forall2 seismic_record_of (firstn 10 fs) records.
Proof.
  intros Hserves Hall. simpl fetch.
  rewrite (fetch_earthquake_serves u fs Hserves).
  induction Hall as [| feature rest [record Hrec] _ (records & Hmap & Hall2)].
  - exists []. split; [reflexivity | constructor].
  - exists (record :: records). simpl.
    rewrite (earthquake_record_of _ _ Hrec), Hmap. simpl.
    split; [reflexivity | now constructor].
Qed.

Lemma seismic_records_in_order_witness :
  exists records,
    fetch Seismic
      (feed "features"
         (repeat (quake "Ridgecrest" (PInt 5) (-117) 35) 10 ++ [quake_no_geometry]))
      = Ok records /\
    List.length records = 10%nat.
Proof.
  destruct (seismic_records_in_order
              (feed "features"
                 (repeat (quake "Ridgecrest" (PInt 5) (-117) 35) 10
                  ++ [quake_no_geometry]))
              (repeat (quake "Ridgecrest" (PInt 5) (-117) 35) 10
               ++ [quake_no_geometry])
              (serves_feed _ _))
    as (records & Hrun & Hall).
  - simpl. repeat constructor; eexists; unfold seismic_record_of, quake;
      do 8 eexists; repeat split; reflexivity.
  - exists records. split; [exact Hrun |].
    apply Forall2_length in Hall. rewrite <- Hall. reflexivity.
Defined.

(** ** The cache window *)

Lemma cached_fetch_miss t c now u l c1 :
  fresh c now = false -> cached_fetch t c now u = (Ok l, c1) ->
  c1 = Some (mkEntry l now).
Proof.
  intros Hstale. unfold cached_fetch. rewrite (cache_data_stale _ _ _ _ Hstale).
  destruct (fetch t u) as [l' | ex]; intros H; [| discriminate H].
  now injection H as <- <-.
Qed.

(** X2.  After a call at time [t0] that ran the feed function and got a
    list, every later call made less than 600 seconds after [t0] returns
    that same list and leaves the entry as it is, whatever the upstream
    would answer: the feed function is not run again.  The first call made
    600 seconds or more after [t0] runs the feed function again, and a
    returned list replaces the entry as a whole. *)
Theorem cache_window t c t0 u l c1 :
  fresh c t0 = false -> cached_fetch t c t0 u = (Ok l, c1) ->
  (forall calls, Forall (fun call => fst call - t0 < 600) calls ->
     cached_calls t c1 calls = (map (fun _ => Ok l) calls, c1)) /\
  (forall now u', 600 <= now - t0 ->
     cached_fetch t c1 now u'
     = match fetch t u' with
       | Ok l' => (Ok l', Some (mkEntry l' now))
       | Raise ex => (Raise ex, c1)
       end).
Proof.
  intros Hstale Hfirst.
  rewrite (cached_fetch_miss t c t0 u l c1 Hstale Hfirst). split.
  - intros calls Hcalls.
    induction Hcalls as [| [now u'] rest Hnow _ IH]; [reflexivity |].
    cbn [cached_calls]. unfold cached_fetch at 1.
    rewrite cache_data_fresh.
    + cbn [events]. rewrite IH. reflexivity.
    + unfold fresh. cbn [fetchedAt]. apply Z.ltb_lt. exact Hnow.
  - intros now u' Hlate. unfold cached_fetch.
    apply cache_data_stale. unfold fresh. cbn [fetchedAt].
    apply Z.ltb_ge. exact Hlate.
Qed.

Lemma cache_window_witness :
  cached_calls Seismic
    (Some (mkEntry [PDict [("place", PStr "Ridgecrest"); ("magnitude", PInt 5);
                           ("latitude", PInt 35); ("longitude", PInt (-117))]] 1000))
    [(1001, unavailable); (1300, Fails ConnectionError); (1599, feed "features" [])]
  = (map (fun _ => Ok [PDict [("place", PStr "Ridgecrest"); ("magnitude", PInt 5);
                              ("latitude", PInt 35); ("longitude", PInt (-117))]])
         [(1001, unavailable); (1300, Fails ConnectionError); (1599, feed "features" [])],
     Some (mkEntry [PDict [("place", PStr "Ridgecrest"); ("magnitude", PInt 5);
                           ("latitude", PInt 35); ("longitude", PInt (-117))]] 1000)).
Proof.
  apply (proj1 (cache_window Seismic None 1000
                  (feed "features" [quake "Ridgecrest" (PInt 5) (-117) 35])
                  _ _ eq_refl eq_refl)).
  repeat constructor.
Defined.

(** ** The shape of the tsunami body *)

Lemma tsunami_record_dict event record :
  tsunami_record event = Ok record -> is_dict event.
Proof. destruct event; simpl; try discriminate. intros _. exact I. Qed.

(** X3.  [fetch_tsunami_data] returns records only for a body that is a
    JSON array of objects, one record per entry.  A body that is a
    non-empty JSON object, as a paginated answer with its items under a key
    would be, makes the loop visit the keys and the function raise
    [AttributeError], which its [except] clause does not catch. *)
Theorem tsunami_body_shape :
  (forall u l, fetch Tsunami u = Ok l -> l <> [] ->
     exists r evs,
       u = Answers r /\ content r = JsonBody (PList evs) /\
       Forall is_dict evs /\
       Forall2 (fun event record => tsunami_record event = Ok record) evs l) /\
  (forall r k v kv,
     status_code r = 200 -> content r = JsonBody (PDict ((k, v) :: kv)) ->
     fetch Tsunami (Answers r) = Raise AttributeError).
Proof.
  split.
  - intros u l H Hne. simpl fetch in H. unfold fetch_tsunami_data in H.
    destruct (tsunami_try u) as [tsunamis | e] eqn:Htry.
    + injection H as ->. unfold tsunami_try in Htry.
      invert_bind Htry as response Hget.
      invert_bind Htry as x Hstatus.
      invert_bind Htry as data Hjson.
      invert_bind Htry as evs Hiter.
      destruct u as [e | r]; [discriminate Hget |].
      injection Hget as <-. unfold json in Hjson.
      destruct (content r) as [data' |] eqn:Hbody; [| discriminate Hjson].
      injection Hjson as ->.
      assert (Hall : Forall2 (fun event record => tsunami_record event = Ok record)
                             evs l) by now apply mapM_Forall2.
      destruct data as [| | | | s | items | d]; try discriminate Hiter;
        simpl in Hiter; injection Hiter as <-.
      * destruct s as [| c s]; simpl in Htry.
        -- injection Htry as <-. now contradiction Hne.
        -- discriminate Htry.
      * exists r, items. repeat split; try assumption.
        clear - Hall. induction Hall as [| ev rec evs l Hev _ IH];
          constructor; [exact (tsunami_record_dict _ _ Hev) | assumption].
      * destruct d as [| [k v] d]; simpl in Htry.
        -- injection Htry as <-. now contradiction Hne.
        -- discriminate Htry.
    + destruct (is_RequestException e); [| discriminate H].
      injection H as <-. now contradiction Hne.
  - intros r k v kv Hstatus Hbody.
    unfold fetch, fetch_tsunami_data, tsunami_try, raise_for_status, json.
    simpl. rewrite Hstatus, Hbody. reflexivity.
Qed.

Lemma tsunami_body_shape_witness :
  fetch Tsunami
    (Answers (mkResponse 200
       (JsonBody (PDict [("items", PList [PDict [("year", PInt 1960)]]);
                         ("page", PInt 1)]))))
  = Raise AttributeError.
Proof.
  apply (proj2 tsunami_body_shape _ "items" (PList [PDict [("year", PInt 1960)]])
           [("page", PInt 1)]); reflexivity.
Defined.

(** ** Markers of the tsunami map *)

Lemma tsunami_record_of_spec kv :
  tsunami_record (PDict kv) = Ok (tsunami_record_of kv).
Proof. reflexivity. Qed.

Lemma mapM_tsunami_record kvs :
  mapM tsunami_record (map PDict kvs) = Ok (map tsunami_record_of kvs).
Proof.
  induction kvs as [| kv kvs IH]; cbn [map mapM]; [reflexivity |].
  rewrite tsunami_record_of_spec, IH. reflexivity.
Qed.

Lemma fetch_tsunami_entries u kvs :
  serves_array u (map PDict kvs) ->
  fetch Tsunami u = Ok (map tsunami_record_of kvs).
Proof.
  intros Hserves. simpl fetch.
  exact (fetch_tsunami_serves u _ _ Hserves (mapM_tsunami_record kvs)).
Qed.

Lemma tsunami_located_record kv :
  tsunami_located (tsunami_record_of kv) = Ok (has_location kv).
Proof.
  unfold tsunami_located, tsunami_record_of, has_location. simpl.
  destruct (is_not_None (field "latitude" PNone kv)); reflexivity.
Qed.

Lemma filterM_located kvs :
  filterM tsunami_located (map tsunami_record_of kvs)
  = Ok (map tsunami_record_of (filter has_location kvs)).
Proof.
  induction kvs as [| kv kvs IH]; cbn [map filterM filter]; [reflexivity |].
  rewrite tsunami_located_record, IH. cbn [bind].
  now destruct (has_location kv).
Qed.

Lemma combine_map {A B C : Type} (f : A -> B) (g : A -> C) l :
  combine (map f l) (map g l) = map (fun x => (f x, g x)) l.
Proof. induction l; simpl; congruence. Qed.

Lemma zip_markers_Forall2 {K : Type} (loc : K -> pyval * pyval)
    (pop : K -> list pyval) (P : K -> string -> Prop) located colors :
  Forall2 P located colors ->
  Forall2 (fun kv m => marker_location m = loc kv /\ P kv (marker_color m))
          located (zip_markers (map loc located) (map pop located) colors).
Proof.
  induction 1 as [| kv c located colors Hc _ IH]; [constructor |].
  unfold zip_markers in *. cbn [map combine].
  constructor; [split; [reflexivity | exact Hc] | exact IH].
Qed.

Section TsunamiMarkers.

Variable float_of_str : string -> option spec_float.

Lemma tsunamis_markers_entries kvs :
  tsunamis_markers float_of_str (map tsunami_record_of kvs)
  = match filter has_location kvs with
    | [] => Ok []
    | _ :: _ =>
        colors <- mapM (tsunami_entry_color float_of_str) (filter has_location kvs) ;;
        Ok (zip_markers
              (map (fun kv => (field "latitude" PNone kv, field "longitude" PNone kv))
                   (filter has_location kvs))
              (map (fun kv => [field "locationName" (PStr "Unknown Location") kv;
                               field "earthquakeMagnitude" (PStr "N/A") kv;
                               field "depth" (PStr "N/A") kv;
                               field "year" (PStr "Unknown Year") kv;
                               field "cause" (PStr "No Advisory Available") kv])
                   (filter has_location kvs))
              colors)
    end.
Proof.
  unfold tsunamis_markers.
  destruct kvs as [| kv0 kvs0]; [reflexivity |].
  set (kvs := kv0 :: kvs0). cbn [map] . fold (map tsunami_record_of kvs0).
  change (tsunami_record_of kv0 :: map tsunami_record_of kvs0)
    with (map tsunami_record_of kvs).
  rewrite filterM_located. cbn [bind].
  destruct (filter has_location kvs) as [| kv located]; [reflexivity |].
  set (l := kv :: located). cbn [map].
  change (tsunami_record_of kv :: map tsunami_record_of located)
    with (map tsunami_record_of l).
  rewrite !mapM_map.
  rewrite (mapM_total _
             (fun kv => (field "latitude" PNone kv, field "longitude" PNone kv)))
    by (apply Forall_forall; intros; reflexivity).
  cbn [bind].
  rewrite (mapM_total _
             (fun kv => [field "locationName" (PStr "Unknown Location") kv;
                         field "earthquakeMagnitude" (PStr "N/A") kv;
                         field "depth" (PStr "N/A") kv;
                         field "year" (PStr "Unknown Year") kv;
                         field "cause" (PStr "No Advisory Available") kv]))
    by (apply Forall_forall; intros; reflexivity).
  cbn [bind]. reflexivity.
Qed.

(** X4.  For a feed that is an array of objects, the tsunami map gets
    exactly one marker for each entry whose latitude and longitude are both
    present and not null, in the order of the feed, at that latitude and
    longitude and with the colour of the entry's magnitude; an entry
    without a location gets no marker, whatever its magnitude is.  This
    holds as long as the colour rule returns for every located entry. *)
Theorem tsunami_markers_located u kvs :
  serves_array u (map PDict kvs) ->
  Forall (fun kv => has_location kv = true ->
                    exists color, tsunami_entry_color float_of_str kv = Ok color) kvs ->
  exists records markers,
    fetch Tsunami u = Ok records /\
    tsunamis_markers float_of_str records = Ok markers /\
    Forall2 (fun kv m =>
               marker_location m
                 = (field "latitude" PNone kv, field "longitude" PNone kv) /\
               tsunami_entry_color float_of_str kv = Ok (marker_color m))
            (filter has_location kvs) markers.
Proof.
  intros Hserves Hcolors.
  exists (map tsunami_record_of kvs).
  rewrite (fetch_tsunami_entries u kvs Hserves), tsunamis_markers_entries.
  assert (Hlocated : Forall (fun kv => exists color, tsunami_entry_color float_of_str kv = Ok color)
                            (filter has_location kvs)).
  { apply Forall_forall. intros kv Hin. apply filter_In in Hin.
    destruct Hin as [Hin Hloc].
    exact (proj1 (Forall_forall _ _) Hcolors kv Hin Hloc). }
  destruct (mapM_defined (tsunami_entry_color float_of_str) _ Hlocated) as [colors Hmap].
  destruct (filter has_location kvs) as [| kv located] eqn:Hfilter.
  - exists []. repeat split. constructor.
  - rewrite Hmap. cbn [bind]. eexists. split; [reflexivity |].
    split; [reflexivity |].
    apply zip_markers_Forall2 with (P := fun kv c => tsunami_entry_color float_of_str kv = Ok c).
    now apply mapM_Forall2.
Qed.

(** X5.  If some located entry of the feed has a magnitude on which the
    colour rule raises (a null, or a text [float] rejects), and the rule
    returns for the located entries before it, then the fetch succeeds but
    the page raises that exception and places no marker at all. *)
Theorem tsunami_markers_abort u kvs before kv after e :
  serves_array u (map PDict kvs) ->
  kvs = (before ++ kv :: after)%list ->
  Forall (fun kv' => has_location kv' = true ->
                     exists color, tsunami_entry_color float_of_str kv' = Ok color) before ->
  has_location kv = true ->
  tsunami_entry_color float_of_str kv = Raise e ->
  exists records,
    fetch Tsunami u = Ok records /\
    tsunamis_markers float_of_str records = Raise e.
Proof.
  intros Hserves -> Hbefore Hloc Hraise.
  exists (map tsunami_record_of (before ++ kv :: after)).
  rewrite (fetch_tsunami_entries u _ Hserves), tsunamis_markers_entries.
  split; [reflexivity |].
  rewrite filter_app. cbn [filter]. rewrite Hloc.
  assert (Hmap : mapM (tsunami_entry_color float_of_str)
                   (filter has_location before ++ kv :: filter has_location after)%list
                 = Raise e).
  { apply mapM_raise; [| exact Hraise].
    apply Forall_forall. intros kv' Hin. apply filter_In in Hin.
    destruct Hin as [Hin Hloc'].
    destruct (proj1 (Forall_forall _ _) Hbefore kv' Hin Hloc') as [color ->].
    reflexivity. }
  destruct (filter has_location before ++ kv :: filter has_location after)%list
    as [| x l] eqn:Hl.
  - destruct (filter has_location before); discriminate Hl.
  - now rewrite Hmap.
Qed.

End TsunamiMarkers.

Lemma tsunami_markers_located_witness :
  exists records markers,
    fetch Tsunami (array_feed (map PDict [entry_located; entry_unlocated_null]))
      = Ok records /\
    tsunamis_markers (fun _ => None) records = Ok markers /\
    List.length markers = 1%nat.
Proof.
  destruct (tsunami_markers_located (fun _ => None)
              (array_feed (map PDict [entry_located; entry_unlocated_null]))
              [entry_located; entry_unlocated_null]
              (serves_array_feed _))
    as (records & markers & Hfetch & Hpage & Hall).
  - constructor; [| constructor; [| constructor]].
    + intros _. eexists. reflexivity.
    + intros H. discriminate H.
  - exists records, markers. split; [exact Hfetch |]. split; [exact Hpage |].
    apply Forall2_length in Hall. rewrite <- Hall. reflexivity.
Defined.

Lemma tsunami_markers_abort_witness :
  exists records,
    fetch Tsunami (array_feed (map PDict [entry_located; entry_located_null]))
      = Ok records /\
    tsunamis_markers (fun _ => None) records = Raise TypeError.
Proof.
  apply (tsunami_markers_abort (fun _ => None) _
           [entry_located; entry_located_null]
           [entry_located] entry_located_null []).
  - apply serves_array_feed.
  - reflexivity.
  - constructor; [| constructor]. intros _. eexists. reflexivity.
  - reflexivity.
  - reflexivity.
Defined.

(** ** The wildfire selector *)

Lemma dict_find_set t t' v d :
  string_keys d ->
  dict_find (PStr t) (dict_set (PStr t') v d)
  = if String.eqb t' t then Some v else dict_find (PStr t) d.
Proof.
  induction 1 as [| [k v'] d [s Hs] _ IH]; simpl in *.
  - reflexivity.
  - subst k. simpl.
    destruct (String.eqb_spec s t') as [-> | Hst']; simpl.
    + destruct (String.eqb_spec t' t); reflexivity.
    + destruct (String.eqb_spec s t) as [-> | Hst].
      * destruct (String.eqb_spec t' t) as [-> | _]; [congruence | reflexivity].
      * exact IH.
Qed.

Lemma dict_set_string_keys t v d :
  string_keys d -> string_keys (dict_set (PStr t) v d).
Proof.
  induction 1 as [| [k v'] d [s Hs] Hd IH]; simpl in *.
  - constructor; [now exists t | constructor].
  - subst k. simpl. destruct (String.eqb s t).
    + constructor; [now exists s | assumption].
    + constructor; [now exists s | assumption].
Qed.

Lemma dict_set_keys t v d :
  string_keys d ->
  map fst (dict_set (PStr t) v d)
  = if existsb (fun k => key_eqb k (PStr t)) (map fst d)
    then map fst d else (map fst d ++ [PStr t])%list.
Proof.
  induction 1 as [| [k v'] d [s Hs] _ IH]; simpl in *.
  - reflexivity.
  - subst k. simpl. destruct (String.eqb s t); simpl; [reflexivity |].
    rewrite IH. now destruct (existsb _ (map fst d)).
Qed.

Lemma titled_dict_string_keys data d :
  string_keys d -> string_keys (titled_dict data d).
Proof.
  revert d. induction data as [| r data IH]; intros d Hd; simpl; [assumption |].
  apply IH. now apply dict_set_string_keys.
Qed.

Lemma find_app {A : Type} (p : A -> bool) l l' :
  find p (l ++ l') = match find p l with Some x => Some x | None => find p l' end.
Proof.
  induction l as [| x l IH]; simpl; [reflexivity |].
  now destruct (p x).
Qed.

(** Looking a title up gives the last record that carries it. *)
Lemma titled_dict_find t data d :
  string_keys d ->
  dict_find (PStr t) (titled_dict data d)
  = match find (has_title t) (rev data) with
    | Some r => Some r
    | None => dict_find (PStr t) d
    end.
Proof.
  revert d. induction data as [| r data IH]; intros d Hd; simpl.
  - reflexivity.
  - rewrite IH by now apply dict_set_string_keys.
    rewrite find_app.
    destruct (find (has_title t) (rev data)) as [r' |]; [reflexivity |].
    rewrite dict_find_set by assumption. simpl. unfold has_title.
    now destruct (String.eqb (record_title r) t).
Qed.

Lemma find_rev_last {A : Type} (p : A -> bool) l r :
  find p (rev l) = Some r ->
  exists before after,
    l = (before ++ r :: after)%list /\ p r = true /\
    Forall (fun x => p x = false) after.
Proof.
  induction l as [| x l IH]; simpl; [discriminate |].
  rewrite find_app.
  destruct (find p (rev l)) as [r' |] eqn:Hfind.
  - intros H; injection H as ->.
    destruct (IH eq_refl) as (before & after & -> & Hr & Hafter).
    exists (x :: before), after. repeat split; assumption.
  - simpl. destruct (p x) eqn:Hx; [| discriminate].
    intros H; injection H as <-.
    exists [], l. repeat split; [assumption |].
    apply Forall_forall. intros y Hy.
    apply (find_none _ _ Hfind). now apply in_rev in Hy.
Qed.

Lemma wildfire_dict_titled data d :
  Forall is_fire_record data ->
  foldM (fun d fire => title <- getitem fire "title" ;; dict_setitem title fire d)
        data d
  = Ok (titled_dict data d).
Proof.
  intros Hdata. revert d.
  induction Hdata as [| r data (t & lat & lon & src & ->) _ IH]; intros d;
    [reflexivity |].
  cbn [foldM titled_dict fold_left]. apply IH.
Qed.

Lemma in_string_keys t keys :
  Forall (fun k => exists s, k = PStr s) keys ->
  existsb (fun k => key_eqb k (PStr t)) keys = true <-> In (PStr t) keys.
Proof.
  intros Hkeys. rewrite existsb_exists. split.
  - intros (k & Hin & Heq).
    destruct (proj1 (Forall_forall _ _) Hkeys k Hin) as [s ->].
    simpl in Heq. apply String.eqb_eq in Heq. now subst.
  - intros Hin. exists (PStr t). split; [assumption |].
    simpl. apply String.eqb_refl.
Qed.

Lemma string_keys_map d :
  string_keys d -> Forall (fun k => exists s, k = PStr s) (map fst d).
Proof.
  induction 1 as [| kv d Hkv _ IH]; simpl; constructor; assumption.
Qed.

Lemma dict_set_keys_cases t v d :
  string_keys d ->
  (In (PStr t) (map fst d) /\ map fst (dict_set (PStr t) v d) = map fst d) \/
  (~ In (PStr t) (map fst d) /\
   map fst (dict_set (PStr t) v d) = (map fst d ++ [PStr t])%list).
Proof.
  intros Hd. rewrite (dict_set_keys t v d Hd).
  pose proof (in_string_keys t (map fst d) (string_keys_map d Hd)) as Hin.
  destruct (existsb (fun k => key_eqb k (PStr t)) (map fst d)).
  - left. split; [now apply Hin | reflexivity].
  - right. split; [| reflexivity]. intros H. apply Hin in H. discriminate H.
Qed.

(** The keys of the dict are the titles of the records, each once, in the
    order of their first record. *)
Lemma titled_dict_keys data d :
  string_keys d -> NoDup (map fst d) ->
  NoDup (map fst (titled_dict data d)) /\
  (forall k, In k (map fst (titled_dict data d)) <->
             In k (map fst d) \/ exists r, In r data /\ k = PStr (record_title r)).
Proof.
  revert d. induction data as [| r data IH]; intros d Hd Hnodup; simpl.
  - split; [assumption |]. intros k. split; [tauto |].
    intros [H | (r & [] & _)]. exact H.
  - destruct (IH (dict_set (PStr (record_title r)) r d)) as [Hnd Hkeys].
    + now apply dict_set_string_keys.
    + destruct (dict_set_keys_cases (record_title r) r d Hd) as [[_ ->] | [Hnot ->]];
        [assumption |].
      apply NoDup_app; [assumption | repeat constructor; intros [] | ].
      intros x Hx [<- | []]. contradiction.
    + split; [assumption |]. intros k. rewrite Hkeys.
      destruct (dict_set_keys_cases (record_title r) r d Hd) as [[Hin ->] | [_ ->]].
      * split.
        -- intros [H | (r' & Hr' & ->)]; [now left |].
           right. exists r'. split; [now right | reflexivity].
        -- intros [H | (r' & [<- | Hr'] & ->)]; [now left | now left |].
           right. now exists r'.
      * rewrite in_app_iff. simpl. split.
        -- intros [[H | [<- | []]] | (r' & Hr' & ->)]; [now left | |].
           ++ right. exists r. split; [now left | reflexivity].
           ++ right. exists r'. split; [now right | reflexivity].
        -- intros [H | (r' & [<- | Hr'] & ->)]; [now left; left | |].
           ++ left. right. now left.
           ++ right. now exists r'.
Qed.

Lemma selectbox_in options choice o :
  selectbox options choice = Some o -> In o options.
Proof.
  unfold selectbox. destruct (nth_error options choice) as [x |] eqn:Hnth.
  - intros H; injection H as <-. exact (nth_error_In _ _ Hnth).
  - destruct options; simpl; [discriminate |].
    intros H; injection H as <-. now left.
Qed.

Lemma selectbox_some options choice :
  options <> [] -> exists o, selectbox options choice = Some o.
Proof.
  unfold selectbox. destruct (nth_error options choice) as [x |].
  - intros _. now exists x.
  - destruct options as [| o options]; [congruence |]. intros _. now exists o.
Qed.

Lemma record_title_fire t lat lon src :
  record_title (fire_record t lat lon src) = t.
Proof. reflexivity. Qed.

Lemma filter_implied {A : Type} (p q : A -> bool) l :
  (forall x, p x = true -> q x = true) -> filter p (filter q l) = filter p l.
Proof.
  intros Hpq. induction l as [| x l IH]; cbn [filter]; [reflexivity |].
  destruct (q x) eqn:Hq; cbn [filter].
  - now rewrite IH.
  - destruct (p x) eqn:Hp; [| exact IH]. apply Hpq in Hp. congruence.
Qed.

Lemma filter_both {A : Type} (p q r : A -> bool) l :
  (forall x, r x = p x && q x) -> filter r l = filter p (filter q l).
Proof.
  intros Hr. induction l as [| x l IH]; cbn [filter]; [reflexivity |].
  rewrite Hr. destruct (q x); cbn [filter andb].
  - destruct (p x); now rewrite IH.
  - rewrite andb_false_r. exact IH.
Qed.

(** The keys of the dict, in order: those it had, then the new titles in
    the order of their first record. *)
Lemma titled_dict_keys_order data d :
  string_keys d ->
  map fst (titled_dict data d)
  = (map fst d
     ++ map PStr
          (filter (fun s => negb (existsb (fun k => key_eqb k (PStr s)) (map fst d)))
                  (first_appearances (map record_title data))))%list.
Proof.
  revert d. induction data as [| r data IH]; intros d Hd;
    cbn [titled_dict fold_left map first_appearances filter].
  - now rewrite app_nil_r.
  - change (fold_left (fun d fire => dict_set (PStr (record_title fire)) fire d)
                      data (dict_set (PStr (record_title r)) r d))
      with (titled_dict data (dict_set (PStr (record_title r)) r d)).
    rewrite IH by now apply dict_set_string_keys.
    rewrite (dict_set_keys (record_title r) r d Hd).
    destruct (existsb (fun k => key_eqb k (PStr (record_title r))) (map fst d))
      eqn:Hin; cbn [negb].
    + f_equal. f_equal. symmetry. apply filter_implied.
      intros s Hs. apply negb_true_iff. apply String.eqb_neq. intros ->.
      rewrite Hin in Hs. discriminate Hs.
    + rewrite <- app_assoc. cbn [List.app map]. do 3 f_equal.
      apply filter_both. intros s.
      rewrite existsb_app. cbn [existsb key_eqb]. rewrite orb_false_r, negb_orb.
      now rewrite (String.eqb_sym (record_title r) s).
Qed.

(** X6.  On a non-empty list of wildfire records whose titles are texts,
    the select box offers every title once, in the order of first
    appearance, and the marker is made from the last record that carries
    the chosen title: of several records with one title, as the points of
    one event are, only the last can be shown. *)
Theorem wildfire_selected_last data choice :
  data <> [] -> Forall is_fire_record data ->
  exists options t lat lon src before after,
    wildfires_page data choice
      = Ok (Some (options, mkFireMarker (lat, lon) (PStr t) src)) /\
    options = map PStr (first_appearances (map record_title data)) /\
    NoDup options /\
    (forall k, In k options <-> exists r, In r data /\ k = PStr (record_title r)) /\
    selectbox options choice = Some (PStr t) /\
    data = (before ++ fire_record t lat lon src :: after)%list /\
    Forall (fun r => record_title r <> t) after.
Proof.
  intros Hne Hdata.
  destruct (titled_dict_keys data []) as [Hnodup Hkeys];
    [constructor | constructor |].
  assert (Hstr : string_keys (titled_dict data []))
    by (apply titled_dict_string_keys; constructor).
  unfold wildfires_page, wildfire_dict.
  destruct data as [| r0 data0]; [congruence |].
  set (data := r0 :: data0) in *.
  rewrite (wildfire_dict_titled data [] Hdata). cbn [bind].
  destruct (selectbox_some (map fst (titled_dict data [])) choice) as [o Hsel].
  { intros Hnil. assert (Hin : In (PStr (record_title r0)) (map fst (titled_dict data [])))
      by (apply Hkeys; right; exists r0; split; [now left | reflexivity]).
    rewrite Hnil in Hin. exact Hin. }
  rewrite Hsel.
  pose proof (selectbox_in _ _ _ Hsel) as Hin.
  apply Hkeys in Hin. destruct Hin as [[] | (r & Hr & ->)].
  unfold dict_getitem. cbn [hashable].
  rewrite (titled_dict_find (record_title r) data []) by constructor.
  destruct (find (has_title (record_title r)) (rev data)) as [r' |] eqn:Hfind.
  - destruct (find_rev_last _ _ _ Hfind) as (before & after & Hsplit & Htitle & Hafter).
    assert (Hr' : is_fire_record r').
    { apply (proj1 (Forall_forall _ _) Hdata). rewrite Hsplit.
      apply in_or_app. right. now left. }
    destruct Hr' as (t & lat & lon & src & ->).
    unfold has_title in Htitle. rewrite record_title_fire in Htitle.
    apply String.eqb_eq in Htitle. rewrite <- Htitle in *.
    exists (map fst (titled_dict data [])), t, lat, lon, src, before, after.
    split; [reflexivity |].
    split.
    { rewrite (titled_dict_keys_order data []) by constructor.
      cbn [map List.app existsb negb]. f_equal.
      clear. induction (first_appearances (map record_title data)) as [| s l IH];
        cbn [filter]; [reflexivity | now rewrite IH]. }
    split; [assumption |].
    split; [| split; [assumption | split; [assumption |]]].
    + intros k. rewrite Hkeys. split; [intros [[] | H]; exact H | now right].
    + apply Forall_forall. intros x Hx Heq.
      pose proof (proj1 (Forall_forall _ _) Hafter x Hx) as Hfalse.
      unfold has_title in Hfalse. rewrite Heq, String.eqb_refl in Hfalse.
      discriminate Hfalse.
  - exfalso. assert (Hin : In r (rev data)) by now apply -> in_rev.
    pose proof (find_none _ _ Hfind r Hin) as Hfalse.
    unfold has_title in Hfalse. rewrite String.eqb_refl in Hfalse.
    discriminate Hfalse.
Qed.

Lemma wildfire_selected_last_witness :
  wildfires_page
    [fire_record "Park Fire" (PInt 40) (PInt (-121)) (PStr "https://irwin.doi.gov/");
     fire_record "Dixie Fire" (PInt 39) (PInt (-120)) (PStr "https://irwin.doi.gov/");
     fire_record "Park Fire" (PInt 41) (PInt (-122)) (PStr "https://irwin.doi.gov/")]
    0
  = Ok (Some ([PStr "Park Fire"; PStr "Dixie Fire"],
              mkFireMarker (PInt 41, PInt (-122)) (PStr "Park Fire")
                           (PStr "https://irwin.doi.gov/"))).
Proof.
  destruct (wildfire_selected_last
              [fire_record "Park Fire" (PInt 40) (PInt (-121)) (PStr "https://irwin.doi.gov/");
               fire_record "Dixie Fire" (PInt 39) (PInt (-120)) (PStr "https://irwin.doi.gov/");
               fire_record "Park Fire" (PInt 41) (PInt (-122)) (PStr "https://irwin.doi.gov/")]
              0)
    as (options & t & lat & lon & src & before & after & Hpage & Hoptions & _).
  - discriminate.
  - repeat constructor; unfold is_fire_record; do 4 eexists; reflexivity.
  - rewrite Hpage, Hoptions. vm_compute in Hpage.
    injection Hpage as _ <- <- <- <-. reflexivity.
Defined.

(** ** The wildfire selector on a fetched list *)

Lemma point_record_fire t url g :
  two_coordinates g = true -> is_fire_record (point_record (PStr t) url g) /\
  record_title (point_record (PStr t) url g) = t.
Proof.
  unfold two_coordinates, point_record.
  destruct g as [| | | | | | kv]; try discriminate.
  destruct (lookup "coordinates" kv) as [[| | | | | [| lon [| lat [| x cs]]] |] |];
    try discriminate.
  intros _. split; [| reflexivity]. now exists t, lat, lon, url.
Qed.

Lemma wildfire_event_titled event t :
  wildfire_well_formed event -> event_title event = PStr t ->
  exists group,
    wildfire_event event = Ok group /\
    Forall (fun r => is_fire_record r /\ record_title r = t) group.
Proof.
  intros Hwf Ht.
  destruct (wildfire_title_url event Hwf) as (title & url & Htitle & Hurl).
  unfold event_title in Ht. rewrite Htitle in Ht. subst title.
  eexists. split; [exact (wildfire_event_spec event _ url Hwf Htitle Hurl) |].
  apply Forall_forall. intros r Hin.
  apply in_map_iff in Hin. destruct Hin as (g & <- & Hg).
  apply filter_In in Hg. destruct Hg as [_ Htwo].
  now apply point_record_fire.
Qed.

Lemma wildfire_events_titled evs :
  Forall wildfire_well_formed evs ->
  Forall (fun event => exists t, event_title event = PStr t) evs ->
  exists per_event,
    mapM wildfire_event evs = Ok per_event /\
    Forall (fun r => is_fire_record r /\
                     In (PStr (record_title r)) (map event_title evs))
           (List.concat per_event).
Proof.
  intros Hwf. induction Hwf as [| ev evs Hev _ IH]; intros Htitles.
  - exists []. split; [reflexivity | constructor].
  - inversion Htitles as [| ? ? [t Ht] Hrest]; subst.
    destruct (wildfire_event_titled ev t Hev Ht) as (group & Hrun & Hgroup).
    destruct (IH Hrest) as (per_event & Hmap & Hall).
    exists (group :: per_event). cbn [mapM]. rewrite Hrun, Hmap. cbn [bind].
    split; [reflexivity |]. cbn [List.concat map].
    apply Forall_app. split.
    + apply Forall_forall. intros r Hr.
      destruct (proj1 (Forall_forall _ _) Hgroup r Hr) as [Hfire Htitle].
      split; [assumption |]. left. now rewrite Htitle, Ht.
    + apply Forall_forall. intros r Hr.
      destruct (proj1 (Forall_forall _ _) Hall r Hr) as [Hfire Hin].
      split; [assumption | now right].
Qed.

Lemma wildfires_page_options data choice options marker :
  Forall is_fire_record data ->
  wildfires_page data choice = Ok (Some (options, marker)) ->
  options = map fst (titled_dict data []).
Proof.
  intros Hdata. unfold wildfires_page, wildfire_dict.
  destruct data as [| r0 data0]; [discriminate |].
  rewrite (wildfire_dict_titled _ [] Hdata). cbn [bind].
  destruct (selectbox _ choice); [| discriminate].
  intros H.
  invert_bind H as selected_event Hsel.
  invert_bind H as center_lat Hlat.
  invert_bind H as center_lon Hlon.
  invert_bind H as source_url Hsrc.
  invert_bind H as title Htitle.
  now injection H as <- _.
Qed.

(** X7.  For a feed of well-formed wildfire events whose titles are texts,
    the select box of the wildfire page offers distinct titles of events
    among the first ten, so at most ten entries, however many records the
    fan-out made; and the page shows a marker exactly when the fetched list
    is not empty. *)
Theorem wildfire_options_bound u evs :
  serves u "events" evs ->
  Forall wildfire_well_formed evs ->
  Forall (fun event => exists t, event_title event = PStr t) evs ->
  exists records,
    fetch Wildfire u = Ok records /\
    forall choice,
      (records = [] /\ wildfires_page records choice = Ok None) \/
      (exists options marker,
         wildfires_page records choice = Ok (Some (options, marker)) /\
         NoDup options /\
         incl options (map event_title (firstn 10 evs)) /\
         (List.length options <= 10)%nat /\
         (List.length options <= List.length records)%nat).
Proof.
  intros Hserves Hwf Htitles.
  destruct (wildfire_events_titled (firstn 10 evs)
              (Forall_firstn _ 10 _ Hwf) (Forall_firstn _ 10 _ Htitles))
    as (per_event & Hmap & Hall).
  exists (List.concat per_event). simpl fetch.
  rewrite (fetch_wildfire_serves u evs Hserves), Hmap. cbn [bind].
  split; [reflexivity |]. intros choice.
  set (records := List.concat per_event) in *.
  assert (Hfire : Forall is_fire_record records).
  { apply Forall_forall. intros r Hr.
    exact (proj1 (proj1 (Forall_forall _ _) Hall r Hr)). }
  destruct records as [| r0 records0] eqn:Hrecords; [left; now split |].
  right. rewrite <- Hrecords in *.
  assert (Hne : records <> []) by (rewrite Hrecords; discriminate).
  destruct (titled_dict_keys records []) as [Hnodup Hkeys];
    [constructor | constructor |].
  assert (Hpage : exists options marker,
             wildfires_page records choice = Ok (Some (options, marker))).
  { unfold wildfires_page, wildfire_dict. rewrite Hrecords, <- Hrecords.
    rewrite (wildfire_dict_titled records [] Hfire). cbn [bind].
    destruct (selectbox_some (map fst (titled_dict records [])) choice) as [o Hsel].
    { intros Hnil.
      assert (Hin : In (PStr (record_title r0)) (map fst (titled_dict records [])))
        by (apply Hkeys; right; exists r0; split;
            [rewrite Hrecords; now left | reflexivity]).
      rewrite Hnil in Hin. exact Hin. }
    rewrite Hsel. pose proof (selectbox_in _ _ _ Hsel) as Hin.
    apply Hkeys in Hin. destruct Hin as [[] | (r & Hr & ->)].
    unfold dict_getitem. cbn [hashable].
    rewrite (titled_dict_find (record_title r) records []) by constructor.
    destruct (find (has_title (record_title r)) (rev records)) as [r' |] eqn:Hfind.
    - destruct (find_rev_last _ _ _ Hfind) as (before & after & Hsplit & _ & _).
      assert (Hr' : is_fire_record r').
      { apply (proj1 (Forall_forall _ _) Hfire). rewrite Hsplit.
        apply in_or_app. right. now left. }
      destruct Hr' as (t & lat & lon & src & ->). cbn [bind].
      do 2 eexists. reflexivity.
    - exfalso. assert (Hin : In r (rev records)) by now apply -> in_rev.
      pose proof (find_none _ _ Hfind r Hin) as Hfalse.
      unfold has_title in Hfalse. rewrite String.eqb_refl in Hfalse.
      discriminate Hfalse. }
  destruct Hpage as (options & marker & Hpage).
  exists options, marker. split; [exact Hpage |].
  rewrite (wildfires_page_options _ _ _ _ Hfire Hpage).
  assert (Hincl : incl (map fst (titled_dict records []))
                       (map event_title (firstn 10 evs))).
  { intros k Hk. apply Hkeys in Hk. destruct Hk as [[] | (r & Hr & ->)].
    exact (proj2 (proj1 (Forall_forall _ _) Hall r Hr)). }
  assert (Hincl' : incl (map fst (titled_dict records []))
                        (map (fun r => PStr (record_title r)) records)).
  { intros k Hk. apply Hkeys in Hk. destruct Hk as [[] | (r & Hr & ->)].
    apply in_map_iff. now exists r. }
  split; [assumption |]. split; [assumption |]. split.
  - apply Nat.le_trans with (List.length (map event_title (firstn 10 evs))).
    + now apply NoDup_incl_length.
    + rewrite length_map. apply firstn_length_le.
  - rewrite <- (length_map (fun r => PStr (record_title r)) records).
    now apply NoDup_incl_length.
Qed.

Lemma wildfire_options_bound_witness :
  exists records,
    fetch Wildfire
      (feed "events" [fire (repeat (point (-121) 40) 11)]) = Ok records /\
    List.length records = 11%nat /\
    exists options marker,
      wildfires_page records 0 = Ok (Some (options, marker)) /\
      (List.length options <= 10)%nat.
Proof.
  destruct (wildfire_options_bound
              (feed "events" [fire (repeat (point (-121) 40) 11)])
              [fire (repeat (point (-121) 40) 11)]
              (serves_feed _ _))
    as (records & Hfetch & Hpage).
  - simpl. repeat constructor.
  - repeat constructor. exists "Park Fire". reflexivity.
  - exists records. split; [exact Hfetch |].
    assert (Hrecords : List.length records = 11%nat)
      by (injection Hfetch as <-; reflexivity).
    split; [exact Hrecords |].
    destruct (Hpage 0%nat) as [[Hnil _] | (options & marker & Hrun & _ & _ & Hlen & _)].
    + rewrite Hnil in Hrecords. discriminate Hrecords.
    + exists options, marker. split; assumption.
Defined.

(** ** Accounts *)

Lemma lookup_app {V : Type} k (l l' : list (string * V)) :
  lookup k (l ++ l')
  = match lookup k l with Some v => Some v | None => lookup k l' end.
Proof.
  induction l as [| [k' v] l IH]; simpl; [reflexivity |].
  now destruct (String.eqb k k').
Qed.

Lemma lookup_None_not_In {V : Type} k (l : list (string * V)) :
  lookup k l = None <-> ~ In k (map fst l).
Proof.
  induction l as [| [k' v] l IH]; simpl.
  - tauto.
  - destruct (String.eqb_spec k k') as [-> | Hne].
    + split; [discriminate | intros H; exfalso; apply H; now left].
    + rewrite IH. split; [intros H [Heq | Hin]; [congruence | tauto] | tauto].
Qed.

Lemma insert_user_spec username password email db db' :
  insert_user username password email db = Some db' ->
  lookup username db = None /\
  db' = (db ++ [(username, (password, email))])%list.
Proof.
  unfold insert_user. destruct (lookup username db); [discriminate |].
  intros H; injection H as <-. now split.
Qed.

Lemma insert_user_NoDup username password email db db' :
  NoDup (usernames db) ->
  insert_user username password email db = Some db' ->
  NoDup (usernames db').
Proof.
  intros Hnodup H. apply insert_user_spec in H. destruct H as [Hfree ->].
  unfold usernames. rewrite map_app. simpl.
  apply NoDup_app; [assumption | repeat constructor; intros [] |].
  intros u Hu [<- | []]. now apply lookup_None_not_In in Hfree.
Qed.

Lemma lookup_update_rows new_username new_email current db u :
  lookup u (update_rows new_username new_email current db)
  = if String.eqb u new_username
    then match lookup current db with
         | Some (pw, _) =>
             match lookup new_username db with
             | Some row =>
                 if String.eqb new_username current then Some (pw, new_email)
                 else lookup u (update_rows new_username new_email current db)
             | None => Some (pw, new_email)
             end
         | None => lookup new_username db
         end
    else if String.eqb u current then None else lookup u db.
Proof.
  destruct (String.eqb_spec u new_username) as [-> | Hnew].
  - induction db as [| [k [pw em]] db IH]; simpl; [reflexivity |].
    destruct (String.eqb_spec current k) as [<- | Hck].
    + rewrite String.eqb_refl. simpl. rewrite String.eqb_refl.
      destruct (String.eqb_spec new_username current) as [-> | Hnc].
      * reflexivity.
      * destruct (lookup new_username db); reflexivity.
    + destruct (String.eqb_spec k current) as [-> | _]; [congruence |].
      simpl. destruct (String.eqb_spec new_username k) as [-> | Hnk].
      * destruct (lookup current db) as [[pw' em'] |]; [| reflexivity].
        destruct (String.eqb_spec k current); [congruence | reflexivity].
      * rewrite IH. destruct (lookup current db) as [[pw' em'] |]; [| reflexivity].
        destruct (lookup new_username db); [| reflexivity].
        destruct (String.eqb new_username current); [reflexivity |].
        simpl. destruct (String.eqb_spec new_username k); [congruence |].
        reflexivity.
  - induction db as [| [k [pw em]] db IH]; simpl.
    + now destruct (String.eqb u current).
    + destruct (String.eqb_spec k current) as [-> | Hkc]; simpl.
      * apply String.eqb_neq in Hnew. rewrite Hnew.
        destruct (String.eqb_spec u current) as [-> | Huc]; exact IH.
      * destruct (String.eqb_spec u k) as [-> | Huk].
        -- destruct (String.eqb_spec k current); [congruence | reflexivity].
        -- exact IH.
Qed.

Lemma update_rows_usernames new_username new_email current db :
  usernames (update_rows new_username new_email current db)
  = map (fun u => if String.eqb u current then new_username else u) (usernames db).
Proof.
  unfold usernames.
  induction db as [| [k [pw em]] db IH]; simpl; [reflexivity |].
  destruct (String.eqb k current); simpl; now rewrite IH.
Qed.

Lemma rename_NoDup new_username current (l : list string) :
  NoDup l ->
  (new_username = current \/ ~ In new_username l) ->
  NoDup (map (fun u => if String.eqb u current then new_username else u) l).
Proof.
  intros Hnodup [-> | Hfree].
  - rewrite (map_ext_in _ (fun u => u)); [now rewrite map_id |].
    intros u _. now destruct (String.eqb_spec u current).
  - induction Hnodup as [| k l Hk Hnodup IH]; simpl; [constructor |].
    constructor.
    + intros Hin. apply in_map_iff in Hin. destruct Hin as [u [Hu Hin]].
      destruct (String.eqb_spec k current) as [Hkc | Hkc];
        destruct (String.eqb_spec u current) as [Huc | Huc].
      * apply Hk. congruence.
      * apply Hfree. right. congruence.
      * apply Hfree. left. congruence.
      * apply Hk. congruence.
    + apply IH. intros Hin. apply Hfree. now right.
Qed.

Lemma update_user_NoDup new_username new_email current db db' :
  NoDup (usernames db) ->
  update_user new_username new_email current db = Some db' ->
  NoDup (usernames db').
Proof.
  intros Hnodup. unfold update_user.
  destruct (lookup current db); [| intros H; now injection H as <-].
  destruct (String.eqb_spec new_username current) as [-> | Hne]; simpl.
  - intros H; injection H as <-. rewrite update_rows_usernames.
    apply rename_NoDup; [assumption | now left].
  - destruct (lookup new_username db) eqn:Hnew; [discriminate |].
    intros H; injection H as <-. rewrite update_rows_usernames.
    apply rename_NoDup; [assumption | right].
    now apply lookup_None_not_In.
Qed.

Lemma update_rows_Forall (P : string -> Prop) new_username new_email current db :
  Forall (fun row => P (fst (snd row))) db ->
  Forall (fun row => P (fst (snd row)))
         (update_rows new_username new_email current db).
Proof.
  induction 1 as [| [k [pw em]] db Hrow _ IH]; simpl; [constructor |].
  destruct (String.eqb k current); constructor; assumption.
Qed.

Section AccountProperties.

Variable hashpw : string -> string -> result string.
Variable checkpw : string -> string -> result bool.

Lemma create_user_cases username password email salt db r db' :
  create_user hashpw username password email salt db = (r, db') ->
  (r = Ok true /\ fst (is_password_strong password) = true /\
   lookup username db = None /\
   exists hashed_pw, hashpw password salt = Ok hashed_pw /\
     db' = (db ++ [(username, (hashed_pw, email))])%list)
  \/ (r <> Ok true /\ db' = db).
Proof.
  unfold create_user.
  destruct (fst (is_password_strong password)); simpl.
  - destruct (hashpw password salt) as [hashed_pw | e] eqn:Hhash.
    + destruct (insert_user username hashed_pw email db) as [db1 |] eqn:Hins.
      * intros H; injection H as <- <-. left.
        apply insert_user_spec in Hins. destruct Hins as [Hfree ->].
        repeat split; try assumption. now exists hashed_pw.
      * intros H; injection H as <- <-. right. split; [discriminate | reflexivity].
    + intros H; injection H as <- <-. right. split; [discriminate | reflexivity].
  - intros H; injection H as <- <-. right. split; [discriminate | reflexivity].
Qed.

Lemma signup_cases signup_email new_user new_pass confirm_pass salt db r db' :
  signup hashpw signup_email new_user new_pass confirm_pass salt db = (r, db') ->
  (r = Ok AccountCreated /\
   new_user <> "" /\ new_pass <> "" /\ signup_email <> "" /\
   confirm_pass = new_pass /\
   fst (is_password_strong new_pass) = true /\
   lookup new_user db = None /\
   exists hashed_pw, hashpw new_pass salt = Ok hashed_pw /\
     db' = (db ++ [(new_user, (hashed_pw, signup_email))])%list)
  \/ (r <> Ok AccountCreated /\ db' = db).
Proof.
  unfold signup.
  assert (Hnonempty : forall s, is_empty s = false -> s <> "")
    by (intros [| c s] Hs; [discriminate Hs | discriminate]).
  destruct (is_empty new_user) eqn:Huser; cbn [orb];
    [intros H; injection H as <- <-; right; split; [discriminate | reflexivity] |].
  destruct (is_empty new_pass) eqn:Hpass; cbn [orb];
    [intros H; injection H as <- <-; right; split; [discriminate | reflexivity] |].
  destruct (is_empty signup_email) eqn:Hmail; cbn [orb];
    [intros H; injection H as <- <-; right; split; [discriminate | reflexivity] |].
  destruct (String.eqb_spec new_pass confirm_pass) as [<- | Hne]; cbn [negb];
    [| intros H; injection H as <- <-; right; split; [discriminate | reflexivity]].
  destruct (fst (is_password_strong new_pass)) eqn:Hstrong; cbn [negb];
    [| intros H; injection H as <- <-; right; split; [discriminate | reflexivity]].
  destruct (create_user hashpw new_user new_pass signup_email salt db)
    as [r1 db1] eqn:Hcreate.
  apply create_user_cases in Hcreate.
  destruct Hcreate as [[-> [_ [Hfree [h [Hhash ->]]]]] | [Hr ->]].
  - intros H; injection H as <- <-. left.
    repeat split; auto. now exists h.
  - destruct r1 as [[|] | e]; [congruence | |];
      intros H; injection H as <- <-; right; split; try discriminate; reflexivity.
Qed.

Lemma apply_action_invariant db a :
  NoDup (usernames db) /\ Forall (fun row => strong_hash hashpw (fst (snd row))) db ->
  NoDup (usernames (apply_action hashpw db a)) /\
  Forall (fun row => strong_hash hashpw (fst (snd row))) (apply_action hashpw db a).
Proof.
  intros [Hnodup Hstrong]. destruct a as [em u p c s | cur new em]; simpl.
  - destruct (signup hashpw em u p c s db) as [r db'] eqn:Hs. simpl.
    apply signup_cases in Hs.
    destruct Hs as [[_ [_ [_ [_ [_ [Hp [Hfree [h [Hhash ->]]]]]]]]] | [_ ->]];
      [| now split].
    split.
    + apply (insert_user_NoDup u h em db); [assumption |].
      unfold insert_user. now rewrite Hfree.
    + apply Forall_app. split; [assumption |].
      constructor; [| constructor]. simpl. now exists p, s.
  - unfold profile_save.
    destruct (lookup cur db) eqn:Hcur; [| now split].
    destruct (update_user new em cur db) as [db' |] eqn:Hup; [| now split].
    split.
    + exact (update_user_NoDup _ _ _ _ _ Hnodup Hup).
    + unfold update_user in Hup. rewrite Hcur in Hup.
      destruct (negb (String.eqb new cur) &&
                match lookup new db with Some _ => true | None => false end);
        [discriminate |].
      injection Hup as <-. now apply update_rows_Forall.
Qed.

(** X8. [create_user] never touches an account that exists: whatever it
    returns, every row of the table is still there with the same password
    and email, and the table as a whole is unchanged unless the call
    returned [True]. *)
Theorem create_user_keeps_accounts username password email salt db r db' :
  create_user hashpw username password email salt db = (r, db') ->
  (forall u row, lookup u db = Some row -> lookup u db' = Some row) /\
  (r <> Ok true -> db' = db).
Proof.
  intros H. apply create_user_cases in H.
  destruct H as [[-> [_ [_ [h [_ ->]]]]] | [Hr ->]].
  - split; [| congruence].
    intros u row Hrow. now rewrite lookup_app, Hrow.
  - split; [intros u row Hrow; exact Hrow | reflexivity].
Qed.

(** X9. Whatever users do with the sign-up form and the profile page,
    starting from the empty table, the usernames of the table stay distinct
    and every stored password is the [bcrypt] hash of a password that
    [is_password_strong] accepts. *)
Theorem accounts_invariant (actions : list account_action) :
  NoDup (usernames (table_after hashpw actions)) /\
  Forall (fun row => strong_hash hashpw (fst (snd row))) (table_after hashpw actions).
Proof.
  unfold table_after.
  assert (Hgen : forall db,
    NoDup (usernames db) /\ Forall (fun row => strong_hash hashpw (fst (snd row))) db ->
    NoDup (usernames (fold_left (apply_action hashpw) actions db)) /\
    Forall (fun row => strong_hash hashpw (fst (snd row)))
           (fold_left (apply_action hashpw) actions db)).
  { induction actions as [| a actions IH]; intros db Hdb; simpl; [exact Hdb |].
    apply IH. now apply apply_action_invariant. }
  apply Hgen. split; constructor.
Qed.

(** X10. [Save Changes] renames the account of the session and keeps its
    password: after a successful save the session carries the new name, the
    new name logs in with exactly the passwords the old name logged in
    with, the old name (when different) is no longer an account, and every
    other account is as it was.  A new name that belongs to another
    account is refused and nothing changes. *)
Theorem profile_save_rename session_username new_username new_email db :
  (forall db' name,
     profile_save session_username new_username new_email db = Some (db', name) ->
     name = new_username /\
     (forall password,
        authenticate_user checkpw new_username password db'
        = authenticate_user checkpw session_username password db) /\
     (new_username <> session_username -> lookup session_username db' = None) /\
     (forall u, u <> new_username -> u <> session_username ->
        lookup u db' = lookup u db)) /\
  (new_username <> session_username ->
   lookup new_username db <> None ->
   profile_save session_username new_username new_email db = None).
Proof.
  unfold profile_save, update_user. split.
  - intros db' name.
    destruct (lookup session_username db) as [[pw em0] |] eqn:Hcur; [| discriminate].
    destruct (String.eqb_spec new_username session_username) as [Heq | Hne]; simpl.
    + intros H; injection H as <- <-. subst new_username.
      split; [reflexivity |]. split; [| split].
      * intros password. unfold authenticate_user.
        rewrite lookup_update_rows, String.eqb_refl, Hcur. reflexivity.
      * congruence.
      * intros u Hu _. rewrite lookup_update_rows.
        apply String.eqb_neq in Hu. now rewrite Hu.
    + destruct (lookup new_username db) eqn:Hnew; [discriminate |].
      intros H; injection H as <- <-.
      split; [reflexivity |]. split; [| split].
      * intros password. unfold authenticate_user.
        rewrite lookup_update_rows, String.eqb_refl, Hcur, Hnew. reflexivity.
      * intros _. rewrite lookup_update_rows.
        destruct (String.eqb_spec session_username new_username); [congruence |].
        now rewrite String.eqb_refl.
      * intros u Hu1 Hu2. rewrite lookup_update_rows.
        apply String.eqb_neq in Hu1, Hu2. now rewrite Hu1, Hu2.
  - intros Hne Hnew.
    destruct (lookup session_username db); [| reflexivity].
    destruct (String.eqb_spec new_username session_username); [congruence |].
    destruct (lookup new_username db); [reflexivity | congruence].
Qed.

(** The contract of [bcrypt]: a password checks against its own hash. *)
Hypothesis checkpw_hashpw :
  forall password salt hashed,
    hashpw password salt = Ok hashed -> checkpw password hashed = Ok true.

(** X11. An account the sign-up form reports as created can log in: with
    the username and the password just entered [authenticate_user] returns
    [True].  Every other outcome of the form leaves the table as it was. *)
Theorem signup_then_login signup_email new_user new_pass confirm_pass salt db r db' :
  signup hashpw signup_email new_user new_pass confirm_pass salt db = (r, db') ->
  (r = Ok AccountCreated ->
   authenticate_user checkpw new_user new_pass db' = Ok true) /\
  (r <> Ok AccountCreated -> db' = db).
Proof.
  intros H. apply signup_cases in H.
  destruct H as [[-> [_ [_ [_ [_ [_ [Hfree [h [Hhash ->]]]]]]]]] | [Hr ->]].
  - split; [| congruence]. intros _.
    unfold authenticate_user. rewrite lookup_app, Hfree. simpl.
    rewrite String.eqb_refl. exact (checkpw_hashpw _ _ _ Hhash).
  - split; [congruence | tauto].
Qed.

End AccountProperties.

Lemma create_user_keeps_accounts_witness :
  create_user plain_hashpw "alice" "Qwerty7?" "eve@example.org" "salt" two_accounts
  = (Ok false, two_accounts) /\
  (forall u row,
     lookup u two_accounts = Some row -> lookup u two_accounts = Some row) /\
  (Ok false <> Ok true -> two_accounts = two_accounts).
Proof.
  split; [reflexivity |].
  apply (create_user_keeps_accounts plain_hashpw
           "alice" "Qwerty7?" "eve@example.org" "salt" two_accounts).
  reflexivity.
Defined.

Lemma profile_save_rename_witness :
  profile_save "alice" "carol" "carol@example.org" two_accounts
  = Some ([("carol", ("Abcdef1!", "carol@example.org"));
           ("bob", ("Zyxwvu9#", "bob@example.org"))], "carol") /\
  authenticate_user plain_checkpw "carol" "Abcdef1!"
    [("carol", ("Abcdef1!", "carol@example.org"));
     ("bob", ("Zyxwvu9#", "bob@example.org"))]
  = authenticate_user plain_checkpw "alice" "Abcdef1!" two_accounts /\
  profile_save "alice" "bob" "carol@example.org" two_accounts = None.
Proof.
  split; [reflexivity |]. split.
  - apply (proj1 (profile_save_rename plain_checkpw
                    "alice" "carol" "carol@example.org" two_accounts)
                 _ "carol").
    reflexivity.
  - apply (proj2 (profile_save_rename plain_checkpw
                    "alice" "bob" "carol@example.org" two_accounts));
      discriminate.
Defined.

Lemma signup_then_login_witness :
  signup plain_hashpw "carol@example.org" "carol" "Qwerty7?" "Qwerty7?" "salt"
         two_accounts
  = (Ok AccountCreated,
     (two_accounts ++ [("carol", ("Qwerty7?", "carol@example.org"))])%list) /\
  authenticate_user plain_checkpw "carol" "Qwerty7?"
    (two_accounts ++ [("carol", ("Qwerty7?", "carol@example.org"))])%list
  = Ok true.
Proof.
  split; [reflexivity |].
  refine (proj1 (signup_then_login plain_hashpw plain_checkpw _
                   "carol@example.org" "carol" "Qwerty7?" "Qwerty7?" "salt"
                   two_accounts _ _ _) _); [| reflexivity | reflexivity].
  intros password salt hashed H. injection H as <-.
  unfold plain_checkpw. now rewrite String.eqb_refl.
Defined.

(** ** Sessions and pages *)

Lemma dispatch_logout s db :
  dispatch s db = LogoutPage -> String.eqb (page s) "logout" = true.
Proof.
  unfold dispatch.
  repeat match goal with
         | |- context [if String.eqb ?a ?b then _ else _] =>
             destruct (String.eqb a b); try discriminate
         end.
  reflexivity.
Qed.

Lemma dispatch_not_auth s db : dispatch s db <> AuthPage.
Proof.
  unfold dispatch.
  repeat match goal with
         | |- context [if String.eqb ?a ?b then _ else _] =>
             destruct (String.eqb a b); try discriminate
         end.
Qed.

Lemma run_script_authenticated s db :
  authenticated s = true ->
  String.eqb (page s) "logout" = false ->
  run_script s db = (dispatch s db, s).
Proof.
  intros Hauth Hpage. unfold run_script. rewrite Hauth. cbn [negb].
  destruct (dispatch s db) eqn:Hd; try reflexivity.
  apply dispatch_logout in Hd. congruence.
Qed.

Lemma run_script_gate s db :
  authenticated s = false -> run_script s db = (AuthPage, s).
Proof. intros Hauth. unfold run_script. now rewrite Hauth. Qed.

Lemma update_user_lookup new_username new_email current db db' row :
  lookup current db = Some row ->
  update_user new_username new_email current db = Some db' ->
  lookup new_username db' <> None /\
  (new_username <> current -> lookup current db' = None).
Proof.
  intros Hcur. unfold update_user. rewrite Hcur.
  destruct row as [pw em0].
  destruct (String.eqb_spec new_username current) as [Heq | Hne]; cbn [negb andb].
  - intros H; injection H as <-. split; [| congruence].
    rewrite lookup_update_rows, String.eqb_refl, Hcur.
    apply String.eqb_eq in Heq. rewrite Heq.
    destruct (lookup new_username db); discriminate.
  - destruct (lookup new_username db) eqn:Hnew; [discriminate |].
    intros H; injection H as <-. split.
    + rewrite lookup_update_rows, String.eqb_refl, Hcur, Hnew. discriminate.
    + intros _. rewrite lookup_update_rows.
      destruct (String.eqb_spec current new_username); [congruence |].
      now rewrite String.eqb_refl.
Qed.

Section NavigationProperties.

Variable hashpw : string -> string -> result string.
Variable checkpw : string -> string -> result bool.

Lemma authenticate_user_account u p db :
  authenticate_user checkpw u p db = Ok true -> lookup u db <> None.
Proof.
  unfold authenticate_user. destruct (lookup u db); [discriminate |].
  intros H. discriminate H.
Qed.

Lemma consistent_goto p s db v :
  authenticated s = true ->
  String.eqb p "logout" = false ->
  (exists u, username s = Name u /\ lookup u db <> None) ->
  v = fst (run_script (goto p s) db) ->
  consistent (mkApp (snd (run_script (goto p s) db)) db v).
Proof.
  intros Hauth Hp Hu ->.
  rewrite (run_script_authenticated (goto p s) db Hauth Hp).
  right. cbn [state table shown fst snd]. auto.
Qed.

Lemma press_consistent e a a' :
  consistent a -> press hashpw checkpw e a = Some a' -> consistent a'.
Proof.
  intros [[Hauth Hshown] | [Hauth [Hpage [Hu Hshown]]]]; unfold press.
  - rewrite Hshown, (run_script_gate _ _ Hauth).
    destruct e; cbn [has_button negb]; try discriminate.
    + cbn [handler].
      destruct (authenticate_user checkpw login_username login_password (table a))
        as [[|] | err] eqn:Hlogin;
        intros H; injection H as <-;
        [| left; now split | left; now split].
      right. cbn. repeat split.
      exists login_username. split; [reflexivity |].
      exact (authenticate_user_account _ _ _ Hlogin).
    + cbn [handler]. intros H; injection H as <-. left. now split.
  - rewrite Hshown, (run_script_authenticated _ _ Hauth Hpage).
    destruct Hu as [u [Hname Hrow]].
    destruct (has_button (dispatch (state a) (table a)) e) eqn:Hbutton;
      cbn [negb]; [| discriminate].
    assert (Hkeep : forall p,
              String.eqb p "logout" = false ->
              consistent
                (mkApp (snd (run_script (goto p (state a)) (table a))) (table a)
                       (fst (run_script (goto p (state a)) (table a))))).
    { intros p Hp. apply consistent_goto; eauto. }
    assert (Hsame : consistent (mkApp (state a) (table a) (dispatch (state a) (table a)))).
    { right. cbn [state table shown]. eauto 6. }
    destruct e; cbn [handler];
      try (intros H; injection H as <-; first [exact Hsame | now apply Hkeep]).
    + (* Login: not a button of a page behind the gate *)
      destruct (dispatch (state a) (table a)) as [| | | | | | | | | | | [|] | |] eqn:Hd;
        first [discriminate Hbutton | exfalso; exact (dispatch_not_auth _ _ Hd)].
    + destruct (dispatch (state a) (table a)) as [| | | | | | | | | | | [|] | |] eqn:Hd;
        first [discriminate Hbutton | exfalso; exact (dispatch_not_auth _ _ Hd)].
    + destruct (dispatch (state a) (table a)) as [| | | | | | | | | | | [|] | |];
        try discriminate Hbutton;
        intros H; injection H as <-; now apply Hkeep.
    + destruct (dispatch (state a) (table a)) as [| | | | | | | | | | | [|] | |];
        try discriminate Hbutton;
        intros H; injection H as <-; now apply Hkeep.
    + (* ReloadNews *)
      rewrite (run_script_authenticated _ _ Hauth Hpage).
      intros H; injection H as <-. exact Hsame.
    + (* SaveChanges *)
      rewrite Hname.
      destruct (update_user new_username new_email u (table a)) as [db' |] eqn:Hup;
        [| intros H; injection H as <-; exact Hsame].
      destruct (lookup u (table a)) as [row |] eqn:Hlook; [| congruence].
      destruct (update_user_lookup _ _ _ _ _ _ Hlook Hup) as [Hnew _].
      rewrite run_script_authenticated by assumption.
      intros H; injection H as <-. right. cbn [state table shown fst snd].
      repeat split; try assumption. now exists new_username.
    + (* Logout *)
      intros H; injection H as <-. left. now split.
Qed.

Lemma step_consistent a e :
  consistent a -> consistent (step hashpw checkpw a e).
Proof.
  intros Ha. unfold step.
  destruct (press hashpw checkpw e a) as [a' |] eqn:Hpress; [| exact Ha].
  exact (press_consistent _ _ _ Ha Hpress).
Qed.

Lemma after_consistent events db :
  consistent (after hashpw checkpw events db).
Proof.
  unfold after.
  assert (Hgen : forall a, consistent a ->
                           consistent (fold_left (step hashpw checkpw) events a)).
  { induction events as [| e events IH]; intros a Ha; [exact Ha |].
    apply IH. now apply step_consistent. }
  apply Hgen. left. now split.
Qed.

(** X12. The page of [logout_page] is never on the screen: whatever
    buttons are pressed in a session, starting from a fresh one, no run of
    the script reaches [logout_page], because [Logout] also ends the
    session and the gate at the top shows the login page instead. *)
Theorem logout_page_never_shown (events : list event) (db : users_table) :
  shown (after hashpw checkpw events db) <> LogoutPage.
Proof.
  destruct (after_consistent events db) as [[_ Hshown] | [_ [Hpage [_ Hshown]]]];
    rewrite Hshown; [discriminate |].
  intros Hd. apply dispatch_logout in Hd. congruence.
Qed.

(** X13. In a session, whatever buttons are pressed: as long as nobody is
    logged in the screen shows the login page, and a logged-in session
    carries the username of an account of the table, so the profile page
    finds its user. *)
Theorem session_names_account (events : list event) (db : users_table) :
  (authenticated (state (after hashpw checkpw events db)) = false ->
   shown (after hashpw checkpw events db) = AuthPage) /\
  (authenticated (state (after hashpw checkpw events db)) = true ->
   (exists u row,
      username (state (after hashpw checkpw events db)) = Name u /\
      lookup u (table (after hashpw checkpw events db)) = Some row) /\
   shown (after hashpw checkpw events db) <> ProfilePage false /\
   shown (after hashpw checkpw events db) <> AuthPage).
Proof.
  pose proof (after_consistent events db) as Ha.
  set (a := after hashpw checkpw events db) in *.
  destruct Ha as [[Hauth Hshown] | [Hauth [Hpage [[u [Hname Hrow]] Hshown]]]].
  - split; [intros _; exact Hshown | congruence].
  - split; [congruence |]. intros _.
    destruct (lookup u (table a)) as [row |] eqn:Hlook; [| congruence].
    split; [now exists u, row |].
    rewrite Hshown. unfold dispatch, user_data. rewrite Hname, Hlook.
    split;
      repeat match goal with
             | |- context [if String.eqb ?x ?y then _ else _] =>
                 destruct (String.eqb x y); try discriminate
             end.
Qed.

(** X14. The only button that logs a session in is [Login], with a
    username and a password that [authenticate_user] accepts on the table
    as it is; the session then carries that username and shows the home
    page. *)
Theorem login_needs_credentials e a a' :
  press hashpw checkpw e a = Some a' ->
  authenticated (state a) = false ->
  authenticated (state a') = true ->
  exists u p,
    e = Login u p /\
    authenticate_user checkpw u p (table a) = Ok true /\
    state a' = mkSession "home" true (Name u) /\
    table a' = table a /\
    shown a' = HomePage.
Proof.
  intros Hpress Hauth Hauth'. unfold press in Hpress.
  destruct (has_button (shown a) e); cbn [negb] in Hpress; [| discriminate].
  rewrite (run_script_gate _ _ Hauth) in Hpress.
  destruct e; cbn [has_button handler] in Hpress;
    try (injection Hpress as <-; cbn [state] in Hauth'; congruence).
  destruct (authenticate_user checkpw login_username login_password (table a))
    as [[|] | err] eqn:Hlogin;
    try (injection Hpress as <-; cbn [state] in Hauth'; congruence).
  injection Hpress as <-. exists login_username, login_password.
  repeat split. exact Hlogin.
Qed.

(** X15. A rename strands the other sessions of the account: once
    [Save Changes] in one session has given the account a new name, a run
    of the script for another session logged in under the old name, on the
    profile page, shows the page without its user and so without any
    button, [Logout] included. *)
Theorem stale_session_stranded u new_username new_email db db' name s :
  profile_save u new_username new_email db = Some (db', name) ->
  new_username <> u ->
  authenticated s = true ->
  username s = Name u ->
  page s = "profile" ->
  run_script s db' = (ProfilePage false, s) /\
  forall e, press hashpw checkpw e (mkApp s db' (ProfilePage false)) = None.
Proof.
  intros Hsave Hne Hauth Hname Hpage.
  split; [| intros e; unfold press; cbn [shown]; now destruct e].
  unfold profile_save in Hsave.
  destruct (lookup u db) as [row |] eqn:Hlook; [| discriminate].
  destruct (update_user new_username new_email u db) as [db1 |] eqn:Hup;
    [| discriminate].
  injection Hsave as <- _.
  destruct (update_user_lookup _ _ _ _ _ _ Hlook Hup) as [_ Hold].
  rewrite run_script_authenticated; [| assumption | now rewrite Hpage].
  unfold dispatch, user_data. rewrite Hpage, Hname, (Hold Hne). reflexivity.
Qed.

End NavigationProperties.

Lemma session_names_account_witness :
  authenticated
    (state (after plain_hashpw plain_checkpw
              [Login "alice" "Abcdef1!"; UserProfile] two_accounts)) = true /\
  (exists u row,
     username (state (after plain_hashpw plain_checkpw
                        [Login "alice" "Abcdef1!"; UserProfile] two_accounts))
     = Name u /\
     lookup u (table (after plain_hashpw plain_checkpw
                        [Login "alice" "Abcdef1!"; UserProfile] two_accounts))
     = Some row) /\
  shown (after plain_hashpw plain_checkpw
           [Login "alice" "Abcdef1!"; UserProfile] two_accounts)
  = ProfilePage true.
Proof.
  split; [reflexivity |]. split; [| reflexivity].
  apply (proj2 (session_names_account plain_hashpw plain_checkpw
                  [Login "alice" "Abcdef1!"; UserProfile] two_accounts)).
  reflexivity.
Defined.

Lemma login_needs_credentials_witness :
  press plain_hashpw plain_checkpw (Login "bob" "Zyxwvu9#") (start two_accounts)
  = Some (mkApp (mkSession "home" true (Name "bob")) two_accounts HomePage) /\
  exists u p,
    Login "bob" "Zyxwvu9#" = Login u p /\
    authenticate_user plain_checkpw u p (table (start two_accounts)) = Ok true /\
    state (mkApp (mkSession "home" true (Name "bob")) two_accounts HomePage)
    = mkSession "home" true (Name u) /\
    table (mkApp (mkSession "home" true (Name "bob")) two_accounts HomePage)
    = table (start two_accounts) /\
    shown (mkApp (mkSession "home" true (Name "bob")) two_accounts HomePage)
    = HomePage.
Proof.
  split; [reflexivity |].
  apply (login_needs_credentials plain_hashpw plain_checkpw
           (Login "bob" "Zyxwvu9#") (start two_accounts)); reflexivity.
Defined.

Lemma stale_session_stranded_witness :
  profile_save "alice" "carol" "carol@example.org" two_accounts
  = Some ([("carol", ("Abcdef1!", "carol@example.org"));
           ("bob", ("Zyxwvu9#", "bob@example.org"))], "carol") /\
  run_script (mkSession "profile" true (Name "alice"))
    [("carol", ("Abcdef1!", "carol@example.org"));
     ("bob", ("Zyxwvu9#", "bob@example.org"))]
  = (ProfilePage false, mkSession "profile" true (Name "alice")) /\
  forall e,
    press plain_hashpw plain_checkpw e
      (mkApp (mkSession "profile" true (Name "alice"))
         [("carol", ("Abcdef1!", "carol@example.org"));
          ("bob", ("Zyxwvu9#", "bob@example.org"))]
         (ProfilePage false))
    = None.
Proof.
  split; [reflexivity |].
  apply (stale_session_stranded plain_hashpw plain_checkpw
           "alice" "carol" "carol@example.org" two_accounts _ "carol");
    [reflexivity | discriminate | reflexivity | reflexivity | reflexivity].
Defined.

(** ** The news page *)

Lemma foldM_raise {A S : Type} (f : S -> A -> result S) (x : A) :
  (forall a, exists e, f a x = Raise e) ->
  forall l a, In x l -> exists e, foldM f l a = Raise e.
Proof.
  intros Hx l. induction l as [| y l IH]; intros a Hin; [destruct Hin |].
  cbn [foldM]. destruct (f a y) as [a' | e] eqn:Hy; [| now exists e].
  cbn [bind]. destruct Hin as [-> | Hin]; [| now apply IH].
  destruct (Hx a) as [e He]. congruence.
Qed.

Lemma news_request_served net keyword more :
  In keyword disaster_keywords ->
  news_request (net keyword) = Ok more ->
  Forall (served net) more.
Proof.
  intros Hk. unfold news_request.
  destruct (net keyword) as [e | response] eqn:Hnet; [discriminate |].
  cbn [requests_get bind].
  destruct (status_code response =? 200) eqn:Hstatus;
    [| intros H; injection H as <-; constructor].
  apply Z.eqb_eq in Hstatus. unfold json.
  destruct (content response) as [data |] eqn:Hbody; [| discriminate].
  cbn [bind]. destruct data as [| | | | | | kv]; try discriminate.
  cbn [get bind]. intros Hiter. apply Forall_forall. intros a Ha.
  now exists keyword, response, kv, more.
Qed.

Lemma fetch_articles_served net all_articles :
  fetch_articles net = Ok all_articles -> Forall (served net) all_articles.
Proof.
  unfold fetch_articles.
  assert (Hgen : forall keywords acc,
            incl keywords disaster_keywords ->
            Forall (served net) acc ->
            foldM (fun all_articles keyword =>
                     more <- news_request (net keyword) ;;
                     Ok (all_articles ++ more)%list) keywords acc
            = Ok all_articles ->
            Forall (served net) all_articles).
  { induction keywords as [| k keywords IH]; intros acc Hincl Hacc; cbn [foldM].
    - intros H; now injection H as <-.
    - destruct (news_request (net k)) as [more | e] eqn:Hk; [| discriminate].
      cbn [bind]. apply IH.
      + intros x Hx. apply Hincl. now right.
      + apply Forall_app. split; [assumption |].
        apply (news_request_served net k); [apply Hincl; now left | assumption]. }
  apply Hgen; [apply incl_refl | constructor].
Qed.

(** *** Duplicates *)

Lemma SFcompare_refl s m e :
  SFcompare (S754_finite s m e) (S754_finite s m e) = Some Eq.
Proof.
  cbn [SFcompare]. destruct s; rewrite Z.compare_refl;
    now rewrite ?Pos.compare_cont_refl, ?Pos.compare_refl.
Qed.

Lemma key_eqb_refl u : hashable u = true -> key_eqb u u = true.
Proof.
  destruct u as [| b | z | f | s | l | d]; cbn [hashable]; try discriminate;
    intros _; cbn [key_eqb as_int].
  - reflexivity.
  - apply Z.eqb_refl.
  - apply Z.eqb_refl.
  - destruct f as [[|] | [|] | | s m e]; try reflexivity.
    cbn [key_eqb]. now rewrite SFcompare_refl.
  - apply String.eqb_refl.
Qed.

Lemma distinct_urls_snoc l a :
  distinct_urls l ->
  is_dict a ->
  truthy (url_of a) = true ->
  hashable (url_of a) = true ->
  Forall (fun b => key_eqb (url_of a) (url_of b) = false) l ->
  distinct_urls (l ++ [a]).
Proof.
  intros Hl Hdict Htruthy Hhash. induction Hl as [| b l Hb1 Hb2 Hb3 Hb4 Hl IH];
    intros Hnew; cbn [List.app].
  - constructor; try assumption; constructor.
  - apply Forall_cons_iff in Hnew. destruct Hnew as [Hab Hnew].
    constructor; try assumption.
    + apply Forall_app. split; [assumption |]. now constructor.
    + now apply IH.
Qed.

Lemma distinct_urls_NoDup l : distinct_urls l -> NoDup (map url_of l).
Proof.
  induction 1 as [| a l Hdict Htruthy Hhash Hlater Hl IH]; cbn [map]; constructor;
    [| assumption].
  intros Hin. apply in_map_iff in Hin. destruct Hin as [b [Hb Hin]].
  rewrite Forall_forall in Hlater. specialize (Hlater b Hin).
  rewrite Hb, key_eqb_refl in Hlater by assumption. discriminate.
Qed.

Lemma existsb_false_Forall {A : Type} (p : A -> bool) l :
  existsb p l = false -> Forall (fun x => p x = false) l.
Proof.
  induction l as [| x l IH]; cbn [existsb]; [constructor |].
  intros H. apply orb_false_iff in H. destruct H as [Hx Hl].
  constructor; auto.
Qed.

Lemma unique_step_state done st a st' :
  unique_state done st ->
  unique_step st a = Ok st' ->
  unique_state (done ++ [a]) st'.
Proof.
  intros [Hdistinct [Hincl [Hdicts [Hseen Hkept]]]]. unfold unique_step.
  destruct a as [| | | | | | kv]; try discriminate.
  cbn [get bind].
  set (a := PDict kv).
  set (url := match lookup "url" kv with Some v => v | None => PNone end).
  assert (Hurl : url_of a = url) by reflexivity.
  assert (Hdicts' : Forall is_dict (done ++ [a])).
  { apply Forall_app. split; [assumption |]. repeat constructor. }
  assert (Hold : forall x, In x (done ++ [a]) -> truthy (url_of x) = true ->
                   (exists b, In b (snd st) /\
                              (b = x \/ key_eqb (url_of x) (url_of b) = true))
                   \/ x = a).
  { intros x Hx Htruthy. apply in_app_or in Hx. destruct Hx as [Hx | [<- | []]];
      [left; now apply Hkept | now right]. }
  destruct (truthy url) eqn:Htruthy.
  - destruct (hashable url) eqn:Hhash; [| discriminate].
    destruct (existsb (key_eqb url) (fst st)) eqn:Hex.
    + intros H; injection H as <-.
      refine (conj Hdistinct (conj _ (conj Hdicts' (conj Hseen _)))).
      * intros x Hx. apply in_or_app. left. now apply Hincl.
      * intros x Hx Hx'. destruct (Hold x Hx Hx') as [Hb | ->]; [exact Hb |].
        apply existsb_exists in Hex. destruct Hex as [s [Hs Heq]].
        apply Hseen in Hs. apply in_map_iff in Hs. destruct Hs as [b [Hb Hin]].
        exists b. split; [assumption |]. right. now rewrite Hurl, Hb.
    + intros H; injection H as <-. unfold unique_state. cbn [fst snd].
      refine (conj _ (conj _ (conj Hdicts' (conj _ _)))).
      * apply distinct_urls_snoc; try assumption; try exact I;
          try (now rewrite Hurl).
        apply existsb_false_Forall in Hex. rewrite Forall_forall in Hex.
        apply Forall_forall. intros b Hb. rewrite Hurl. apply Hex, Hseen.
        now apply in_map.
      * intros x Hx. apply in_app_or in Hx. apply in_or_app.
        destruct Hx as [Hx | Hx]; [left; now apply Hincl | now right].
      * intros u. rewrite map_app, in_app_iff. cbn [map In]. rewrite Hurl.
        rewrite (Hseen u). tauto.
      * intros x Hx Hx'. destruct (Hold x Hx Hx') as [[b [Hb Hsame]] | ->].
        -- exists b. split; [apply in_or_app; now left | assumption].
        -- exists a. split; [apply in_or_app; right; now left | now left].
  - intros H; injection H as <-.
    refine (conj Hdistinct (conj _ (conj Hdicts' (conj Hseen _)))).
    + intros x Hx. apply in_or_app. left. now apply Hincl.
    + intros x Hx Hx'. destruct (Hold x Hx Hx') as [Hb | ->]; [exact Hb |].
      rewrite Hurl in Hx'. congruence.
Qed.

Lemma unique_articles_state all_articles unique :
  unique_articles all_articles = Ok unique ->
  exists seen, unique_state all_articles (seen, unique).
Proof.
  unfold unique_articles.
  assert (Hgen : forall l done st st',
            unique_state done st ->
            foldM unique_step l st = Ok st' ->
            unique_state (done ++ l) st').
  { induction l as [| a l IH]; intros done st st' Hst; cbn [foldM].
    - intros H; injection H as <-. now rewrite app_nil_r.
    - destruct (unique_step st a) as [st1 |] eqn:Hstep; [| discriminate].
      cbn [bind]. intros Hrest.
      replace (done ++ a :: l)%list with ((done ++ [a]) ++ l)%list
        by now rewrite <- app_assoc.
      apply (IH _ st1); [| assumption].
      exact (unique_step_state _ _ _ _ Hst Hstep). }
  destruct (foldM unique_step all_articles ([], [])) as [[seen uniq] |] eqn:Hloop;
    [| discriminate].
  cbn [bind snd]. intros H; injection H as <-. exists seen.
  apply (Hgen all_articles [] ([], [])); [| assumption].
  refine (conj _ (conj _ (conj _ (conj _ _)))); cbn [fst snd map].
  - constructor.
  - intros a [].
  - constructor.
  - tauto.
  - intros a [].
Qed.

(** *** Sorting *)

Section Sorting.

Context {A : Type}.
Variable key : A -> datetime.

Lemma insert_sorted_Permutation x l l' :
  insert_sorted key x l = Ok l' -> Permutation (x :: l) l'.
Proof.
  revert l'. induction l as [| y l IH]; intros l'; cbn [insert_sorted].
  - intros H; now injection H as <-.
  - destruct (datetime_lt (key x) (key y)) as [[|] |]; cbn [bind];
      [intros H; now injection H as <- | | discriminate].
    destruct (insert_sorted key x l) as [r |]; [| discriminate].
    cbn [bind]. intros H; injection H as <-.
    rewrite perm_swap. constructor. now apply IH.
Qed.

Lemma foldM_insert_Permutation l placed l' :
  foldM (fun placed x => insert_sorted key x placed) l placed = Ok l' ->
  Permutation (placed ++ l) l'.
Proof.
  revert placed. induction l as [| x l IH]; intros placed; cbn [foldM].
  - intros H; injection H as <-. now rewrite app_nil_r.
  - destruct (insert_sorted key x placed) as [placed' |] eqn:Hins; [| discriminate].
    cbn [bind]. intros Hrest. apply IH in Hrest.
    apply insert_sorted_Permutation in Hins.
    rewrite <- Hrest, <- Hins. symmetry. apply Permutation_middle.
Qed.

Lemma sorted_reverse_Permutation items l' :
  sorted_reverse key items = Ok l' -> Permutation items l'.
Proof.
  unfold sorted_reverse, sort.
  destruct (foldM _ (rev items) []) as [r |] eqn:Hsort; [| discriminate].
  cbn [bind]. intros H; injection H as <-.
  apply foldM_insert_Permutation in Hsort. cbn [List.app] in Hsort.
  now rewrite <- Permutation_rev, <- Hsort, <- Permutation_rev.
Qed.

(** Keys of one kind. *)
Lemma insert_sorted_kind k x l :
  aware (key x) = k ->
  Forall (fun y => aware (key y) = k) l ->
  exists l', insert_sorted key x l = Ok l' /\
             l' <> [] /\ Forall (fun y => aware (key y) = k) l'.
Proof.
  intros Hx. induction 1 as [| y l Hy Hl IH]; cbn [insert_sorted].
  - exists [x]. repeat split; [discriminate | now constructor].
  - destruct IH as [r [Hr [_ Hkind]]]. rewrite Hr.
    assert (Hlt : exists c, datetime_lt (key x) (key y) = Ok c).
    { assert (Hxy : aware (key x) = aware (key y)) by congruence.
      revert Hxy. destruct (key x), (key y); cbn [aware datetime_lt];
        intros Hxy; try discriminate Hxy; eexists; reflexivity. }
    destruct Hlt as [c ->]. cbn [bind].
    destruct c; eexists; (split; [reflexivity |]); (split; [discriminate |]);
      repeat constructor; assumption.
Qed.

Lemma insert_sorted_other_kind x l :
  l <> [] ->
  Forall (fun y => aware (key y) = negb (aware (key x))) l ->
  insert_sorted key x l = Raise TypeError.
Proof.
  intros Hne Hl. destruct Hl as [| y l Hy _]; [congruence |].
  cbn [insert_sorted].
  destruct (key x), (key y); cbn [aware negb] in Hy; try discriminate; reflexivity.
Qed.

Lemma foldM_insert_mixed k l placed x :
  placed <> [] ->
  Forall (fun y => aware (key y) = k) placed ->
  In x l -> aware (key x) = negb k ->
  foldM (fun placed x => insert_sorted key x placed) l placed = Raise TypeError.
Proof.
  revert placed. induction l as [| y l IH]; intros placed Hne Hplaced Hin Hx;
    [destruct Hin |].
  cbn [foldM].
  destruct (Bool.bool_dec (aware (key y)) k) as [Hy | Hy].
  - destruct (insert_sorted_kind k y placed Hy Hplaced) as [placed' [Hins [Hne' Hk]]].
    rewrite Hins. cbn [bind].
    destruct Hin as [-> | Hin]; [| now apply IH].
    rewrite Hy in Hx. now destruct k.
  - rewrite insert_sorted_other_kind; [reflexivity | assumption |].
    replace (negb (aware (key y))) with k
      by (destruct (aware (key y)) eqn:E, k; try reflexivity; congruence).
    assumption.
Qed.

Lemma sort_mixed l a b :
  In a l -> In b l -> aware (key a) = true -> aware (key b) = false ->
  sort key l = Raise TypeError.
Proof.
  intros Ha Hb Hka Hkb. unfold sort. destruct l as [| x l]; [destruct Ha |].
  cbn [foldM insert_sorted bind].
  destruct (aware (key x)) eqn:Hx.
  - apply (foldM_insert_mixed true l [x] b); try discriminate.
    + now repeat constructor.
    + destruct Hb as [-> | Hb]; [congruence | assumption].
    + assumption.
  - apply (foldM_insert_mixed false l [x] a); try discriminate.
    + now repeat constructor.
    + destruct Ha as [-> | Ha]; [congruence | assumption].
    + assumption.
Qed.

Lemma sorted_reverse_mixed items a b :
  In a items -> In b items -> aware (key a) = true -> aware (key b) = false ->
  sorted_reverse key items = Raise TypeError.
Proof.
  intros Ha Hb Hka Hkb. unfold sorted_reverse.
  rewrite (sort_mixed (rev items) a b); try assumption; try reflexivity;
    now apply -> in_rev.
Qed.

(** No key is a date: nothing moves. *)
Lemma insert_sorted_Min x l :
  key x = Min -> Forall (fun y => key y = Min) l ->
  insert_sorted key x l = Ok (l ++ [x])%list.
Proof.
  intros Hx. induction 1 as [| y l Hy Hl IH]; cbn [insert_sorted]; [reflexivity |].
  rewrite Hx, Hy. cbn [datetime_lt bind]. now rewrite IH.
Qed.

Lemma foldM_insert_Min l placed :
  Forall (fun y => key y = Min) placed ->
  Forall (fun y => key y = Min) l ->
  foldM (fun placed x => insert_sorted key x placed) l placed = Ok (placed ++ l)%list.
Proof.
  intros Hplaced Hl. revert placed Hplaced.
  induction Hl as [| x l Hx Hl IH]; intros placed Hplaced; cbn [foldM].
  - now rewrite app_nil_r.
  - rewrite insert_sorted_Min by assumption. cbn [bind].
    rewrite IH; [now rewrite <- app_assoc |].
    apply Forall_app. split; [assumption | now repeat constructor].
Qed.

Lemma sorted_reverse_Min items :
  Forall (fun y => key y = Min) items ->
  sorted_reverse key items = Ok items.
Proof.
  intros H. unfold sorted_reverse, sort.
  rewrite foldM_insert_Min; [| constructor | now apply Forall_rev].
  cbn [bind List.app]. now rewrite rev_involutive.
Qed.

(** Every key is a date: the order of the instants. *)
Lemma insert_sorted_aware x l :
  aware (key x) = true ->
  Forall (fun y => aware (key y) = true) l ->
  StronglySorted (earlier key) l ->
  exists l', insert_sorted key x l = Ok l' /\ StronglySorted (earlier key) l'.
Proof.
  intros Hx Hl Hsorted. induction Hsorted as [| y l Hsorted IH Hy];
    cbn [insert_sorted].
  - exists [x]. split; [reflexivity | repeat constructor].
  - apply Forall_cons_iff in Hl. destruct Hl as [Hky Hl].
    destruct (key x) as [t |] eqn:Hkx; [| discriminate].
    destruct (key y) as [u |] eqn:Hku; [| discriminate].
    cbn [datetime_lt bind]. destruct (Z.ltb_spec t u) as [Hlt | Hge].
    + eexists. split; [reflexivity |]. constructor; [now constructor |].
      constructor.
      * unfold earlier. rewrite Hkx, Hku. cbn [instant_of]. lia.
      * eapply Forall_impl; [| exact Hy]. intros z Hz. unfold earlier in *.
        rewrite Hkx. rewrite Hku in Hz. cbn [instant_of] in *. lia.
    + destruct (IH Hl) as [r [Hr Hrs]]. rewrite Hr. cbn [bind].
      eexists. split; [reflexivity |]. constructor; [assumption |].
      apply insert_sorted_Permutation in Hr.
      eapply Permutation_Forall; [exact Hr |]. constructor; [| assumption].
      unfold earlier. rewrite Hkx, Hku. cbn [instant_of]. lia.
Qed.

Lemma foldM_insert_aware l placed :
  Forall (fun y => aware (key y) = true) l ->
  Forall (fun y => aware (key y) = true) placed ->
  StronglySorted (earlier key) placed ->
  exists l', foldM (fun placed x => insert_sorted key x placed) l placed = Ok l' /\
             StronglySorted (earlier key) l'.
Proof.
  intros Hl. revert placed. induction Hl as [| x l Hx Hl IH];
    intros placed Hplaced Hsorted; cbn [foldM].
  - now exists placed.
  - destruct (insert_sorted_aware x placed Hx Hplaced Hsorted) as [p [Hp Hps]].
    rewrite Hp. cbn [bind]. apply IH; [| assumption].
    apply insert_sorted_Permutation in Hp.
    eapply Permutation_Forall; [exact Hp |]. now constructor.
Qed.

Lemma StronglySorted_snoc (R : A -> A -> Prop) l x :
  StronglySorted R l -> Forall (fun y => R y x) l -> StronglySorted R (l ++ [x]).
Proof.
  induction 1 as [| y l Hl IH Hy]; intros Hx; cbn [List.app].
  - repeat constructor.
  - apply Forall_cons_iff in Hx. destruct Hx as [Hyx Hx].
    constructor; [now apply IH |].
    apply Forall_app. split; [assumption | now repeat constructor].
Qed.

Lemma StronglySorted_rev (R : A -> A -> Prop) l :
  StronglySorted R l -> StronglySorted (fun x y => R y x) (rev l).
Proof.
  induction 1 as [| y l Hl IH Hy]; cbn [rev]; [constructor |].
  apply StronglySorted_snoc; [assumption |]. now apply Forall_rev.
Qed.

Lemma sorted_reverse_aware items :
  Forall (fun y => aware (key y) = true) items ->
  exists l', sorted_reverse key items = Ok l' /\
             StronglySorted (fun x y => earlier key y x) l'.
Proof.
  intros H. unfold sorted_reverse, sort.
  destruct (foldM_insert_aware (rev items) []) as [r [Hr Hrs]];
    [now apply Forall_rev | constructor | constructor |].
  rewrite Hr. cbn [bind]. exists (rev r). split; [reflexivity |].
  now apply StronglySorted_rev.
Qed.

End Sorting.

Lemma distinct_urls_usable l :
  distinct_urls l -> Forall (fun a => is_dict a /\ truthy (url_of a) = true) l.
Proof. induction 1; constructor; auto. Qed.

Section NewsProperties.

Variable strptime : string -> option Z.

Lemma mediastack_news_steps net shown :
  mediastack_news strptime net = Ok shown ->
  exists all_articles unique sorted_articles,
    fetch_articles net = Ok all_articles /\
    unique_articles all_articles = Ok unique /\
    sorted_reverse (parse_date strptime) unique = Ok sorted_articles /\
    shown = firstn 5 sorted_articles.
Proof.
  unfold mediastack_news.
  destruct (fetch_articles net) as [all_articles |] eqn:Hfetch; [| discriminate].
  cbn [bind].
  destruct (unique_articles all_articles) as [unique |] eqn:Hunique;
    [| discriminate].
  cbn [bind].
  destruct (sorted_reverse (parse_date strptime) unique) as [sorted_articles |]
    eqn:Hsort; [| discriminate].
  cbn [bind]. intros H; injection H as <-.
  now exists all_articles, unique, sorted_articles.
Qed.

Lemma dated_aware a :
  dated strptime a <-> aware (parse_date strptime a) = true.
Proof.
  unfold dated. destruct (parse_date strptime a) as [t |]; cbn [aware].
  - split; [reflexivity | now exists t].
  - split; [intros [t H]; discriminate H | discriminate].
Qed.

(** X16. The news page shows at most five articles; each is an item of
    the [data] of a 200 response to one of the ten keyword requests, is an
    object with a non-empty [url], and no two of them have the same
    [url]. *)
Theorem news_shown_distinct net shown :
  mediastack_news strptime net = Ok shown ->
  (List.length shown <= 5)%nat /\
  NoDup (map url_of shown) /\
  Forall (fun a => is_dict a /\ truthy (url_of a) = true /\ served net a) shown.
Proof.
  intros H. apply mediastack_news_steps in H.
  destruct H as [all_articles [unique [sorted_articles [Hfetch [Hunique [Hsort ->]]]]]].
  apply fetch_articles_served in Hfetch.
  apply unique_articles_state in Hunique.
  destruct Hunique as [seen [Hdistinct [Hincl _]]]. cbn [snd] in *.
  apply sorted_reverse_Permutation in Hsort.
  split; [apply firstn_le_length |]. split.
  - assert (Hnodup : NoDup (map url_of sorted_articles)).
    { eapply Permutation_NoDup; [apply Permutation_map; exact Hsort |].
      now apply distinct_urls_NoDup. }
    rewrite <- (firstn_skipn 5 sorted_articles), map_app in Hnodup.
    exact (NoDup_app_remove_r _ _ Hnodup).
  - apply Forall_forall. intros a Ha.
    assert (Hin : In a unique).
    { eapply Permutation_in; [symmetry; exact Hsort |].
      rewrite <- (firstn_skipn 5 sorted_articles). apply in_or_app. now left. }
    pose proof (distinct_urls_usable _ Hdistinct) as Husable.
    rewrite Forall_forall in Husable, Hfetch.
    destruct (Husable a Hin) as [Hdict Htruthy].
    repeat split; try assumption. apply Hfetch, Hincl, Hin.
Qed.

(** X17. When every distinct article has a date in the format, the page
    shows the latest five, newest first: the articles shown followed by
    those left out are the distinct articles in an order in which none is
    newer than one before it. *)
Theorem news_latest_first net all_articles unique :
  fetch_articles net = Ok all_articles ->
  unique_articles all_articles = Ok unique ->
  Forall (dated strptime) unique ->
  exists shown rest,
    mediastack_news strptime net = Ok shown /\
    Permutation unique (shown ++ rest) /\
    List.length shown = Nat.min 5 (List.length unique) /\
    StronglySorted (not_newer strptime) (shown ++ rest).
Proof.
  intros Hfetch Hunique Hdated. unfold mediastack_news.
  rewrite Hfetch. cbn [bind]. rewrite Hunique. cbn [bind].
  destruct (sorted_reverse_aware (parse_date strptime) unique) as [l [Hl Hsorted]].
  { eapply Forall_impl; [| exact Hdated]. intros a. apply dated_aware. }
  rewrite Hl. cbn [bind].
  apply sorted_reverse_Permutation in Hl.
  exists (firstn 5 l), (skipn 5 l). rewrite firstn_skipn.
  repeat split; try assumption.
  rewrite length_firstn. now rewrite (Permutation_length Hl).
Qed.

(** X18. When no distinct article has a date in the format, the page
    shows the first five distinct articles in the order the requests
    returned them. *)
Theorem news_undated_in_feed_order net all_articles unique :
  fetch_articles net = Ok all_articles ->
  unique_articles all_articles = Ok unique ->
  Forall (fun a => ~ dated strptime a) unique ->
  mediastack_news strptime net = Ok (firstn 5 unique).
Proof.
  intros Hfetch Hunique Hundated. unfold mediastack_news.
  rewrite Hfetch. cbn [bind]. rewrite Hunique. cbn [bind].
  rewrite sorted_reverse_Min; [reflexivity |].
  eapply Forall_impl; [| exact Hundated]. intros a Ha.
  destruct (parse_date strptime a) as [t |] eqn:Hkey; [| reflexivity].
  exfalso. apply Ha. now exists t.
Qed.

(** X19. One article whose date is not in the format, among distinct
    articles of which another has one, takes the page down: [parse_date]
    answers [datetime.min], which does not compare with the aware dates,
    and [sorted] raises [TypeError]. *)
Theorem news_mixed_dates_raise net all_articles unique a b :
  fetch_articles net = Ok all_articles ->
  unique_articles all_articles = Ok unique ->
  In a unique -> In b unique ->
  dated strptime a -> ~ dated strptime b ->
  mediastack_news strptime net = Raise TypeError.
Proof.
  intros Hfetch Hunique Ha Hb Hda Hdb. unfold mediastack_news.
  rewrite Hfetch. cbn [bind]. rewrite Hunique. cbn [bind].
  rewrite (sorted_reverse_mixed (parse_date strptime) unique a b); try assumption.
  - reflexivity.
  - now apply dated_aware.
  - destruct (aware (parse_date strptime b)) eqn:Hk; [| reflexivity].
    exfalso. now apply Hdb, dated_aware.
Qed.

(** X20. One request that goes wrong out of the ten (the connection, a
    200 whose body is not JSON or not an object, a [data] that cannot be
    iterated) leaves the page without any news: nothing is caught, so the
    exception ends the run whatever the other requests returned. *)
Theorem news_request_failure net keyword e :
  In keyword disaster_keywords ->
  news_request (net keyword) = Raise e ->
  exists e', mediastack_news strptime net = Raise e'.
Proof.
  intros Hk Hraise. unfold mediastack_news, fetch_articles.
  destruct (foldM_raise
              (fun all_articles keyword =>
                 more <- news_request (net keyword) ;;
                 Ok (all_articles ++ more)%list)
              keyword) with (l := disaster_keywords) (a := @nil pyval)
    as [e' He'].
  - intros acc. exists e. now rewrite Hraise.
  - exact Hk.
  - exists e'. now rewrite He'.
Qed.

End NewsProperties.

Lemma news_shown_distinct_witness :
  (List.length
     [news_article "http://a.example/2" "2025-03-03T10:00:00+0000";
      news_article "http://a.example/3" "2025-03-02T10:00:00+0000";
      news_article "http://a.example/1" "2025-03-01T10:00:00+0000"] <= 5)%nat /\
  NoDup (map url_of
     [news_article "http://a.example/2" "2025-03-03T10:00:00+0000";
      news_article "http://a.example/3" "2025-03-02T10:00:00+0000";
      news_article "http://a.example/1" "2025-03-01T10:00:00+0000"]) /\
  Forall (fun a => is_dict a /\ truthy (url_of a) = true /\ served two_keywords a)
     [news_article "http://a.example/2" "2025-03-03T10:00:00+0000";
      news_article "http://a.example/3" "2025-03-02T10:00:00+0000";
      news_article "http://a.example/1" "2025-03-01T10:00:00+0000"].
Proof.
  apply (news_shown_distinct known_timestamps two_keywords). reflexivity.
Defined.

Lemma news_latest_first_witness :
  exists shown rest,
    mediastack_news known_timestamps two_keywords = Ok shown /\
    Permutation
      [news_article "http://a.example/1" "2025-03-01T10:00:00+0000";
       news_article "http://a.example/2" "2025-03-03T10:00:00+0000";
       news_article "http://a.example/3" "2025-03-02T10:00:00+0000"]
      (shown ++ rest) /\
    List.length shown = Nat.min 5 3 /\
    StronglySorted (not_newer known_timestamps) (shown ++ rest).
Proof.
  apply (news_latest_first known_timestamps two_keywords
           [news_article "http://a.example/1" "2025-03-01T10:00:00+0000";
            news_article "http://a.example/2" "2025-03-03T10:00:00+0000";
            news_article "http://a.example/2" "2025-03-03T10:00:00+0000";
            news_article "http://a.example/3" "2025-03-02T10:00:00+0000"]);
    [reflexivity | reflexivity |].
  repeat constructor; eexists; reflexivity.
Defined.

Lemma news_undated_in_feed_order_witness :
  mediastack_news (fun _ => None) two_keywords
  = Ok (firstn 5
          [news_article "http://a.example/1" "2025-03-01T10:00:00+0000";
           news_article "http://a.example/2" "2025-03-03T10:00:00+0000";
           news_article "http://a.example/3" "2025-03-02T10:00:00+0000"]).
Proof.
  apply (news_undated_in_feed_order (fun _ => None) two_keywords
           [news_article "http://a.example/1" "2025-03-01T10:00:00+0000";
            news_article "http://a.example/2" "2025-03-03T10:00:00+0000";
            news_article "http://a.example/2" "2025-03-03T10:00:00+0000";
            news_article "http://a.example/3" "2025-03-02T10:00:00+0000"]);
    [reflexivity | reflexivity |].
  repeat constructor; intros [t H]; discriminate H.
Defined.

Lemma news_mixed_dates_raise_witness :
  mediastack_news known_timestamps one_bad_date = Raise TypeError.
Proof.
  apply (news_mixed_dates_raise known_timestamps one_bad_date
           [news_article "http://a.example/1" "2025-03-01T10:00:00+0000";
            news_article "http://a.example/2" "2025-03-03T10:00:00+0000";
            news_article "http://a.example/2" "2025-03-03T10:00:00+0000";
            news_article "http://a.example/3" "2025-03-02T10:00:00+0000";
            news_article "http://a.example/4" "yesterday"]
           [news_article "http://a.example/1" "2025-03-01T10:00:00+0000";
            news_article "http://a.example/2" "2025-03-03T10:00:00+0000";
            news_article "http://a.example/3" "2025-03-02T10:00:00+0000";
            news_article "http://a.example/4" "yesterday"]
           (news_article "http://a.example/1" "2025-03-01T10:00:00+0000")
           (news_article "http://a.example/4" "yesterday"));
    [reflexivity | reflexivity | now left | do 3 right; now left | |].
  - eexists; reflexivity.
  - intros [t H]; discriminate H.
Defined.

Lemma news_request_failure_witness :
  exists e', mediastack_news known_timestamps one_request_fails = Raise e'.
Proof.
  apply (news_request_failure known_timestamps one_request_fails
           "tornado" ConnectionError); [| reflexivity].
  do 9 right. now left.
Defined.

(** ** The prediction page *)

Lemma before_colon_uint d s :
  before_colon (NilEmpty.string_of_uint d ++ String ":" s)
  = NilEmpty.string_of_uint d.
Proof.
  induction d; cbn [NilEmpty.string_of_uint String.append before_colon Ascii.eqb
                    Bool.eqb]; try (now rewrite IHd).
  reflexivity.
Qed.

Lemma before_colon_str_int z s :
  before_colon (str_int z ++ String ":" s) = str_int z.
Proof.
  unfold str_int.
  assert (Huint : forall d,
            before_colon (NilZero.string_of_uint d ++ String ":" s)
            = NilZero.string_of_uint d).
  { intros d. destruct d; try apply before_colon_uint. reflexivity. }
  destruct (Z.to_int z) as [d | d]; cbn [NilZero.string_of_int].
  - apply Huint.
  - cbn [String.append before_colon Ascii.eqb Bool.eqb]. now rewrite Huint.
Qed.

Lemma decimal_int_str_int z : decimal_int (str_int z) = Ok z.
Proof.
  unfold decimal_int, str_int.
  rewrite NilZero.isi.
  - now rewrite DecimalZ.of_to.
  - destruct z as [| p | p]; cbn; try discriminate.
    intros H; injection H as H. exact (DecimalPos.Unsigned.to_uint_nonnil p H).
  - destruct z as [| p | p]; cbn; try discriminate.
    intros H; injection H as H. exact (DecimalPos.Unsigned.to_uint_nonnil p H).
Qed.

Section PredictionProperties.

Variable int_of_str : string -> result Z.

(** [int] reads what [str] writes. *)
Hypothesis int_of_str_int : forall z, int_of_str (str_int z) = Ok z.

(** X21. The index a dropdown of the prediction page hands to the model
    is the key of the entry picked, whatever the text of its value, a
    colon in it included. *)
Theorem dropdown_index_is_key mapping choice key value :
  nth_error mapping choice = Some (key, value) ->
  dropdown_index int_of_str mapping choice = Ok key.
Proof.
  intros Hpick. unfold dropdown_index, selectbox.
  rewrite nth_error_map, Hpick. cbn [option_map].
  unfold option_text. cbn [fst snd].
  change (": " ++ value) with (String ":" (String " " value)).
  rewrite before_colon_str_int. apply int_of_str_int.
Qed.

End PredictionProperties.

Lemma dropdown_index_is_key_witness :
  dropdown_index decimal_int magnitude_scale_mapping 4 = Ok 4.
Proof.
  apply (dropdown_index_is_key decimal_int decimal_int_str_int
           magnitude_scale_mapping 4%nat 4 "Temperature (°C)").
  reflexivity.
Defined.
